(** * dev-skin adapter: command allowlist, process sandbox, confirmation
      gate and keychain store

    A shallow embedding of
      - [adapter/security/commandAllowlist.js]  (module [CommandAllowlist]),
      - [adapter/security/sandbox.js]           (module [Sandbox]),
      - the [POST /create-pr] handler of [adapter/index.js] (module [CreatePr]),
      - [adapter/security/keychain.js]          (module [Keychain]),
    followed by the properties proved about them.

    JavaScript strings are sequences of UTF-16 code units; they are modelled
    as lists of [N].  Regular expressions are modelled by their language
    (the source only ever calls [RegExp.prototype.test] on patterns without
    captures, back-references or the [g]/[y] flags, so [test] is language
    membership of some substring) and decided with Brzozowski derivatives. *)

From Stdlib Require Import List NArith ZArith Bool String Ascii Lia DecimalString.
From Stdlib Require Import Permutation Sorted.
Import ListNotations.
Local Open Scope N_scope.

(* ================================================================== *)
(** * Part I: definitions                                              *)
(* ================================================================== *)

(** ** JavaScript strings *)

Module JSString.

Definition jsstring : Type := list N.

(** A string literal of the source, as code units (ASCII literals only). *)
Definition js (s : string) : jsstring :=
  map N_of_ascii (list_ascii_of_string s).

Fixpoint str_eqb (a b : jsstring) : bool :=
  match a, b with
  | [], [] => true
  | x :: a', y :: b' => (x =? y) && str_eqb a' b'
  | _, _ => false
  end.

(** ECMAScript WhiteSpace and LineTerminator code units: what [trim]
    strips and what [\s] matches. *)
Definition isWhiteSpace (c : N) : bool :=
  existsb (N.eqb c)
    [9; 10; 11; 12; 13; 32; 160; 5760; 8232; 8233; 8239; 8287; 12288; 65279]
  || ((8192 <=? c) && (c <=? 8202)).

Fixpoint trimStart (s : jsstring) : jsstring :=
  match s with
  | [] => []
  | c :: r => if isWhiteSpace c then trimStart r else s
  end.

Fixpoint trimEnd (s : jsstring) : jsstring :=
  match s with
  | [] => []
  | c :: r =>
      match trimEnd r with
      | [] => if isWhiteSpace c then [] else [c]
      | t => c :: t
      end
  end.

(** [String.prototype.trim] *)
Definition trim (s : jsstring) : jsstring := trimEnd (trimStart s).

(** [s.split(c)[0]] for a one-character separator [c]: the part of [s]
    before the first occurrence of [c], all of [s] when there is none. *)
Fixpoint before (c : N) (s : jsstring) : jsstring :=
  match s with
  | [] => []
  | x :: r => if x =? c then [] else x :: before c r
  end.

(** [s.split(/\s+/)]: the pieces between maximal runs of white space; a
    leading or trailing run yields an empty first or last piece, and the
    empty string yields one empty piece. *)
Fixpoint splitWs_go (inSep : bool) (cur : jsstring) (s : jsstring)
  : list jsstring :=
  match s with
  | [] => [cur]
  | c :: r =>
      if isWhiteSpace c
      then (if inSep then splitWs_go true cur r
            else cur :: splitWs_go true [] r)
      else splitWs_go false (cur ++ [c]) r
  end.

Definition splitWs (s : jsstring) : list jsstring := splitWs_go false [] s.

(** [parts.join(' ')] *)
Fixpoint join_space (parts : list jsstring) : jsstring :=
  match parts with
  | [] => []
  | [p] => p
  | p :: rest => p ++ 32 :: join_space rest
  end.

(** [String(n)] for a non-negative integer below 10^21, which JavaScript
    prints in full; from 10^21 on it prints an exponent, which this
    function does not. *)
Definition decimal (n : N) : jsstring :=
  js (NilZero.string_of_uint (N.to_uint n)).

End JSString.
Import JSString.

(** ** Regular expressions *)

Module RegExp.

(** Character classes that occur in the source's patterns.  [CChar c] is
    the literal [c] under the [i] flag. *)
Inductive cclass : Type :=
| CChar (c : N)
| CSpace          (* \s *)
| CDot            (* .  : anything but a line terminator *)
| CAll.           (* any code unit; used for the unanchored search *)

Definition isLower (c : N) : bool := (97 <=? c) && (c <=? 122).
Definition isUpper (c : N) : bool := (65 <=? c) && (c <=? 90).

(** Canonicalize of the [i] flag (non-unicode mode).  A code unit of 128 or
    more never canonicalizes to an ASCII one, and every literal in the
    source's patterns is ASCII, so only the ASCII case mapping matters. *)
Definition canon (c : N) : N := if isLower c then c - 32 else c.

Definition isLineTerminator (c : N) : bool :=
  existsb (N.eqb c) [10; 13; 8232; 8233].

Definition class_mem (k : cclass) (x : N) : bool :=
  match k with
  | CChar c => canon x =? canon c
  | CSpace => isWhiteSpace x
  | CDot => negb (isLineTerminator x)
  | CAll => true
  end.

Inductive regex : Type :=
| Void
| Eps
| Cls (k : cclass)
| Cat (r1 r2 : regex)
| Alt (r1 r2 : regex)
| Star (r : regex).

(** The language of a regular expression. *)
Inductive matches : regex -> jsstring -> Prop :=
| MEps : matches Eps []
| MCls k c : class_mem k c = true -> matches (Cls k) [c]
| MCat r1 r2 s1 s2 :
    matches r1 s1 -> matches r2 s2 -> matches (Cat r1 r2) (s1 ++ s2)
| MAltL r1 r2 s : matches r1 s -> matches (Alt r1 r2) s
| MAltR r1 r2 s : matches r2 s -> matches (Alt r1 r2) s
| MStar0 r : matches (Star r) []
| MStarS r s1 s2 :
    matches r s1 -> matches (Star r) s2 -> matches (Star r) (s1 ++ s2).

Fixpoint nullable (r : regex) : bool :=
  match r with
  | Void => false
  | Eps => true
  | Cls _ => false
  | Cat a b => nullable a && nullable b
  | Alt a b => nullable a || nullable b
  | Star _ => true
  end.

(** Simplifying constructors: they keep derivatives small. *)
Definition mkCat (a b : regex) : regex :=
  match a, b with
  | Void, _ => Void
  | _, Void => Void
  | Eps, _ => b
  | _, _ => Cat a b
  end.

Definition mkAlt (a b : regex) : regex :=
  match a, b with
  | Void, _ => b
  | _, Void => a
  | _, _ => Alt a b
  end.

Fixpoint deriv (c : N) (r : regex) : regex :=
  match r with
  | Void => Void
  | Eps => Void
  | Cls k => if class_mem k c then Eps else Void
  | Cat a b =>
      if nullable a
      then mkAlt (mkCat (deriv c a) b) (deriv c b)
      else mkCat (deriv c a) b
  | Alt a b => mkAlt (deriv c a) (deriv c b)
  | Star a => mkCat (deriv c a) (Star a)
  end.

Definition derivs (s : jsstring) (r : regex) : regex :=
  fold_left (fun r c => deriv c r) s r.

Definition accepts (r : regex) (s : jsstring) : bool :=
  nullable (derivs s r).

(** Pattern combinators *)
Definition ws : regex := Cls CSpace.
Definition dot : regex := Cls CDot.
Definition plus (r : regex) : regex := Cat r (Star r).
Definition lit (s : string) : regex :=
  fold_right (fun c r => Cat (Cls (CChar c)) r) Eps (js s).
Definition seq (rs : list regex) : regex := fold_right Cat Eps rs.

(** A regular expression literal: its body and whether it is anchored with
    [^] at the start or [$] at the end. *)
Record pattern : Type := mkPattern {
  body : regex;
  anchorStart : bool;
  anchorEnd : bool
}.

Definition search (rs : list regex) : pattern := mkPattern (seq rs) false false.
Definition searchEnd (rs : list regex) : pattern := mkPattern (seq rs) false true.

Definition anyStar : regex := Star (Cls CAll).

Definition wrap (p : pattern) : regex :=
  Cat (if anchorStart p then Eps else anyStar)
      (Cat (body p) (if anchorEnd p then Eps else anyStar)).

(** [pattern.test(s)] *)
Definition test (p : pattern) (s : jsstring) : bool := accepts (wrap p) s.

(** [requires c r]: a sufficient syntactic condition for every string of
    the language of [r] to contain the (non-letter) code unit [c]. *)
Fixpoint requires (c : N) (r : regex) : bool :=
  match r with
  | Void => true
  | Eps => false
  | Cls (CChar c') => (c =? c') && negb (isLower c') && negb (isUpper c')
  | Cls _ => false
  | Cat a b => requires c a || requires c b
  | Alt a b => requires c a && requires c b
  | Star _ => false
  end.

End RegExp.
Import RegExp.

(** ** JavaScript completions *)

(** A call either returns normally or throws. *)
Inductive completion (E A : Type) : Type :=
| Normal (a : A)
| Throw (e : E).
Arguments Normal {E A} a.
Arguments Throw {E A} e.

(** ** adapter/security/commandAllowlist.js *)

Module CommandAllowlist.

(** The own properties of the [ALLOWED_COMMANDS] object literal. *)
Definition ALLOWED_COMMANDS : list (jsstring * list jsstring) := [
  (js "git", [js "status"; js "diff"; js "log"; js "ls-files";
              js "diff --cached --name-only"; js "checkout -b"; js "add .";
              js "commit -m"; js "push -u origin"; js "branch";
              js "remote -v"; js "show"]);
  (js "npm", [js "test"; js "run test"]);
  (js "yarn", [js "test"]);
  (js "node", []);
  (js "python", [js "-m pytest"; js "-m unittest"]);
  (js "pytest", []);
  (js "ls", []);
  (js "dir", []);
  (js "pwd", []);
  (js "echo", [])
].

Definition DANGEROUS_PATTERNS : list pattern := [
  search [lit "rm"; plus ws; lit "-rf"];                       (* /rm\s+-rf/i *)
  search [lit "rm"; plus ws; lit "-r"; plus ws];               (* /rm\s+-r\s+/i *)
  search [lit "del"; plus ws; lit "/s"];                       (* /del\s+\/s/i *)
  search [lit "rmdir"; plus ws; lit "/s"];                     (* /rmdir\s+\/s/i *)
  search [lit "format"; plus ws];                              (* /format\s+/i *)
  search [lit "mkfs"];                                         (* /mkfs/i *)
  search [lit "dd"; plus ws; lit "if="];                       (* /dd\s+if=/i *)
  search [lit "shutdown"];                                     (* /shutdown/i *)
  search [lit "reboot"];                                       (* /reboot/i *)
  search [lit "sudo"];                                         (* /sudo/i *)
  search [lit "su"; plus ws];                                  (* /su\s+/i *)
  searchEnd [lit "|"; Star ws; lit "sh"; Star ws];             (* /\|\s*sh\s*$/i *)
  searchEnd [lit "|"; Star ws; lit "bash"; Star ws];           (* /\|\s*bash\s*$/i *)
  searchEnd [lit "|"; Star ws; lit "cmd"; Star ws];            (* /\|\s*cmd\s*$/i *)
  searchEnd [lit "|"; Star ws; lit "powershell"; Star ws];     (* /\|\s*powershell\s*$/i *)
  search [lit ">"; Star ws; lit "/dev/null"];                  (* />\s*\/dev\/null/i *)
  search [lit "curl"; plus ws; Star dot; plus ws; lit "|"; Star ws; lit "sh"];
                                                   (* /curl\s+.*\s+\|\s*sh/i *)
  search [lit "wget"; plus ws; Star dot; plus ws; lit "|"; Star ws; lit "sh"];
                                                   (* /wget\s+.*\s+\|\s*sh/i *)
  search [lit "eval"; Star ws; lit "("];                       (* /eval\s*\(/i *)
  search [lit "exec"; Star ws; lit "("];                       (* /exec\s*\(/i *)
  search [lit "system"; Star ws; lit "("];                     (* /system\s*\(/i *)
  search [lit "chmod"; plus ws; lit "777"];                    (* /chmod\s+777/i *)
  search [lit "chown"; plus ws];                               (* /chown\s+/i *)
  search [lit "kill"; plus ws; lit "-9"];                      (* /kill\s+-9/i *)
  search [lit "pkill"]                                         (* /pkill/i *)
].

(** What [ALLOWED_COMMANDS[key]] evaluates to.  The object literal inherits
    from [Object.prototype], so a key such as [toString] finds a function
    (whose [length] is its arity) and [__proto__] finds the prototype
    object itself. *)
Inductive value : Type :=
| VUndefined
| VArray (items : list jsstring)
| VFunction (arity : N)
| VObject.

Definition Object_prototype : list (jsstring * value) := [
  (js "constructor", VFunction 1);
  (js "__defineGetter__", VFunction 2);
  (js "__defineSetter__", VFunction 2);
  (js "hasOwnProperty", VFunction 1);
  (js "__lookupGetter__", VFunction 1);
  (js "__lookupSetter__", VFunction 1);
  (js "isPrototypeOf", VFunction 1);
  (js "propertyIsEnumerable", VFunction 1);
  (js "toString", VFunction 0);
  (js "valueOf", VFunction 0);
  (js "toLocaleString", VFunction 0);
  (js "__proto__", VObject)
].

Fixpoint assoc {A : Type} (key : jsstring) (l : list (jsstring * A))
  : option A :=
  match l with
  | [] => None
  | (k, v) :: rest => if str_eqb key k then Some v else assoc key rest
  end.

Definition getProperty (key : jsstring) : value :=
  match assoc key ALLOWED_COMMANDS with
  | Some items => VArray items
  | None =>
      match assoc key Object_prototype with
      | Some v => v
      | None => VUndefined
      end
  end.

(** [new RegExp(`^${allowedArg.replace(/\s+/g, '\\s+')}`, 'i')], for the
    pattern sources that occur in [ALLOWED_COMMANDS]: letters, [-], white
    space, and [.], which the source leaves unescaped. *)
Fixpoint argRegex_go (inWs : bool) (s : jsstring) : regex :=
  match s with
  | [] => Eps
  | c :: r =>
      if isWhiteSpace c
      then (if inWs then argRegex_go true r
            else Cat (plus ws) (argRegex_go true r))
      else Cat (Cls (if c =? 46 then CDot else CChar c)) (argRegex_go false r)
  end.

Definition argPattern (allowedArg : jsstring) : pattern :=
  mkPattern (argRegex_go false allowedArg) true false.

(** The only throw the validator can reach: calling [allowedArgs.some]
    when [allowedArgs] is not an array. *)
Inductive TypeError : Type := some_is_not_a_function.

Definition isEmpty (s : jsstring) : bool :=
  match s with [] => true | _ => false end.

Definition isCommandAllowed (command : jsstring) : completion TypeError bool :=
  if isEmpty command then Normal false
  else if existsb (fun pattern => test pattern command) DANGEROUS_PATTERNS
  then Normal false
  else
    let parts := splitWs (trim command) in
    let baseCommand := hd [] parts in
    let args := join_space (tl parts) in
    match getProperty baseCommand with
    | VUndefined => Normal false
    | VArray allowedArgs =>
        match allowedArgs with
        | [] => Normal true
        | _ =>
            Normal (existsb
                      (fun allowedArg =>
                         str_eqb args allowedArg
                         || test (argPattern allowedArg) args)
                      allowedArgs)
        end
    | VFunction arity =>
        if arity =? 0 then Normal true else Throw some_is_not_a_function
    | VObject => Throw some_is_not_a_function
    end.

Record ValidationResult : Type := mkValidation {
  allowed : bool;
  sanitized : option jsstring;
  reason : option jsstring
}.

Definition PIPE : N := 124.        (* '|' *)
Definition GT : N := 62.           (* '>' *)
Definition LT : N := 60.           (* '<' *)
Definition AMP : N := 38.          (* '&' *)

Definition strip (command : jsstring) : jsstring :=
  trim (before AMP (before LT (before GT (before PIPE command)))).

Definition validateCommand (command : jsstring)
  : completion TypeError ValidationResult :=
  if isEmpty command
  then Normal (mkValidation false None (Some (js "Invalid command")))
  else
    let sanitized := strip command in
    if negb (str_eqb sanitized (trim command))
    then Normal (mkValidation false None
                   (Some (js "Shell redirection/piping not allowed")))
    else
      match isCommandAllowed sanitized with
      | Throw e => Throw e
      | Normal false =>
          Normal (mkValidation false None (Some (js "Command not in allowlist")))
      | Normal true => Normal (mkValidation true (Some sanitized) None)
      end.

(** A code unit that is neither white space nor a shell metacharacter. *)
Definition plain (c : N) : bool :=
  negb (isWhiteSpace c) && negb (existsb (N.eqb c) [PIPE; GT; LT; AMP]).

End CommandAllowlist.
Import CommandAllowlist.

(** ** adapter/security/sandbox.js *)

Module Sandbox.

Definition DEFAULT_TIMEOUT : N := 60000.
Definition DEFAULT_MAX_MEMORY : N := 512 * 1024 * 1024.
Definition DEFAULT_MAX_BUFFER : N := 10 * 1024 * 1024.

(** The [options] argument; an absent field takes its default. *)
Record Options : Type := mkOptions {
  opt_cwd : option jsstring;
  opt_timeout : option N;
  opt_maxMemory : option N;
  opt_maxBuffer : option N
}.

Definition noOptions : Options := mkOptions None None None None.

Record Limits : Type := mkLimits {
  cwd : jsstring;
  timeout : N;
  maxMemory : N;
  maxBuffer : N
}.

Definition orDefault {A : Type} (o : option A) (d : A) : A :=
  match o with Some a => a | None => d end.

(** The destructuring of [options]; [process_cwd] is [process.cwd()]. *)
Definition limits (process_cwd : jsstring) (options : Options) : Limits :=
  mkLimits (orDefault (opt_cwd options) process_cwd)
           (orDefault (opt_timeout options) DEFAULT_TIMEOUT)
           (orDefault (opt_maxMemory options) DEFAULT_MAX_MEMORY)
           (orDefault (opt_maxBuffer options) DEFAULT_MAX_BUFFER).

Inductive Signal : Type := SIGTERM | SIGKILL.

(** Node's [ChildProcess] object, as far as the sandbox uses it.
    [running]: the operating-system process has not exited (Node drops the
    handle just before it emits ['exit']).  [cp_killed] is the property
    [childProcess.killed]: Node sets it when [kill()] has successfully sent
    a signal; it does not say that the process has terminated.
    [delivered] lists the signals sent to the process. *)
Record ChildProcess : Type := mkChild {
  running : bool;
  cp_killed : bool;
  delivered : list Signal
}.

(** [childProcess.kill(sig)]: sends the signal when the handle is still
    open, and does nothing otherwise. *)
Definition kill (sig : Signal) (cp : ChildProcess) : ChildProcess :=
  if running cp
  then mkChild (running cp) true (delivered cp ++ [sig])
  else cp.

(** The [Error]s that [executeSandboxed] throws or rejects with.
    [ExecutorThrew] is an exception thrown inside the promise executor (by
    the call to [spawn], or by [childProcess.stdout.on] when the child has
    no streams): the promise is rejected with it as it is. *)
Inductive SandboxError : Type :=
| CommandNotAllowed (reason : jsstring)
| ValidatorThrew (e : TypeError)
| CommandTimeout (timeout : N)
| OutputBufferExceeded (maxBuffer : N)
| ErrorBufferExceeded (maxBuffer : N)
| ProcessError (message : jsstring)
| ExecutorThrew (message : jsstring).

Definition error_message (e : SandboxError) : jsstring :=
  match e with
  | CommandNotAllowed reason => js "Command not allowed: " ++ reason
  | ValidatorThrew _ => js "allowedArgs.some is not a function"
  | CommandTimeout t => js "Command timeout after " ++ decimal t ++ js "ms"
  | OutputBufferExceeded b =>
      js "Output buffer exceeded " ++ decimal b ++ js " bytes"
  | ErrorBufferExceeded b =>
      js "Error buffer exceeded " ++ decimal b ++ js " bytes"
  | ProcessError m => js "Process error: " ++ m
  | ExecutorThrew m => m
  end.

(** The object the promise is resolved with.  It has no other field. *)
Record Result : Type := mkResult {
  success : bool;
  stdout : jsstring;
  stderr : jsstring;
  exitCode : Z
}.

Inductive Outcome : Type :=
| Resolved (r : Result)
| Rejected (e : SandboxError).

(** The callbacks that the event loop can run for one invocation. *)
Inductive Event : Type :=
| TimerFired                                   (* setTimeout(..., timeout) *)
| GraceFired                                   (* setTimeout(..., 5000) *)
| StdoutData (data : jsstring)                 (* stdout 'data' *)
| StderrData (data : jsstring)                 (* stderr 'data' *)
| Exit (code : option Z) (signal : option jsstring)    (* 'exit' *)
| ProcError (message : jsstring).              (* 'error' *)

(** The variables of the promise executor's closure, the two timers
    (pending or not), the child process, and the promise's state
    ([None]: pending). *)
Record State : Type := mkState {
  out : jsstring;                (* let stdout *)
  err : jsstring;                (* let stderr *)
  killed : bool;                 (* let killed *)
  timeoutId : bool;              (* the timeout timer is pending *)
  graceTimer : bool;             (* the 5 s timer is pending *)
  childProcess : ChildProcess;
  promise : option Outcome
}.

Definition initial (spawned : bool) : State :=
  mkState [] [] false true false (mkChild spawned false []) None.

(** [resolve] and [reject] settle a pending promise and do nothing to a
    settled one. *)
Definition settle (o : Outcome) (st : State) : State :=
  match promise st with
  | None => mkState (out st) (err st) (killed st) (timeoutId st)
                    (graceTimer st) (childProcess st) (Some o)
  | Some _ => st
  end.

Definition set_killed (st : State) : State :=
  mkState (out st) (err st) true (timeoutId st) (graceTimer st)
          (childProcess st) (promise st).

Definition clearTimeout (st : State) : State :=
  mkState (out st) (err st) (killed st) false (graceTimer st)
          (childProcess st) (promise st).

Definition send (sig : Signal) (st : State) : State :=
  mkState (out st) (err st) (killed st) (timeoutId st) (graceTimer st)
          (kill sig (childProcess st)) (promise st).

Definition schedule_grace (st : State) : State :=
  mkState (out st) (err st) (killed st) (timeoutId st) true
          (childProcess st) (promise st).

Definition grace_done (st : State) : State :=
  mkState (out st) (err st) (killed st) (timeoutId st) false
          (childProcess st) (promise st).

Definition append_out (data : jsstring) (st : State) : State :=
  mkState (out st ++ data) (err st) (killed st) (timeoutId st)
          (graceTimer st) (childProcess st) (promise st).

Definition append_err (data : jsstring) (st : State) : State :=
  mkState (out st) (err st ++ data) (killed st) (timeoutId st)
          (graceTimer st) (childProcess st) (promise st).

Definition exited (st : State) : State :=
  mkState (out st) (err st) (killed st) (timeoutId st) (graceTimer st)
          (mkChild false (cp_killed (childProcess st))
                   (delivered (childProcess st)))
          (promise st).

Definition len (s : jsstring) : N := N.of_nat (List.length s).

(** [s.substring(0, n)] *)
Definition substring0 (n : N) (s : jsstring) : jsstring :=
  firstn (N.to_nat n) s.

(** The timeout callback. *)
Definition onTimeout (lim : Limits) (st : State) : State :=
  if killed st then st
  else
    settle (Rejected (CommandTimeout (timeout lim)))
      (schedule_grace (send SIGTERM (set_killed st))).

(** The callback of the inner timer. *)
Definition onGrace (st : State) : State :=
  if negb (cp_killed (childProcess st)) then send SIGKILL st else st.

Definition onStdout (lim : Limits) (data : jsstring) (st : State) : State :=
  let st := append_out data st in
  if maxBuffer lim <? len (out st)
  then
    if killed st then st
    else
      settle (Rejected (OutputBufferExceeded (maxBuffer lim)))
        (clearTimeout (send SIGTERM (set_killed st)))
  else st.

Definition onStderr (lim : Limits) (data : jsstring) (st : State) : State :=
  let st := append_err data st in
  if maxBuffer lim <? len (err st)
  then
    if killed st then st
    else
      settle (Rejected (ErrorBufferExceeded (maxBuffer lim)))
        (clearTimeout (send SIGTERM (set_killed st)))
  else st.

Definition truthy_string (s : option jsstring) : bool :=
  match s with
  | Some (_ :: _) => true
  | _ => false
  end.

(** [code || (signal ? 1 : 0)] *)
Definition exit_code (code : option Z) (signal : option jsstring) : Z :=
  match code with
  | Some c => if (c =? 0)%Z then (if truthy_string signal then 1 else 0)%Z
              else c
  | None => if truthy_string signal then 1%Z else 0%Z
  end.

(** [code === 0] *)
Definition is_zero (code : option Z) : bool :=
  match code with
  | Some c => (c =? 0)%Z
  | None => false
  end.

Definition onExit (lim : Limits) (code : option Z) (signal : option jsstring)
  (st : State) : State :=
  let st := clearTimeout st in
  if killed st then st
  else
    settle (Resolved (mkResult (is_zero code)
                               (substring0 (maxBuffer lim) (out st))
                               (substring0 (maxBuffer lim) (err st))
                               (exit_code code signal)))
           st.

Definition onError (message : jsstring) (st : State) : State :=
  let st := clearTimeout st in
  if killed st then st
  else settle (Rejected (ProcessError message)) (set_killed st).

(** One turn of the event loop.  A timer callback runs only while its timer
    is pending, and a timer fires once; ['exit'] closes the handle before
    the listener runs. *)
Definition step (lim : Limits) (st : State) (ev : Event) : State :=
  match ev with
  | TimerFired =>
      if timeoutId st then onTimeout lim (clearTimeout st) else st
  | GraceFired =>
      if graceTimer st then onGrace (grace_done st) else st
  | StdoutData data => onStdout lim data st
  | StderrData data => onStderr lim data st
  | Exit code signal => onExit lim code signal (exited st)
  | ProcError message => onError message st
  end.

Definition run (lim : Limits) (st : State) (events : list Event) : State :=
  fold_left (step lim) events st.

(** The arguments of the call to [spawn]. *)
Record SpawnCall : Type := mkSpawn {
  cmd : jsstring;
  args : list jsstring;
  spawn_cwd : jsstring;
  max_old_space_size : N         (* Math.floor(maxMemory / 1024 / 1024) *)
}.

(** What the call to [spawn] does.  It throws at once (a word of the
    command with a NUL code unit in it, a system error that Node does not
    defer); or it returns a [ChildProcess] without streams (Node does so
    when no more files can be opened), and [childProcess.stdout.on]
    throws the TypeError [message]; or it returns a [ChildProcess] with
    its streams: [spawned] tells whether the process was created, and when
    it was not, an ['error'] event follows. *)
Inductive Spawn : Type :=
| SpawnThrows (message : jsstring)
| NoStreams (message : jsstring)
| Child (spawned : bool).

(** The executor left by the exception of [spawn]: no timer is set, no
    listener is registered, and the promise is rejected with the
    exception. *)
Definition threw (message : jsstring) : State :=
  mkState [] [] false false false (mkChild false false [])
          (Some (Rejected (ExecutorThrew message))).

(** The executor left by the exception of [childProcess.stdout.on]: the
    timeout timer is set, no listener is registered, and the promise is
    rejected with the exception. *)
Definition no_streams (message : jsstring) : State :=
  mkState [] [] false true false (mkChild false false [])
          (Some (Rejected (ExecutorThrew message))).

(** The callbacks of the two timers. *)
Definition timers_only (events : list Event) : list Event :=
  filter (fun ev => match ev with
                    | TimerFired | GraceFired => true
                    | _ => false
                    end) events.

(** What an invocation amounts to: either it throws before it calls
    [spawn], or it calls [spawn] and returns the promise; [st] is the
    state of the executor's closure and of the promise. *)
Inductive Invocation : Type :=
| NotSpawned (e : SandboxError)
| Spawned (call : SpawnCall) (st : State).

(** [executeSandboxed(command, options)], followed by the given callbacks
    in order.  [spawn] is what the call to [spawn] does; when it throws,
    no callback of this invocation exists, and when the child has no
    streams, only those of the timers do. *)
Definition executeSandboxed (process_cwd : jsstring) (command : jsstring)
  (options : Options) (spawn : Spawn) (events : list Event) : Invocation :=
  let lim := limits process_cwd options in
  match validateCommand command with
  | Throw e => NotSpawned (ValidatorThrew e)
  | Normal validation =>
      if negb (allowed validation)
      then NotSpawned
             (CommandNotAllowed
                (if truthy_string (reason validation)
                 then orDefault (reason validation) []
                 else js "Unknown reason"))
      else
        let sanitizedCommand :=
          if truthy_string (sanitized validation)
          then orDefault (sanitized validation) []
          else command in
        let parts := splitWs sanitizedCommand in
        Spawned (mkSpawn (hd [] parts) (tl parts) (cwd lim)
                         (maxMemory lim / 1024 / 1024))
                (match spawn with
                 | SpawnThrows message => threw message
                 | NoStreams message =>
                     run lim (no_streams message) (timers_only events)
                 | Child spawned => run lim (initial spawned) events
                 end)
  end.

(** The state of the promise an invocation returns: an [async] function
    that throws returns a rejected promise. *)
Definition outcome (i : Invocation) : option Outcome :=
  match i with
  | NotSpawned e => Some (Rejected e)
  | Spawned _ st => promise st
  end.

(** [produced_by lim ev o]: the callback [ev] is of the kind that settles
    the promise with [o]. *)
Definition produced_by (lim : Limits) (ev : Event) (o : Outcome) : Prop :=
  match ev, o with
  | TimerFired, Rejected (CommandTimeout t) => t = timeout lim
  | StdoutData _, Rejected (OutputBufferExceeded b) => b = maxBuffer lim
  | StderrData _, Rejected (ErrorBufferExceeded b) => b = maxBuffer lim
  | Exit code signal, Resolved r =>
      success r = is_zero code /\ exitCode r = exit_code code signal
  | ProcError message, Rejected (ProcessError m) => m = message
  | _, _ => False
  end.

(** The callbacks after which the promise is settled whatever came
    before: the timeout, the exit of the process, a process error. *)
Definition decisive (ev : Event) : bool :=
  match ev with
  | TimerFired | Exit _ _ | ProcError _ => true
  | _ => false
  end.


(** The reasons that [validateCommand] gives. *)
Definition REASONS : list jsstring :=
  [ js "Invalid command";
    js "Shell redirection/piping not allowed";
    js "Command not in allowlist" ].

(** What holds of every state an invocation can reach: the flag, the
    timeout timer and the promise. *)
Record Inv (st : State) : Prop := mkInv {
  inv_killed : killed st = true -> promise st <> None;
  inv_timer : promise st = None -> timeoutId st = true;
  inv_settled :
    promise st <> None ->
    killed st = true \/ running (childProcess st) = false
}.

(** What holds of the signals in every state an invocation can reach:
    this is where the test [!childProcess.killed] of the 5 s callback
    counts. *)
Record InvSignals (st : State) : Prop := mkInvSignals {
  inv_grace :
    graceTimer st = true ->
    cp_killed (childProcess st) = true \/ running (childProcess st) = false;
  inv_sigkill : ~ In SIGKILL (delivered (childProcess st))
}.

End Sandbox.
Import Sandbox.

(** ** adapter/index.js: POST /create-pr *)

Module CreatePr.

(** A JSON value of the request body, as far as [confirm !== true] can
    tell values apart. *)
Inductive JSValue : Type :=
| JUndefined
| JNull
| JBool (b : bool)
| JNumber (n : Z)
| JString (s : jsstring).

(** [v === true] *)
Definition is_true (v : JSValue) : bool :=
  match v with
  | JBool true => true
  | _ => false
  end.

Record Request : Type := mkRequest {
  branchName : jsstring;
  commitMessage : jsstring;
  repoPath : option jsstring;
  confirm : JSValue
}.

(** What the handler reads from its surroundings: [config.dryRun], the two
    [fs.existsSync] answers, [Date.now()], and what each sandboxed command
    returns or throws. *)
Record Env : Type := mkEnv {
  dryRun : bool;
  path_exists : bool;
  git_dir_exists : bool;
  now : N;
  sandbox : jsstring -> completion SandboxError Result
}.

Record Preview : Type := mkPreview {
  pv_branchName : jsstring;
  pv_commitMessage : jsstring;
  stagedFiles : list jsstring;
  operations : list jsstring
}.

Inductive Response : Type :=
| BadRequest (error : jsstring)                 (* 400 { error } *)
| ConfirmationRequired (preview : Preview)      (* 400 { error, message, preview } *)
| DryRun (preview : Preview)                    (* 200 { dryRun: true, ..., preview } *)
| Created (branch message : jsstring) (pushed : bool) (prUrl : option jsstring)
                                                (* 200 { dryRun: false, success: true, ... } *)
| GitFailed (error : jsstring).                 (* 500 { error } *)

(** [s.split(c)] for a one-character separator. *)
Fixpoint split_go (c : N) (cur : jsstring) (s : jsstring) : list jsstring :=
  match s with
  | [] => [cur]
  | x :: r => if x =? c then cur :: split_go c [] r
              else split_go c (cur ++ [x]) r
  end.

Definition split_lines (s : jsstring) : list jsstring := split_go 10 [] s.

(** [commitMessage.replace(/"/g, '\\"')] *)
Definition escape_quotes (s : jsstring) : jsstring :=
  flat_map (fun c => if c =? 34 then [92; 34] else [c]) s.

Definition preview_of (req : Request) (stagedChanges : jsstring) : Preview :=
  mkPreview (branchName req) (commitMessage req)
    (if isEmpty stagedChanges then [] else split_lines stagedChanges)
    [ js "Would create branch: " ++ branchName req;
      js "Would commit with message: " ++ commitMessage req;
      js "Would push to remote (if configured)" ].

Definition STAGED_QUERY : jsstring := js "git diff --cached --name-only".

(** Awaits the sandboxed commands one after the other, up to the first
    that throws: the commands started, and the error if there was one. *)
Fixpoint run_all (env : Env) (cmds : list jsstring)
  : list jsstring * option SandboxError :=
  match cmds with
  | [] => ([], None)
  | c :: rest =>
      match sandbox env c with
      | Throw e => ([c], Some e)
      | Normal _ => let (ran, r) := run_all env rest in (c :: ran, r)
      end
  end.

(** The branch of actual execution: the commands it runs, in order, and
    the response.  A failing push is not fatal. *)
Definition execute_pr (env : Env) (req : Request) (stagedChanges : jsstring)
  : list jsstring * Response :=
  let checkout := js "git checkout -b " ++ branchName req in
  let add := if isEmpty stagedChanges then [] else [js "git add ."] in
  let commit :=
    js "git commit -m " ++ [34] ++ escape_quotes (commitMessage req) ++ [34] in
  let push := js "git push -u origin " ++ branchName req in
  match run_all env (checkout :: add ++ [commit]) with
  | (ran, Some e) =>
      (ran, GitFailed (js "Git operation failed: " ++ error_message e))
  | (ran, None) =>
      let pushSuccess :=
        match sandbox env push with
        | Normal _ => true
        | Throw _ => false
        end in
      (ran ++ [push],
       Created (branchName req) (commitMessage req) pushSuccess
         (if pushSuccess
          then Some (js "https://github.com/user/repo/pull/"
                     ++ decimal (now env))
          else None))
  end.

(** The staged files as the handler reads them: the trimmed output of the
    staged-files query, the empty string when the query throws. *)
Definition staged_changes (env : Env) : jsstring :=
  match sandbox env STAGED_QUERY with
  | Normal result => trim (stdout result)
  | Throw _ => []
  end.

(** The [try] block of the handler: the sandboxed commands it runs, in
    order, and its response. *)
Definition create_pr (env : Env) (req : Request) : list jsstring * Response :=
  if isEmpty (branchName req) || isEmpty (commitMessage req)
  then ([], BadRequest (js "branchName and commitMessage are required"))
  else if negb (path_exists env)
  then ([], BadRequest (js "Repository path does not exist"))
  else if negb (git_dir_exists env)
  then ([], BadRequest (js "Not a git repository"))
  else
    let stagedChanges := staged_changes env in
    let requiresConfirmation := negb (dryRun env) in
    if requiresConfirmation && negb (is_true (confirm req))
    then ([STAGED_QUERY], ConfirmationRequired (preview_of req stagedChanges))
    else if dryRun env || negb (is_true (confirm req))
    then ([STAGED_QUERY], DryRun (preview_of req stagedChanges))
    else
      let (ran, response) := execute_pr env req stagedChanges in
      (STAGED_QUERY :: ran, response).

(** The handler went on to the branch of actual execution. *)
Definition proceeds (r : Response) : bool :=
  match r with
  | Created _ _ _ _ | GitFailed _ => true
  | _ => false
  end.

Definition preview (r : Response) : option Preview :=
  match r with
  | ConfirmationRequired p | DryRun p => Some p
  | _ => None
  end.

(** [logRequest]: the [response] and [error] of a log entry. *)
Inductive Logged : Type :=
| LogNull                                (* response: null, error: null *)
| LogResponse (responseData : Response)  (* response: responseData *)
| LogError (message : jsstring).         (* response: { error: error.message },
                                            error: error.stack *)

(** The line that [logRequest] appends to the log file of the day in
    adapter/logs, without its timestamp. *)
Record LogEntry : Type := mkLogEntry {
  endpoint : jsstring;
  method : jsstring;
  request : Request;
  logged : Logged
}.

(** What a request does outside the handler. *)
Inductive Effect : Type :=
| Sandboxed (command : jsstring)         (* executeSandboxed(command, ...) *)
| AppendLog (entry : LogEntry).          (* fs.appendFileSync(logFile, logLine) *)

(** The commands of the execution branch whose failure is caught as
    [gitError]. *)
Definition write_commands (req : Request) (stagedChanges : jsstring)
  : list jsstring :=
  (js "git checkout -b " ++ branchName req)
  :: (if isEmpty stagedChanges then [] else [js "git add ."])
  ++ [js "git commit -m " ++ [34] ++ escape_quotes (commitMessage req)
      ++ [34]].

(** [responseData] and [error] as the [finally] block finds them:
    [responseData] is assigned in the dry-run answer and after a
    successful execution only, [error] when a git command has failed. *)
Definition logged_of (env : Env) (req : Request) (response : Response)
  : Logged :=
  match response with
  | BadRequest _ | ConfirmationRequired _ => LogNull
  | DryRun _ | Created _ _ _ _ => LogResponse response
  | GitFailed _ =>
      match snd (run_all env (write_commands req (staged_changes env))) with
      | Some gitError => LogError (error_message gitError)
      | None => LogNull
      end
  end.

(** The whole handler: the [try] block, and the [finally] block that logs
    the request, whatever the answer. *)
Definition post_create_pr (env : Env) (req : Request)
  : list Effect * Response :=
  let (ran, response) := create_pr env req in
  (map Sandboxed ran
   ++ [AppendLog (mkLogEntry (js "/create-pr") (js "POST") req
                    (logged_of env req response))],
   response).


End CreatePr.

(** ** adapter/security/keychain.js *)

Module Keychain.

Definition SERVICE_NAME : jsstring := js "dev-skin".
Definition ACCOUNT_NAME : jsstring := js "llm-api-key".

(** The module variable [keytar]: [null] before the first load, [false]
    after a failed import, the module otherwise. *)
Inductive Keytar : Type := KNull | KFalse | KModule.

(** The platform's secure storage behind [keytar]: whether [import('keytar')]
    succeeds, whether its calls throw (with which message), and the
    password stored under (SERVICE_NAME, ACCOUNT_NAME). *)
Record Backend : Type := mkBackend {
  importable : bool;
  failure : option jsstring;
  password : option jsstring
}.

Inductive LogEntry : Type :=
| Warn (message : jsstring)
| Error (message : jsstring).

Record State : Type := mkState {
  keytar : Keytar;
  keychainAvailable : bool;
  backend : Backend;
  console : list LogEntry
}.

Definition initial (b : Backend) : State := mkState KNull false b [].

Definition log (e : list LogEntry) (st : State) : State :=
  mkState (keytar st) (keychainAvailable st) (backend st) (console st ++ e).

(** [loadKeytar()]: the new state and the returned value. *)
Definition loadKeytar (st : State) : State * Keytar :=
  match keytar st with
  | KNull =>
      if importable (backend st)
      then (mkState KModule true (backend st) (console st), KModule)
      else (mkState KFalse false (backend st) (console st), KNull)
  | k => (st, k)
  end.

Definition truthy (k : Keytar) : bool :=
  match k with KModule => true | _ => false end.

Definition set_password (key : jsstring) (st : State) : State :=
  mkState (keytar st) (keychainAvailable st)
          (mkBackend (importable (backend st)) (failure (backend st)) (Some key))
          (console st).

Definition clear_password (st : State) : State :=
  mkState (keytar st) (keychainAvailable st)
          (mkBackend (importable (backend st)) (failure (backend st)) None)
          (console st).

(** The two warnings of the fallback branch (the first without its
    leading warning sign). *)
Definition NOT_AVAILABLE : list LogEntry := [
  Warn (js "Keychain not available. Please set OPENAI_API_KEY environment variable.");
  Warn (js "   To enable keychain storage, install: npm install keytar")
].

Definition storeApiKey (key : jsstring) (st : State)
  : State * completion jsstring bool :=
  if isEmpty key then (st, Throw (js "Invalid API key"))
  else
    let (st, keytarInstance) := loadKeytar st in
    if keychainAvailable st && truthy keytarInstance
    then
      match failure (backend st) with
      | None => (set_password key st, Normal true)
      | Some message =>
          (log [Error (js "Failed to store key in keychain:")] st,
           Throw (js "Keychain storage failed: " ++ message))
      end
    else (log NOT_AVAILABLE st, Normal false).

(** [process.env.OPENAI_API_KEY || process.env.LLM_API_KEY || null] *)
Definition env_fallback (OPENAI_API_KEY LLM_API_KEY : option jsstring)
  : option jsstring :=
  if truthy_string OPENAI_API_KEY then OPENAI_API_KEY
  else if truthy_string LLM_API_KEY then LLM_API_KEY
  else None.

Definition getApiKey (OPENAI_API_KEY LLM_API_KEY : option jsstring)
  (st : State) : State * option jsstring :=
  let (st, keytarInstance) := loadKeytar st in
  if keychainAvailable st && truthy keytarInstance
  then
    match failure (backend st) with
    | None => (st, password (backend st))
    | Some _ =>
        (log [Error (js "Failed to retrieve key from keychain:")] st, None)
    end
  else (st, env_fallback OPENAI_API_KEY LLM_API_KEY).

Definition deleteApiKey (st : State) : State * bool :=
  let (st, keytarInstance) := loadKeytar st in
  if keychainAvailable st && truthy keytarInstance
  then
    match failure (backend st) with
    | None => (clear_password st, true)
    | Some _ =>
        (log [Error (js "Failed to delete key from keychain:")] st, false)
    end
  else (st, false).

Definition isKeychainAvailable (st : State) : bool := keychainAvailable st.

(** The states the module can be in: [keytar] and [keychainAvailable] are
    only assigned together, by [loadKeytar]. *)
Definition well_formed (st : State) : Prop :=
  match keytar st with
  | KNull => keychainAvailable st = false
  | KFalse => keychainAvailable st = false /\ importable (backend st) = false
  | KModule => keychainAvailable st = true /\ importable (backend st) = true
  end.

End Keychain.

(** ** Shapes of commands, used to state properties *)

Module Shapes.

Definition cclass_eqb (a b : cclass) : bool :=
  match a, b with
  | CChar x, CChar y => x =? y
  | CSpace, CSpace | CDot, CDot | CAll, CAll => true
  | _, _ => false
  end.

Fixpoint regex_eqb (a b : regex) : bool :=
  match a, b with
  | Void, Void | Eps, Eps => true
  | Cls k, Cls k' => cclass_eqb k k'
  | Cat a1 a2, Cat b1 b2 => regex_eqb a1 b1 && regex_eqb a2 b2
  | Alt a1 a2, Alt b1 b2 => regex_eqb a1 b1 && regex_eqb a2 b2
  | Star a', Star b' => regex_eqb a' b'
  | _, _ => false
  end.

Definition metachar (c : N) : bool := existsb (N.eqb c) [PIPE; GT; LT; AMP].

(** No dangerous pattern matches. *)
Definition undangerous (s : jsstring) : bool :=
  negb (existsb (fun p => test p s) DANGEROUS_PATTERNS).

(** Neither a shell metacharacter nor a match of a dangerous pattern. *)
Definition harmless (s : jsstring) : bool :=
  forallb (fun c => negb (metachar c)) s && undangerous s.

(** No dangerous pattern has a match that starts in [base] or in the
    space after it. *)
Definition unstraddled (base : jsstring) : bool :=
  forallb (fun p => regex_eqb (derivs (base ++ [32]) (wrap p)) (wrap p))
    DANGEROUS_PATTERNS.

(** Words of non-white characters separated by single spaces: what
    [split(/\s+/)] followed by [join(' ')] leaves as it is. *)
Fixpoint single_spaced_go (afterSpace : bool) (s : jsstring) : bool :=
  match s with
  | [] => negb afterSpace
  | c :: r =>
      if isWhiteSpace c
      then (c =? 32) && negb afterSpace && single_spaced_go true r
      else single_spaced_go false r
  end.

Definition single_spaced (s : jsstring) : bool := single_spaced_go true s.

End Shapes.
Import Shapes.

(** The two halves of the validator's answer, named to state properties:
    the decision that [isCommandAllowed] reads off the allowlist for a
    base command and its arguments, and the answer [validateCommand] makes
    of it. *)

Module Verdict.

Definition decide (baseCommand args : jsstring) : completion TypeError bool :=
  match getProperty baseCommand with
  | VUndefined => Normal false
  | VArray allowedArgs =>
      match allowedArgs with
      | [] => Normal true
      | _ =>
          Normal (existsb
                    (fun allowedArg =>
                       str_eqb args allowedArg
                       || test (argPattern allowedArg) args)
                    allowedArgs)
      end
  | VFunction arity =>
      if arity =? 0 then Normal true else Throw some_is_not_a_function
  | VObject => Throw some_is_not_a_function
  end.

Definition verdict (d : completion TypeError bool) (sanitized : jsstring)
  : completion TypeError ValidationResult :=
  match d with
  | Throw e => Throw e
  | Normal false =>
      Normal (mkValidation false None (Some (js "Command not in allowlist")))
  | Normal true => Normal (mkValidation true (Some sanitized) None)
  end.

Definition ALLOWED (sanitized : jsstring) : completion TypeError ValidationResult :=
  Normal (mkValidation true (Some sanitized) None).

End Verdict.
Import Verdict.

(** More about the states an invocation reaches, for a process that
    [spawned] or not. *)

Module SandboxMore.

(** All that was written to [stdout] (to [stderr]) in a trace. *)
Definition chunks_out (events : list Event) : jsstring :=
  flat_map (fun ev => match ev with StdoutData d => d | _ => [] end) events.

Definition chunks_err (events : list Event) : jsstring :=
  flat_map (fun ev => match ev with StderrData d => d | _ => [] end) events.

Definition is_process_error (e : SandboxError) : bool :=
  match e with ProcessError _ => true | _ => false end.

Record Inv2 (lim : Limits) (spawned : bool) (st : State) : Prop := mkInv2 {
  inv_signals :
    delivered (childProcess st) = []
    \/ delivered (childProcess st) = [SIGTERM];
  inv_signalled :
    delivered (childProcess st) <> [] -> killed st = true;
  inv_pending :
    promise st = None ->
    running (childProcess st) = spawned
    /\ len (out st) <= maxBuffer lim /\ len (err st) <= maxBuffer lim;
  inv_resolved :
    forall r, promise st = Some (Resolved r) ->
              delivered (childProcess st) = [];
  inv_rejected :
    forall e, promise st = Some (Rejected e) ->
              spawned = true -> is_process_error e = false ->
              delivered (childProcess st) = [SIGTERM]
}.

End SandboxMore.
Import SandboxMore.

(** The handler's oracle and the sandbox. *)

Module CreatePrMore.

Import CreatePr.

Definition to_outcome (a : completion SandboxError Result) : Outcome :=
  match a with
  | Normal r => Resolved r
  | Throw e => Rejected e
  end.

(** Every answer of [sandbox env] is the settled outcome of a run of
    [executeSandboxed] on that command. *)
Definition realised (env : Env) : Prop :=
  forall command,
  exists process_cwd options spawn events,
    outcome (executeSandboxed process_cwd command options spawn events)
    = Some (to_outcome (sandbox env command)).

Definition checkout_command (req : Request) : jsstring :=
  js "git checkout -b " ++ branchName req.

Definition commit_command (message : jsstring) : jsstring :=
  js "git commit -m " ++ [34] ++ escape_quotes message ++ [34].

(** An oracle made of [executeSandboxed]: every process exits with code 0
    and prints nothing. *)
Definition quiet_sandbox (command : jsstring)
  : completion SandboxError Result :=
  match outcome (executeSandboxed (js "/repo") command noOptions
                   (Child true) [Exit (Some 0%Z) None]) with
  | Some (Resolved r) => Normal r
  | Some (Rejected e) => Throw e
  | None => Throw (ProcessError [])
  end.

End CreatePrMore.

(** ** adapter/index.js: the key in use and the /api/keychain routes *)

Module KeychainRoutes.

Import Keychain.

(** The keychain module's state, [config.llmApiKey], and the two
    environment variables. *)
Record App : Type := mkApp {
  kc : Keychain.State;
  llmApiKey : option jsstring;
  OPENAI_API_KEY : option jsstring;
  LLM_API_KEY : option jsstring
}.

(** [a || b] on values that are a string, null or undefined. *)
Definition or_else (a b : option jsstring) : option jsstring :=
  if truthy_string a then a else b.

Definition with_kc (st : Keychain.State) (app : App) : App :=
  mkApp st (llmApiKey app) (OPENAI_API_KEY app) (LLM_API_KEY app).

Definition with_key (k : option jsstring) (app : App) : App :=
  mkApp (kc app) k (OPENAI_API_KEY app) (LLM_API_KEY app).

(** [getCurrentApiKey()] *)
Definition getCurrentApiKey (app : App) : App * option jsstring :=
  let (st, keychainKey) :=
    getApiKey (OPENAI_API_KEY app) (LLM_API_KEY app) (kc app) in
  let app := with_kc st app in
  if truthy_string keychainKey then (app, keychainKey)
  else (app, or_else (llmApiKey app)
                (or_else (OPENAI_API_KEY app) (LLM_API_KEY app))).

Inductive PostResponse : Type :=
| KeyRequired                     (* 400 'API key is required' *)
| Stored                          (* 200 { success: true, ... } *)
| NotStored                       (* 500 'Failed to store key. Install keytar...' *)
| StoreFailed (message : jsstring). (* 500 { error: error.message } *)

(** POST /api/keychain *)
Definition post_keychain (key : jsstring) (app : App) : App * PostResponse :=
  if isEmpty key then (app, KeyRequired)
  else
    match storeApiKey key (kc app) with
    | (st, Normal true) => (with_key (Some key) (with_kc st app), Stored)
    | (st, Normal false) => (with_kc st app, NotStored)
    | (st, Throw message) => (with_kc st app, StoreFailed message)
    end.

(** GET /api/keychain: [keychainAvailable] and [hasKey] of the answer. *)
Definition get_keychain (app : App) : App * (bool * bool) :=
  let available := isKeychainAvailable (kc app) in
  let (st, key) :=
    getApiKey (OPENAI_API_KEY app) (LLM_API_KEY app) (kc app) in
  (with_kc st app, (available, truthy_string key)).

Inductive DeleteResponse : Type :=
| Deleted                         (* 200 'API key deleted from keychain' *)
| NoKeyFound.                     (* 404 'No key found in keychain' *)

(** DELETE /api/keychain *)
Definition delete_keychain (app : App) : App * DeleteResponse :=
  match deleteApiKey (kc app) with
  | (st, true) => (with_key None (with_kc st app), Deleted)
  | (st, false) => (with_kc st app, NoKeyFound)
  end.

(** A key that [callLLM] accepts: a non-empty string. *)
Definition usable (k : option jsstring) : option jsstring :=
  if truthy_string k then k else None.

Fixpoint first_usable (l : list (option jsstring)) : option jsstring :=
  match l with
  | [] => None
  | k :: r => if truthy_string k then k else first_usable r
  end.

(** The keychain can be loaded and its calls succeed. *)
Definition working (st : Keychain.State) : Prop :=
  well_formed st /\ importable (backend st) = true
  /\ failure (backend st) = None.

(** The keychain cannot be loaded. *)
Definition unavailable (st : Keychain.State) : Prop :=
  well_formed st /\ importable (backend st) = false.

End KeychainRoutes.

(** ** electron/services/mcpService.ts: applyPatch *)

Module ApplyPatch.

Local Open Scope Z_scope.

(** An edit replaces the code units from [start] up to [end_] (the
    source's [end]) by [replacement].  Offsets are integers. *)
Record PatchEdit : Type := mkEdit {
  start : Z;
  end_ : Z;
  replacement : jsstring
}.

Inductive PatchResult : Type :=
| FileNotFound                                   (* 'File not found' *)
| InvalidRange (start end_ : Z) (length : Z)     (* 'Invalid edit range' *)
| Applied (content : jsstring).                  (* written to the file *)

(** [[...edits].sort((a, b) => b.start - a.start)]: descending by
    [start]; the sort is stable, so edits with the same start keep their
    order. *)
Fixpoint insert_desc (e : PatchEdit) (l : list PatchEdit) : list PatchEdit :=
  match l with
  | [] => [e]
  | x :: r => if start x <=? start e then e :: l else x :: insert_desc e r
  end.

Definition sort_desc (edits : list PatchEdit) : list PatchEdit :=
  fold_right insert_desc [] edits.

Definition length_of (content : jsstring) : Z := Z.of_nat (List.length content).

(** The loop over the sorted edits. *)
Fixpoint apply_edits (content : jsstring) (edits : list PatchEdit)
  : PatchResult :=
  match edits with
  | [] => Applied content
  | edit :: rest =>
      if (start edit <? 0) || (length_of content <? end_ edit)
         || (end_ edit <? start edit)
      then InvalidRange (start edit) (end_ edit) (length_of content)
      else
        let before := firstn (Z.to_nat (start edit)) content in
        let after := skipn (Z.to_nat (end_ edit)) content in
        apply_edits (before ++ replacement edit ++ after) rest
  end.

(** [applyPatch(patch)] on a file that holds [file] ([None]: there is no
    such file). *)
Definition applyPatch (file : option jsstring) (edits : list PatchEdit)
  : PatchResult :=
  match file with
  | None => FileNotFound
  | Some content => apply_edits content (sort_desc edits)
  end.

(** The replacement of all ranges at once, read off the original content
    from left to right: [splice_from pos content asc] is the content from
    [pos] on, with the ranges of [asc] replaced. *)
Definition slice (content : jsstring) (a b : Z) : jsstring :=
  firstn (Z.to_nat (b - a)) (skipn (Z.to_nat a) content).

Fixpoint splice_from (pos : Z) (content : jsstring) (asc : list PatchEdit)
  : jsstring :=
  match asc with
  | [] => skipn (Z.to_nat pos) content
  | e :: r =>
      slice content pos (start e) ++ replacement e
        ++ splice_from (end_ e) content r
  end.

(** The ranges lie in a content of length [n], one after the other, with
    different starts. *)
Definition in_range (n : Z) (e : PatchEdit) : bool :=
  (0 <=? start e) && (start e <=? end_ e) && (end_ e <=? n).

Fixpoint ordered (asc : list PatchEdit) : bool :=
  match asc with
  | e :: ((e' :: _) as r) =>
      (end_ e <=? start e') && (start e <? start e') && ordered r
  | _ => true
  end.

Definition ge_start (x y : PatchEdit) : Prop := start x >= start y.
Definition gt_start (x y : PatchEdit) : Prop := start x > start y.
Definition lt_start (x y : PatchEdit) : Prop := start x < start y.

(** The ranges of [asc] follow one another between [lo] and [hi]. *)
Fixpoint chain (lo hi : Z) (asc : list PatchEdit) : Prop :=
  match asc with
  | [] => lo <= hi
  | e :: r => lo <= start e /\ start e <= end_ e /\ chain (end_ e) hi r
  end.

(** An edit that no content admits. *)
Definition malformed (e : PatchEdit) : bool :=
  (start e <? 0) || (end_ e <? start e).

Definition is_invalid (r : PatchResult) : bool :=
  match r with InvalidRange _ _ _ => true | _ => false end.

End ApplyPatch.

(** ** adapter/index.js: POST /run-tests *)

Module RunTests.

Inductive Response : Type :=
| BadRequest (error : jsstring)                          (* 400 { error } *)
| Answer (success : bool) (exitCode : Z) (stdout stderr : jsstring)
         (error : option jsstring).                      (* 200 *)

Definition options (resolvedPath : jsstring) : Options :=
  mkOptions (Some resolvedPath) (Some 60000) (Some (512 * 1024 * 1024))
            (Some (10 * 1024 * 1024)).

(** The handler, for what the call to [spawn] does and the callbacks
    [events]; [None]: the sandbox has not settled, and the handler is
    still waiting.  [resolvedPath] is [path.resolve(repoPath)]. *)
Definition run_tests (repoPath resolvedPath : jsstring)
  (path_exists package_json : bool) (spawn : Spawn) (events : list Event)
  : option Response :=
  if isEmpty repoPath then Some (BadRequest (js "repoPath is required"))
  else if negb path_exists
  then Some (BadRequest (js "Repository path does not exist"))
  else if negb package_json
  then Some (BadRequest (js "No package.json found in repository"))
  else
    match outcome (executeSandboxed resolvedPath (js "npm test")
                     (options resolvedPath) spawn events) with
    | None => None
    | Some (Resolved result) =>
        Some (Answer (success result) (exitCode result) (stdout result)
                (stderr result) None)
    | Some (Rejected sandboxError) =>
        Some (Answer false 1 []
                (if isEmpty (error_message sandboxError)
                 then js "Sandbox execution failed"
                 else error_message sandboxError)
                (Some (js "SANDBOX_ERROR")))
    end.

End RunTests.

(** ** mcp-server/server.js: POST /invoke/:toolName *)

Module McpServer.

Import CreatePr.

Inductive McpResponse : Type :=
| McpError (status : N) (error : jsstring)
| McpTests (success : bool) (exitCode : Z) (stdout stderr : jsstring)
| McpPr (prUrl : option jsstring) (branchName : jsstring) (success : bool)
        (message : jsstring).

Definition TOOL_FAILED : McpResponse :=
  McpError 500 (js "Tool invocation failed").

(** The checks before the [switch]: the manifest (a file outside this
    repository's sources; [None]: it cannot be loaded) must list the tool. *)
Definition find_tool (manifest : option (list jsstring)) (toolName : jsstring)
  : option McpResponse :=
  match manifest with
  | None => Some (McpError 500 (js "Failed to load manifest"))
  | Some tools =>
      if existsb (str_eqb toolName) tools then None
      else Some (McpError 404 (js "Tool not found"))
  end.

(** [case 'run-tests']: [adapter] is what the adapter's handler answers
    for the given [repoPath]; [callAdapter] throws unless the status is
    200. *)
Definition invoke_run_tests (repoPath : jsstring)
  (adapter : jsstring -> RunTests.Response) : McpResponse :=
  if isEmpty repoPath then McpError 400 (js "repoPath is required")
  else
    match adapter repoPath with
    | RunTests.BadRequest _ => TOOL_FAILED
    | RunTests.Answer success exitCode stdout stderr _ =>
        McpTests (success || (exitCode =? 0)%Z)
                 (if (exitCode =? 0)%Z then (if success then 0 else 1)%Z
                  else exitCode)
                 stdout stderr
    end.

Definition DRY_RUN_MESSAGE : jsstring :=
  js "Dry run mode: No changes were made. Set confirm: true to execute.".

(** The [message] of the adapter's answer after an execution. *)
Definition created_message (branch : jsstring) (prUrl : option jsstring)
  : jsstring :=
  match prUrl with
  | Some url =>
      js "Branch " ++ branch ++ js " created and pushed. PR URL: " ++ url
  | None =>
      js "Branch " ++ branch ++ js " created locally. Configure remote to push."
  end.

Record ToolInput : Type := mkInput {
  in_branchName : jsstring;
  in_commitMsg : jsstring;
  in_repoPath : option jsstring
}.

(** The body that [case 'create-pr'] posts to the adapter: it has no
    [confirm]. *)
Definition adapter_request (process_cwd : jsstring) (input : ToolInput)
  : Request :=
  mkRequest (in_branchName input) (in_commitMsg input)
    (Some (if truthy_string (in_repoPath input)
           then orDefault (in_repoPath input) []
           else process_cwd))
    JUndefined.

(** [case 'create-pr']: the commands the adapter ran and the answer. *)
Definition invoke_create_pr (process_cwd : jsstring) (input : ToolInput)
  (env : Env) : list jsstring * McpResponse :=
  if isEmpty (in_branchName input) || isEmpty (in_commitMsg input)
  then ([], McpError 400 (js "branchName and commitMsg are required"))
  else
    let (ran, adapterResponse) :=
      create_pr env (adapter_request process_cwd input) in
    (ran,
     match adapterResponse with
     | DryRun _ =>
         McpPr None (in_branchName input) true DRY_RUN_MESSAGE
     | Created branch _ _ prUrl =>
         McpPr prUrl
               (if isEmpty branch then in_branchName input else branch)
               true (created_message branch prUrl)
     | BadRequest _ | ConfirmationRequired _ | GitFailed _ => TOOL_FAILED
     end).

(** [toolName] routed through the manifest check and the [switch]. *)
Definition invoke_pr (manifest : option (list jsstring))
  (process_cwd : jsstring) (input : ToolInput) (env : Env)
  : list jsstring * McpResponse :=
  match find_tool manifest (js "create-pr") with
  | Some r => ([], r)
  | None => invoke_create_pr process_cwd input env
  end.

(** What Node reports at the exit of a process: an exit code, or the
    signal that ended it. *)
Definition node_exit (ev : Event) : bool :=
  match ev with
  | Exit (Some _) None => true
  | Exit None (Some (_ :: _)) => true
  | Exit _ _ => false
  | _ => true
  end.

End McpServer.

(** ** adapter/index.js: parseLLMResponse *)

Module ParseLLM.

Import RegExp.

Definition PATCH_START : jsstring := js "PATCH_START".
Definition PATCH_END : jsstring := js "PATCH_END".
Definition PATCH_SEPARATOR : jsstring := js "---PATCH---".
Definition ANSWER_TAG : jsstring := js "<ANSWER>".

(** [m] occurs at the start of [s]. *)
Fixpoint starts_with (m s : jsstring) : bool :=
  match m, s with
  | [], _ => true
  | x :: m', y :: s' => (x =? y) && starts_with m' s'
  | _ :: _, [] => false
  end.

(** [s.indexOf(m)]: the first position where [m] occurs, -1 when there is
    none. *)
Fixpoint indexOf_from (i : Z) (m s : jsstring) : Z :=
  if starts_with m s then i
  else match s with
       | [] => (-1)%Z
       | _ :: s' => indexOf_from (i + 1)%Z m s'
       end.

Definition indexOf (s m : jsstring) : Z := indexOf_from 0%Z m s.

(** [s.substring(a, b)]: both ends are clamped to the string, and they are
    swapped when the first is the larger. *)
Definition clamp (s : jsstring) (i : Z) : nat :=
  Nat.min (Z.to_nat i) (List.length s).

Definition substring (s : jsstring) (a b : Z) : jsstring :=
  let a' := clamp s a in
  let b' := clamp s b in
  let from := Nat.min a' b' in
  let to := Nat.max a' b' in
  firstn (to - from) (skipn from s).

(** [s.split(sep)] for a non-empty string [sep]: the occurrences of [sep]
    are found from left to right and do not overlap; [skip] counts the
    code units of a found separator that are still to be passed. *)
Fixpoint split_go (sep : jsstring) (skip : nat) (cur s : jsstring)
  : list jsstring :=
  match s with
  | [] => [cur]
  | c :: s' =>
      match skip with
      | S k => split_go sep k cur s'
      | O =>
          if starts_with sep s
          then cur :: split_go sep (List.length sep - 1) [] s'
          else split_go sep 0 (cur ++ [c]) s'
      end
  end.

Definition split (s sep : jsstring) : list jsstring := split_go sep 0 [] s.

(** [parts.join(sep)] *)
Fixpoint join (sep : jsstring) (parts : list jsstring) : jsstring :=
  match parts with
  | [] => []
  | [p] => p
  | p :: rest => p ++ sep ++ join sep rest
  end.

(** [m] at the start of [s] under the [i] flag. *)
Fixpoint starts_with_ci (m s : jsstring) : bool :=
  match m, s with
  | [], _ => true
  | x :: m', y :: s' => (canon y =? canon x) && starts_with_ci m' s'
  | _ :: _, [] => false
  end.

(** [s.replace(/^<ANSWER>\s*/i, '')] *)
Definition strip_answer_tag (s : jsstring) : jsstring :=
  if starts_with_ci ANSWER_TAG s
  then trimStart (skipn (List.length ANSWER_TAG) s)
  else s.

Record Parsed : Type := mkParsed {
  answer : jsstring;
  patch : option jsstring          (* [None]: null *)
}.

Definition parseLLMResponse (response : jsstring) : Parsed :=
  let patchStartIndex := indexOf response PATCH_START in
  let patchEndIndex := indexOf response PATCH_END in
  if (patchStartIndex =? -1)%Z || (patchEndIndex =? -1)%Z then
    match split response PATCH_SEPARATOR with
    | [_] => mkParsed (trim response) None
    | parts =>
        mkParsed (trim (nth 0 parts []))
                 (Some (trim (join PATCH_SEPARATOR (tl parts))))
    end
  else
    let answer := trim (substring response 0 patchStartIndex) in
    let patchStart :=
      (patchStartIndex + Z.of_nat (List.length PATCH_START))%Z in
    let patch := trim (substring response patchStart patchEndIndex) in
    mkParsed (trim (strip_answer_tag answer)) (Some patch).

(** The first code unit of [m] occurs nowhere else in [m]: two occurrences
    of [m] cannot overlap. *)
Definition head_unique (m : jsstring) : bool :=
  match m with
  | [] => false
  | c :: t => negb (existsb (N.eqb c) t)
  end.

(** [sep] occurs in [s]. *)
Definition occurs (sep s : jsstring) : Prop :=
  exists a r, s = a ++ sep ++ r.

(** [a] is what comes before the first occurrence of [sep] in [s]. *)
Definition first_cut (sep s a r : jsstring) : Prop :=
  s = a ++ sep ++ r
  /\ forall a' r',
       s = a' ++ sep ++ r' -> (List.length a <= List.length a')%nat.

End ParseLLM.

(* ================================================================== *)
(** * Part II: properties                                              *)
(* ================================================================== *)

(** ** Facts about strings *)

Section StringFacts.

Lemma str_eqb_eq (a b : jsstring) : str_eqb a b = true <-> a = b.
Proof.
  revert b; induction a as [|x a IH]; intros [|y b]; simpl;
    try (split; [discriminate | congruence]); try tauto.
  rewrite andb_true_iff, N.eqb_eq, IH.
  split; [intros [-> ->]; reflexivity | intros [= -> ->]; auto].
Qed.

Lemma str_eqb_refl (a : jsstring) : str_eqb a a = true.
Proof. apply str_eqb_eq; reflexivity. Qed.

Lemma str_eqb_neq (a b : jsstring) : a <> b -> str_eqb a b = false.
Proof.
  intros H; destruct (str_eqb a b) eqn:E; [|reflexivity].
  apply str_eqb_eq in E; contradiction.
Qed.

Lemma In_trimStart (x : N) (s : jsstring) : In x (trimStart s) -> In x s.
Proof.
  induction s as [|c r IH]; simpl; [tauto|].
  destruct (isWhiteSpace c); [right; auto | simpl; tauto].
Qed.

Lemma In_trimEnd (x : N) (s : jsstring) : In x (trimEnd s) -> In x s.
Proof.
  induction s as [|c r IH]; simpl; [tauto|].
  destruct (trimEnd r) as [|t ts].
  - destruct (isWhiteSpace c); simpl; tauto.
  - intros [->|H]; [left; reflexivity | right; apply IH, H].
Qed.

Lemma In_trim (x : N) (s : jsstring) : In x (trim s) -> In x s.
Proof. intros H; apply In_trimStart, In_trimEnd, H. Qed.

Lemma trimStart_keeps (x : N) (s : jsstring) :
  isWhiteSpace x = false -> In x s -> In x (trimStart s).
Proof.
  intros Hx; induction s as [|c r IH]; simpl; [tauto|].
  intros [->|H].
  - rewrite Hx; left; reflexivity.
  - destruct (isWhiteSpace c); [auto | right; exact H].
Qed.

Lemma trimEnd_keeps (x : N) (s : jsstring) :
  isWhiteSpace x = false -> In x s -> In x (trimEnd s).
Proof.
  intros Hx; induction s as [|c r IH]; simpl; [tauto|].
  intros [->|H].
  - destruct (trimEnd r); [rewrite Hx|]; left; reflexivity.
  - specialize (IH H). destruct (trimEnd r); [destruct IH | right; exact IH].
Qed.

Lemma trim_keeps (x : N) (s : jsstring) :
  isWhiteSpace x = false -> In x s -> In x (trim s).
Proof. intros Hx H; apply trimEnd_keeps, trimStart_keeps; assumption. Qed.

Lemma In_before (x c : N) (s : jsstring) :
  In x (before c s) -> x <> c /\ In x s.
Proof.
  induction s as [|y r IH]; simpl; [tauto|].
  destruct (y =? c) eqn:E; simpl; [tauto|].
  apply N.eqb_neq in E.
  intros [->|H]; [split; auto | destruct (IH H); split; auto].
Qed.

Lemma before_absent (c : N) (s : jsstring) : ~ In c s -> before c s = s.
Proof.
  induction s as [|y r IH]; simpl; [reflexivity|]; intros H.
  destruct (y =? c) eqn:E.
  - apply N.eqb_eq in E; exfalso; apply H; left; exact E.
  - f_equal; apply IH; intros H'; apply H; right; exact H'.
Qed.

Lemma trimEnd_cons (c : N) (r : jsstring) :
  isWhiteSpace c = false -> trimEnd (c :: r) = c :: trimEnd r.
Proof. intros H; simpl; rewrite H; destruct (trimEnd r); reflexivity. Qed.

Lemma trimEnd_idem (s : jsstring) : trimEnd (trimEnd s) = trimEnd s.
Proof.
  induction s as [|c r IH]; simpl; [reflexivity|].
  destruct (trimEnd r) as [|t ts] eqn:E.
  - destruct (isWhiteSpace c) eqn:W; simpl; [reflexivity | rewrite W; reflexivity].
  - change (trimEnd (c :: t :: ts)) with
      (match trimEnd (t :: ts) with
       | [] => if isWhiteSpace c then [] else [c]
       | u => c :: u
       end).
    rewrite IH; reflexivity.
Qed.

(** [trimEnd] only removes a suffix. *)
Lemma trimEnd_prefix (s : jsstring) : exists w, s = trimEnd s ++ w.
Proof.
  induction s as [|c r [w IH]]; simpl; [exists []; reflexivity|].
  destruct (trimEnd r) as [|t ts].
  - destruct (isWhiteSpace c).
    + exists (c :: r); reflexivity.
    + exists w; simpl in *; congruence.
  - exists w; simpl in *; congruence.
Qed.

End StringFacts.

(** ** The derivative matcher decides the language *)

Section RegExpFacts.

Lemma matches_Cat_inv (a b : regex) (s : jsstring) :
  matches (Cat a b) s ->
  exists s1 s2, s = s1 ++ s2 /\ matches a s1 /\ matches b s2.
Proof. intros H; inversion H; subst; eauto. Qed.

Lemma matches_Alt_inv (a b : regex) (s : jsstring) :
  matches (Alt a b) s -> matches a s \/ matches b s.
Proof. intros H; inversion H; subst; auto. Qed.

Lemma matches_Void (s : jsstring) : ~ matches Void s.
Proof. intros H; inversion H. Qed.

Lemma matches_Eps_inv (s : jsstring) : matches Eps s -> s = [].
Proof. intros H; inversion H; reflexivity. Qed.

Lemma matches_mkCat (a b : regex) (s : jsstring) :
  matches (mkCat a b) s <-> matches (Cat a b) s.
Proof.
  split.
  - unfold mkCat; intros H.
    destruct a; try (exfalso; exact (matches_Void _ H));
      destruct b; try (exfalso; exact (matches_Void _ H)); try exact H;
      change s with ([] ++ s); (apply MCat; [apply MEps | exact H]).
  - intros H; apply matches_Cat_inv in H as (s1 & s2 & -> & H1 & H2).
    unfold mkCat.
    destruct a; try (exfalso; exact (matches_Void _ H1));
      destruct b; try (exfalso; exact (matches_Void _ H2));
      try (apply matches_Eps_inv in H1; subst; exact H2);
      constructor; assumption.
Qed.

Lemma matches_mkAlt (a b : regex) (s : jsstring) :
  matches (mkAlt a b) s <-> matches (Alt a b) s.
Proof.
  split.
  - unfold mkAlt; intros H.
    destruct a; try (apply MAltR; exact H);
      destruct b; try (apply MAltL; exact H); exact H.
  - intros H; apply matches_Alt_inv in H as [H|H]; unfold mkAlt.
    + destruct a; try (exfalso; exact (matches_Void _ H));
        destruct b; try exact H; apply MAltL; exact H.
    + destruct a; try exact H;
        destruct b; try (exfalso; exact (matches_Void _ H));
        apply MAltR; exact H.
Qed.

Lemma nullable_spec (r : regex) : nullable r = true <-> matches r [].
Proof.
  induction r as [| |k|a IHa b IHb|a IHa b IHb|a IHa]; simpl.
  - split; [discriminate | intros H; inversion H].
  - split; [constructor | reflexivity].
  - split; [discriminate | intros H; inversion H].
  - rewrite andb_true_iff, IHa, IHb; split.
    + intros [Ha Hb]; change (@nil N) with (@nil N ++ []); constructor; auto.
    + intros H; apply matches_Cat_inv in H as (s1 & s2 & E & H1 & H2).
      symmetry in E; apply app_eq_nil in E as [-> ->]; auto.
  - rewrite orb_true_iff, IHa, IHb; split.
    + intros [H|H]; [apply MAltL | apply MAltR]; exact H.
    + apply matches_Alt_inv.
  - split; [constructor | reflexivity].
Qed.

(** A non-empty match of [Star r] starts with a non-empty match of [r]. *)
Lemma matches_Star_cons (r : regex) (c : N) (s : jsstring) :
  matches (Star r) (c :: s) ->
  exists s1 s2, s = s1 ++ s2 /\ matches r (c :: s1) /\ matches (Star r) s2.
Proof.
  intros H; remember (Star r) as R eqn:ER; remember (c :: s) as w eqn:Ew.
  revert c s Ew; induction H as [| | | | | |r' s1 s2 H1 _ H2 IH2];
    intros d t Ew; try discriminate.
  injection ER as ->.
  destruct s1 as [|x s1]; simpl in Ew.
  - apply IH2; auto.
  - injection Ew as -> <-; eauto.
Qed.

Lemma deriv_spec (r : regex) (c : N) (s : jsstring) :
  matches (deriv c r) s <-> matches r (c :: s).
Proof.
  revert s; induction r as [| |k|a IHa b IHb|a IHa b IHb|a IHa]; intros s; simpl.
  - split; intros H; inversion H.
  - split; intros H; inversion H.
  - destruct (class_mem k c) eqn:E; split; intros H.
    + apply matches_Eps_inv in H; subst; constructor; exact E.
    + inversion H; subst; constructor.
    + inversion H.
    + inversion H; subst; congruence.
  - assert (Hcat : matches (mkCat (deriv c a) b) s <->
                   exists s1 s2, s = s1 ++ s2 /\ matches a (c :: s1)
                                 /\ matches b s2).
    { rewrite matches_mkCat; split.
      - intros H; apply matches_Cat_inv in H as (s1 & s2 & -> & H1 & H2).
        apply IHa in H1; eauto.
      - intros (s1 & s2 & -> & H1 & H2); constructor; [apply IHa|]; auto. }
    destruct (nullable a) eqn:Na.
    + rewrite matches_mkAlt; split.
      * intros H; apply matches_Alt_inv in H as [H|H].
        -- apply Hcat in H as (s1 & s2 & -> & H1 & H2).
           change (c :: s1 ++ s2) with ((c :: s1) ++ s2); constructor; auto.
        -- apply IHb in H; apply nullable_spec in Na.
           change (c :: s) with ([] ++ c :: s); constructor; auto.
      * intros H; apply matches_Cat_inv in H as (s1 & s2 & E & H1 & H2).
        destruct s1 as [|x s1]; simpl in E.
        -- subst s2; apply MAltR, IHb, H2.
        -- injection E as <- ->; apply MAltL, Hcat; eauto.
    + rewrite Hcat; split.
      * intros (s1 & s2 & -> & H1 & H2).
        change (c :: s1 ++ s2) with ((c :: s1) ++ s2); constructor; auto.
      * intros H; apply matches_Cat_inv in H as (s1 & s2 & E & H1 & H2).
        destruct s1 as [|x s1]; simpl in E.
        -- apply nullable_spec in H1; congruence.
        -- injection E as <- ->; eauto.
  - rewrite matches_mkAlt; split.
    + intros H; apply matches_Alt_inv in H as [H|H];
        [apply MAltL, IHa | apply MAltR, IHb]; exact H.
    + intros H; apply matches_Alt_inv in H as [H|H];
        [apply MAltL, IHa | apply MAltR, IHb]; exact H.
  - rewrite matches_mkCat; split.
    + intros H; apply matches_Cat_inv in H as (s1 & s2 & -> & H1 & H2).
      apply IHa in H1.
      change (c :: s1 ++ s2) with ((c :: s1) ++ s2); constructor; auto.
    + intros H; apply matches_Star_cons in H as (s1 & s2 & -> & H1 & H2).
      constructor; [apply IHa|]; auto.
Qed.

Lemma derivs_app (a b : jsstring) (r : regex) :
  derivs (a ++ b) r = derivs b (derivs a r).
Proof. unfold derivs; apply fold_left_app. Qed.

Lemma accepts_spec (r : regex) (s : jsstring) :
  accepts r s = true <-> matches r s.
Proof.
  unfold accepts, derivs; revert r; induction s as [|c s IH]; intros r; simpl.
  - apply nullable_spec.
  - rewrite IH; apply deriv_spec.
Qed.

Lemma matches_anyStar (s : jsstring) : matches anyStar s.
Proof.
  induction s as [|c s IH]; [constructor|].
  change (c :: s) with ([c] ++ s); constructor; [constructor; reflexivity | exact IH].
Qed.

(** [test] finds a substring in the language of the body, at the start
    or the end of the string when the pattern is anchored there. *)
Lemma test_spec (p : pattern) (s : jsstring) :
  test p s = true <->
  exists a m b, s = a ++ m ++ b /\ matches (body p) m
                /\ (anchorStart p = true -> a = [])
                /\ (anchorEnd p = true -> b = []).
Proof.
  unfold test; rewrite accepts_spec; unfold wrap; split.
  - intros H; apply matches_Cat_inv in H as (a & mb & -> & Ha & H).
    apply matches_Cat_inv in H as (m & b & -> & Hm & Hb).
    exists a, m, b; repeat split; auto.
    + intros E; rewrite E in Ha; apply matches_Eps_inv, Ha.
    + intros E; rewrite E in Hb; apply matches_Eps_inv, Hb.
  - intros (a & m & b & -> & Hm & Ha & Hb).
    constructor; [|constructor; [exact Hm|]].
    + destruct (anchorStart p); [rewrite Ha by reflexivity; constructor
                                | apply matches_anyStar].
    + destruct (anchorEnd p); [rewrite Hb by reflexivity; constructor
                              | apply matches_anyStar].
Qed.

(** A pattern without [$] that matches a string matches every extension
    of it. *)
Lemma test_extend (p : pattern) (u v : jsstring) :
  anchorEnd p = false -> test p u = true -> test p (u ++ v) = true.
Proof.
  intros E H; apply test_spec in H as (a & m & b & -> & Hm & Ha & _).
  apply test_spec; exists a, m, (b ++ v); repeat split; auto.
  - rewrite <- !app_assoc; reflexivity.
  - rewrite E; discriminate.
Qed.

Lemma canon_nonletter (x c : N) :
  isLower c = false -> isUpper c = false -> canon x = canon c -> x = c.
Proof.
  unfold canon, isLower, isUpper; intros Hl Hu.
  rewrite Hl.
  destruct ((97 <=? x) && (x <=? 122)) eqn:Ex; [|auto].
  intros <-.
  apply andb_true_iff in Ex as [E1 E2].
  apply N.leb_le in E1, E2.
  apply andb_false_iff in Hu as [Hu|Hu]; apply N.leb_gt in Hu; lia.
Qed.

Lemma requires_sound (c : N) (r : regex) (s : jsstring) :
  requires c r = true -> matches r s -> In c s.
Proof.
  intros Hr H; induction H as [|k x Hk|a b s1 s2 H1 IH1 H2 IH2
                               |a b s H IH|a b s H IH| |a s1 s2 H1 IH1 H2 IH2];
    simpl in Hr; try discriminate.
  - destruct k as [c'| | |]; try discriminate.
    apply andb_true_iff in Hr as [Hr Hu]; apply andb_true_iff in Hr as [Hc Hl].
    apply N.eqb_eq in Hc; subst c'.
    apply negb_true_iff in Hl, Hu; simpl in Hk; apply N.eqb_eq in Hk.
    left; apply canon_nonletter; auto.
  - apply in_or_app; apply orb_true_iff in Hr as [Hr|Hr]; auto.
  - apply andb_true_iff in Hr as [Hr _]; auto.
  - apply andb_true_iff in Hr as [_ Hr]; auto.
Qed.

End RegExpFacts.

(** ** The command validator *)

Section CommandAllowlistFacts.

(** The validator on the commands the documentation lists. *)
Example validateCommand_examples :
  validateCommand (js "git status")
  = Normal (mkValidation true (Some (js "git status")) None)
  /\ validateCommand (js "git status && rm -rf /")
     = Normal (mkValidation false None
                 (Some (js "Shell redirection/piping not allowed")))
  /\ validateCommand (js "rm -rf /tmp")
     = Normal (mkValidation false None (Some (js "Command not in allowlist")))
  /\ validateCommand (js "sudo npm test")
     = Normal (mkValidation false None (Some (js "Command not in allowlist")))
  /\ validateCommand (js "git checkout -b feature/x")
     = Normal (mkValidation true (Some (js "git checkout -b feature/x")) None)
  /\ validateCommand (js "npm install")
     = Normal (mkValidation false None (Some (js "Command not in allowlist")))
  /\ validateCommand []
     = Normal (mkValidation false None (Some (js "Invalid command"))).
Proof. repeat split; vm_compute; reflexivity. Qed.

(** The allowlist object inherits from [Object.prototype]: a key that
    names an inherited method of arity 0 passes the length test, and one
    of another arity reaches [allowedArgs.some], which is undefined. *)
Example validateCommand_inherited_keys :
  validateCommand (js "toString")
  = Normal (mkValidation true (Some (js "toString")) None)
  /\ validateCommand (js "constructor") = Throw some_is_not_a_function.
Proof. split; vm_compute; reflexivity. Qed.

Lemma In_strip (x : N) (command : jsstring) :
  In x (strip command) ->
  In x command /\ x <> PIPE /\ x <> GT /\ x <> LT /\ x <> AMP.
Proof.
  unfold strip; intros H; apply In_trim in H.
  apply In_before in H as [Ha H]; apply In_before in H as [Hl H].
  apply In_before in H as [Hg H]; apply In_before in H as [Hp H]; auto.
Qed.

Lemma strip_clean (command : jsstring) :
  (forall c, In c [PIPE; GT; LT; AMP] -> ~ In c command) ->
  strip command = trim command.
Proof.
  intros H; unfold strip.
  rewrite (before_absent PIPE), (before_absent GT), (before_absent LT),
    (before_absent AMP); auto; apply H; simpl; auto.
Qed.

Lemma meta_not_space (c : N) :
  In c [PIPE; GT; LT; AMP] -> isWhiteSpace c = false.
Proof. intros [<-|[<-|[<-|[<-|[]]]]]; reflexivity. Qed.

Lemma strip_differs (command : jsstring) (c : N) :
  In c [PIPE; GT; LT; AMP] -> In c command -> strip command <> trim command.
Proof.
  intros Hc Hin E.
  assert (H : In c (strip command)).
  { rewrite E; apply trim_keeps; [apply meta_not_space|]; assumption. }
  apply In_strip in H as (_ & Hp & Hg & Hl & Ha).
  destruct Hc as [<-|[<-|[<-|[<-|[]]]]]; congruence.
Qed.

(** C5: a command that contains [|], [>], [<] or [&] is rejected with the
    shell-metacharacter reason, whatever stands before that character. *)
Theorem validateCommand_rejects_metacharacters (command : jsstring) (c : N) :
  In c [PIPE; GT; LT; AMP] -> In c command ->
  validateCommand command =
  Normal (mkValidation false None
            (Some (js "Shell redirection/piping not allowed"))).
Proof.
  intros Hc Hin; unfold validateCommand.
  destruct command as [|x command]; [destruct Hin|]; simpl isEmpty; cbv iota.
  rewrite (str_eqb_neq _ _ (strip_differs _ _ Hc Hin)); reflexivity.
Qed.

(** The part of [git status | cat] before the pipe is allowed on its own,
    and the whole command is rejected. *)
Lemma validateCommand_rejects_metacharacters_witness :
  validateCommand (js "git status") =
    Normal (mkValidation true (Some (js "git status")) None)
  /\ validateCommand (js "git status | cat") =
     Normal (mkValidation false None
               (Some (js "Shell redirection/piping not allowed"))).
Proof.
  split; [vm_compute; reflexivity|].
  apply (validateCommand_rejects_metacharacters (js "git status | cat") PIPE).
  - left; reflexivity.
  - vm_compute; tauto.
Defined.

Lemma dangerous_not_empty (p : pattern) :
  In p DANGEROUS_PATTERNS -> test p [] = false.
Proof.
  intros Hp.
  assert (H : forallb (fun p => negb (test p [])) DANGEROUS_PATTERNS = true)
    by (vm_compute; reflexivity).
  rewrite forallb_forall in H; apply negb_true_iff, H, Hp.
Qed.

Lemma isCommandAllowed_dangerous (command : jsstring) (p : pattern) :
  In p DANGEROUS_PATTERNS -> test p command = true ->
  isCommandAllowed command = Normal false.
Proof.
  intros Hp Ht; unfold isCommandAllowed.
  destruct (isEmpty command); [reflexivity|].
  replace (existsb _ DANGEROUS_PATTERNS) with true; [reflexivity|].
  symmetry; apply existsb_exists; exists p; auto.
Qed.

(** What the validator answers when the trimmed command matches a
    dangerous pattern. *)
Lemma validateCommand_dangerous (command : jsstring) (p : pattern) :
  In p DANGEROUS_PATTERNS -> test p (trim command) = true ->
  validateCommand command =
  Normal (mkValidation false None
            (Some (if str_eqb (strip command) (trim command)
                   then js "Command not in allowlist"
                   else js "Shell redirection/piping not allowed"))).
Proof.
  intros Hp Ht; unfold validateCommand.
  destruct (isEmpty command) eqn:Ec.
  { destruct command; [|discriminate].
    change (trim []) with (@nil N) in Ht.
    rewrite (dangerous_not_empty p Hp) in Ht; discriminate. }
  destruct (str_eqb (strip command) (trim command)) eqn:E; simpl; [|reflexivity].
  apply str_eqb_eq in E; rewrite E.
  rewrite (isCommandAllowed_dangerous _ p Hp Ht); reflexivity.
Qed.

(** C4, as amended: a command whose trimmed form matches a dangerous
    pattern is not allowed, whatever the allowlist says about it. *)
Theorem validateCommand_denies_dangerous (command : jsstring) (p : pattern) :
  In p DANGEROUS_PATTERNS -> test p (trim command) = true ->
  exists r, validateCommand command = Normal r /\ allowed r = false.
Proof.
  intros Hp Ht; rewrite (validateCommand_dangerous command p Hp Ht).
  eexists; split; reflexivity.
Qed.

(** [git log sudo] passes the allowlist ([log] is an allowed prefix of the
    arguments of [git]) and is denied for matching [/sudo/i]. *)
Lemma validateCommand_denies_dangerous_witness :
  exists r, validateCommand (js "git log sudo") = Normal r
            /\ allowed r = false.
Proof.
  apply (validateCommand_denies_dangerous (js "git log sudo")
           (search [lit "sudo"])).
  - vm_compute; tauto.
  - vm_compute; reflexivity.
Defined.

(** C4, as stated, fails: the patterns are tested on the trimmed command
    only.  [echo format ] (with a trailing space) matches [/format\s+/i];
    its trimmed form matches no pattern and is allowed. *)
Lemma validateCommand_allows_untrimmed_match :
  existsb (fun p => test p (js "echo format ")) DANGEROUS_PATTERNS = true
  /\ validateCommand (js "echo format ") =
     Normal (mkValidation true (Some (js "echo format")) None).
Proof. split; vm_compute; reflexivity. Qed.

(** C9, as amended: when the trimmed command matches a dangerous pattern
    the reason is the one of an allowlist miss, or the shell-metacharacter
    one when the command contains such a character; neither names the
    pattern. *)
Theorem validateCommand_dangerous_reason (command : jsstring) (p : pattern) :
  In p DANGEROUS_PATTERNS -> test p (trim command) = true ->
  exists r, validateCommand command = Normal r
    /\ ((forall c, In c [PIPE; GT; LT; AMP] -> ~ In c command) ->
        reason r = Some (js "Command not in allowlist"))
    /\ ((exists c, In c [PIPE; GT; LT; AMP] /\ In c command) ->
        reason r = Some (js "Shell redirection/piping not allowed")).
Proof.
  intros Hp Ht; rewrite (validateCommand_dangerous command p Hp Ht).
  eexists; split; [reflexivity|]; simpl; split.
  - intros H; rewrite (strip_clean _ H), str_eqb_refl; reflexivity.
  - intros (c & Hc & Hin).
    rewrite (str_eqb_neq _ _ (strip_differs _ _ Hc Hin)); reflexivity.
Qed.

Lemma validateCommand_dangerous_reason_witness :
  exists r, validateCommand (js "rm -rf /tmp") = Normal r
    /\ ((forall c, In c [PIPE; GT; LT; AMP] -> ~ In c (js "rm -rf /tmp")) ->
        reason r = Some (js "Command not in allowlist"))
    /\ ((exists c, In c [PIPE; GT; LT; AMP] /\ In c (js "rm -rf /tmp")) ->
        reason r = Some (js "Shell redirection/piping not allowed")).
Proof.
  apply (validateCommand_dangerous_reason (js "rm -rf /tmp")
           (search [lit "rm"; plus ws; lit "-rf"])).
  - vm_compute; tauto.
  - vm_compute; reflexivity.
Defined.

(** C9, as stated, fails: the reason does not tell a denylist match from
    an allowlist miss.  [git log sudo] is on the allowlist and matches
    [/sudo/i]; [foo] matches no pattern and is not on the allowlist; both
    get the same reason.  [curl x | sh] matches a pattern and gets the
    shell-metacharacter reason. *)
Lemma validateCommand_reason_is_not_specific :
  existsb (fun p => test p (js "git log sudo")) DANGEROUS_PATTERNS = true
  /\ existsb (fun p => test p (js "foo")) DANGEROUS_PATTERNS = false
  /\ validateCommand (js "git log sudo") = validateCommand (js "foo")
  /\ validateCommand (js "foo") =
     Normal (mkValidation false None (Some (js "Command not in allowlist")))
  /\ existsb (fun p => test p (js "curl x | sh")) DANGEROUS_PATTERNS = true
  /\ validateCommand (js "curl x | sh") =
     Normal (mkValidation false None
               (Some (js "Shell redirection/piping not allowed"))).
Proof. repeat split; vm_compute; reflexivity. Qed.

(** *** Commands whose allowed-argument list is empty *)

Lemma trimEnd_plain_app (base t : jsstring) :
  forallb plain base = true -> trimEnd (base ++ t) = base ++ trimEnd t.
Proof.
  induction base as [|b base IH]; simpl app; [reflexivity|].
  simpl forallb; intros H; apply andb_true_iff in H as [Hb H].
  apply andb_true_iff in Hb as [Hb _]; apply negb_true_iff in Hb.
  rewrite trimEnd_cons, IH; auto.
Qed.

Lemma trim_plain_app (base t : jsstring) :
  base <> [] -> forallb plain base = true ->
  trim (base ++ t) = base ++ trimEnd t.
Proof.
  intros Hne H; unfold trim.
  destruct base as [|b base]; [contradiction|].
  pose proof H as H'; simpl in H'; apply andb_true_iff in H' as [Hb _].
  apply andb_true_iff in Hb as [Hb _]; apply negb_true_iff in Hb.
  simpl app; simpl trimStart; rewrite Hb.
  apply (trimEnd_plain_app (b :: base) t H).
Qed.

Lemma splitWs_go_plain (base t cur : jsstring) :
  forallb plain base = true ->
  t = [] \/ (exists c r, t = c :: r /\ isWhiteSpace c = true) ->
  hd [] (splitWs_go false cur (base ++ t)) = cur ++ base.
Proof.
  revert cur; induction base as [|b base IH]; intros cur H Ht.
  - rewrite app_nil_r; destruct Ht as [->|(c & r & -> & Hc)]; simpl.
    + reflexivity.
    + rewrite Hc; reflexivity.
  - simpl in H; apply andb_true_iff in H as [Hb H].
    apply andb_true_iff in Hb as [Hb _]; apply negb_true_iff in Hb.
    simpl; rewrite Hb, IH, <- app_assoc; auto.
Qed.

Lemma trimEnd_space_shape (s : jsstring) :
  trimEnd (32 :: s) = []
  \/ exists c r, trimEnd (32 :: s) = c :: r /\ isWhiteSpace c = true.
Proof.
  simpl; destruct (trimEnd s); [left; reflexivity|].
  right; eexists _, _; split; reflexivity.
Qed.

(** No dangerous pattern anchored with [$] can match without a pipe. *)
Lemma anchored_patterns_need_pipe (p : pattern) (s : jsstring) :
  In p DANGEROUS_PATTERNS -> anchorEnd p = true -> test p s = true ->
  In PIPE s.
Proof.
  intros Hp Ha Ht.
  assert (H : forallb (fun p => negb (anchorEnd p) || requires PIPE (body p))
                DANGEROUS_PATTERNS = true) by (vm_compute; reflexivity).
  rewrite forallb_forall in H; specialize (H p Hp).
  rewrite Ha in H; simpl in H.
  apply test_spec in Ht as (a & m & b & -> & Hm & _).
  apply in_or_app; right; apply in_or_app; left.
  apply (requires_sound _ _ _ H Hm).
Qed.

Lemma In_plain_not_meta (base : jsstring) (c : N) :
  forallb plain base = true -> In c [PIPE; GT; LT; AMP] -> ~ In c base.
Proof.
  intros H Hc Hin; rewrite forallb_forall in H; specialize (H c Hin).
  apply andb_true_iff in H as [_ H]; apply negb_true_iff in H.
  assert (E : existsb (N.eqb c) [PIPE; GT; LT; AMP] = true).
  { apply existsb_exists; exists c; split; [exact Hc | apply N.eqb_refl]. }
  congruence.
Qed.

(** The general step: a base command made of plain characters, which no
    dangerous pattern can straddle, and whose allowed-argument list is
    empty, lets through every argument string that is itself harmless. *)
Lemma empty_list_allows (base s : jsstring) :
  base <> [] -> forallb plain base = true ->
  map (fun p => derivs (base ++ [32]) (wrap p)) DANGEROUS_PATTERNS
  = map wrap DANGEROUS_PATTERNS ->
  getProperty base = VArray [] ->
  (forall c, In c [PIPE; GT; LT; AMP] -> ~ In c s) ->
  existsb (fun p => test p s) DANGEROUS_PATTERNS = false ->
  validateCommand (base ++ 32 :: s) =
  Normal (mkValidation true (Some (trim (base ++ 32 :: s))) None).
Proof.
  intros Hne Hplain Hder Hprop Hmeta Hsafe.
  set (command := base ++ 32 :: s).
  assert (Hclean : forall c, In c [PIPE; GT; LT; AMP] -> ~ In c command).
  { intros c Hc Hin; apply in_app_or in Hin as [Hin|[<-|Hin]].
    - exact (In_plain_not_meta _ _ Hplain Hc Hin).
    - destruct Hc as [E|[E|[E|[E|[]]]]]; discriminate E.
    - exact (Hmeta c Hc Hin). }
  assert (Htrim : trim command = base ++ trimEnd (32 :: s))
    by (apply trim_plain_app; assumption).
  unfold validateCommand.
  replace (isEmpty command) with false
    by (unfold command; destruct base; [contradiction | reflexivity]).
  rewrite (strip_clean _ Hclean), str_eqb_refl; simpl negb; cbv iota.
  replace (isCommandAllowed (trim command)) with
    (@Normal TypeError bool true); [reflexivity|].
  symmetry; unfold isCommandAllowed.
  replace (isEmpty (trim command)) with false
    by (rewrite Htrim; destruct base; [contradiction | reflexivity]).
  replace (existsb _ DANGEROUS_PATTERNS) with false.
  - replace (trim (trim command)) with (base ++ trimEnd (32 :: s)).
    + unfold splitWs; rewrite splitWs_go_plain; auto using trimEnd_space_shape.
      simpl app; rewrite Hprop; reflexivity.
    + rewrite Htrim, trim_plain_app, trimEnd_idem; auto.
  - symmetry; apply not_true_is_false; intros H.
    apply existsb_exists in H as (p & Hp & Ht).
    destruct (anchorEnd p) eqn:Ea.
    + apply (Hclean PIPE); [left; reflexivity|].
      apply In_trim, (anchored_patterns_need_pipe p); assumption.
    + destruct (trimEnd_prefix (32 :: s)) as [w Hw].
      assert (Hc : test p command = true).
      { replace command with (trim command ++ w).
        - apply test_extend; assumption.
        - rewrite Htrim, <- app_assoc, <- Hw; reflexivity. }
      assert (Hs : test p s = true).
      { unfold test, accepts in *.
        replace command with ((base ++ [32]) ++ s) in Hc
          by (unfold command; rewrite <- app_assoc; reflexivity).
        rewrite derivs_app in Hc.
        pose proof (proj1 map_ext_in_iff Hder p Hp) as Hd; simpl in Hd.
        rewrite Hd in Hc; exact Hc. }
      assert (Hn : test p s = false).
      { destruct (test p s) eqn:E; [|reflexivity].
        assert (existsb (fun p => test p s) DANGEROUS_PATTERNS = true)
          by (apply existsb_exists; exists p; auto).
        congruence. }
      congruence.
Qed.

(** C10: every allowlist entry whose allowed-argument list is empty
    ([node], [pytest], [ls], [dir], [pwd], [echo]) lets through any argument
    string that contains no shell metacharacter and matches no dangerous
    pattern; so [node] runs arbitrary scripts. *)
Theorem empty_argument_list_allows_any_arguments (base s : jsstring) :
  In (base, []) ALLOWED_COMMANDS ->
  (forall c, In c [PIPE; GT; LT; AMP] -> ~ In c s) ->
  existsb (fun p => test p s) DANGEROUS_PATTERNS = false ->
  validateCommand (base ++ js " " ++ s) =
  Normal (mkValidation true (Some (trim (base ++ js " " ++ s))) None).
Proof.
  intros Hin Hmeta Hsafe; change (js " " ++ s) with (32 :: s).
  unfold ALLOWED_COMMANDS in Hin; simpl in Hin.
  repeat (destruct Hin as [Hin|Hin];
          [ first
              [ discriminate Hin
              | injection Hin as <-; apply empty_list_allows;
                [ discriminate | reflexivity | vm_compute; reflexivity
                | reflexivity | exact Hmeta | exact Hsafe ] ]
          | ]).
  destruct Hin.
Qed.

Lemma empty_argument_list_allows_any_arguments_witness :
  validateCommand (js "node" ++ js " " ++ js "/tmp/anything.js --do it") =
  Normal (mkValidation true
            (Some (trim (js "node" ++ js " " ++ js "/tmp/anything.js --do it")))
            None).
Proof.
  apply (empty_argument_list_allows_any_arguments
           (js "node") (js "/tmp/anything.js --do it")).
  - vm_compute; tauto.
  - intros c Hc; vm_compute in Hc |- *; intuition congruence.
  - vm_compute; reflexivity.
Defined.

End CommandAllowlistFacts.

(** ** The sandbox *)

Section SandboxFacts.

Variable lim : Limits.

Ltac break_state st :=
  destruct st as [so se k t g [rn ck d] p]; simpl in *.

Ltac handlers :=
  unfold step, onTimeout, onGrace, onStdout, onStderr, onExit, onError,
    settle, set_killed, clearTimeout, send, schedule_grace, grace_done,
    append_out, append_err, exited, kill; simpl.

Lemma initial_inv (spawned : bool) : Inv (initial spawned).
Proof.
  constructor; simpl; try discriminate; try tauto; congruence.
Qed.

Lemma step_inv (st : State) (ev : Event) : Inv st -> Inv (step lim st ev).
Proof.
  intros [Hk Ht Hs]; break_state st.
  destruct ev as [| |data|data|code signal|message]; handlers.
  - destruct t; [|constructor; assumption].
    destruct k; [constructor; simpl; intuition congruence|].
    destruct p as [p|]; destruct rn; constructor; simpl;
      intuition congruence.
  - destruct g; [|constructor; assumption].
    destruct ck; simpl; [constructor; simpl; intuition congruence|].
    destruct rn; constructor; simpl; intuition congruence.
  - destruct (maxBuffer lim <? len (so ++ data));
      [|constructor; assumption].
    destruct k; [constructor; assumption|].
    destruct p as [p|]; destruct rn; constructor; simpl;
      intuition congruence.
  - destruct (maxBuffer lim <? len (se ++ data));
      [|constructor; assumption].
    destruct k; [constructor; assumption|].
    destruct p as [p|]; destruct rn; constructor; simpl;
      intuition congruence.
  - destruct k; [constructor; simpl; intuition congruence|].
    destruct p as [p|]; constructor; simpl; intuition congruence.
  - destruct k; [constructor; simpl; intuition congruence|].
    destruct p as [p|]; constructor; simpl; intuition congruence.
Qed.

Lemma run_inv (st : State) (events : list Event) :
  Inv st -> Inv (run lim st events).
Proof.
  revert st; induction events as [|ev events IH]; intros st H; simpl; auto.
  apply IH, step_inv, H.
Qed.

Lemma initial_inv_signals (spawned : bool) : InvSignals (initial spawned).
Proof. constructor; simpl; [discriminate | tauto]. Qed.

Lemma step_inv_signals (st : State) (ev : Event) :
  InvSignals st -> InvSignals (step lim st ev).
Proof.
  intros [Hg Hn]; break_state st.
  destruct ev as [| |data|data|code signal|message]; handlers.
  - destruct t; [|constructor; assumption].
    destruct k; [constructor; simpl; intuition congruence|].
    destruct p as [p|]; destruct rn; constructor; simpl;
      rewrite ?in_app_iff; simpl; intuition congruence.
  - destruct g; [|constructor; assumption].
    destruct ck; simpl; [constructor; simpl; intuition congruence|].
    destruct rn; constructor; simpl; intuition congruence.
  - destruct (maxBuffer lim <? len (so ++ data));
      [|constructor; assumption].
    destruct k; [constructor; assumption|].
    destruct p as [p|]; destruct rn; constructor; simpl;
      rewrite ?in_app_iff; simpl; intuition congruence.
  - destruct (maxBuffer lim <? len (se ++ data));
      [|constructor; assumption].
    destruct k; [constructor; assumption|].
    destruct p as [p|]; destruct rn; constructor; simpl;
      rewrite ?in_app_iff; simpl; intuition congruence.
  - destruct k; [constructor; simpl; intuition congruence|].
    destruct p as [p|]; constructor; simpl; intuition congruence.
  - destruct k; [constructor; simpl; intuition congruence|].
    destruct p as [p|]; constructor; simpl; intuition congruence.
Qed.

Lemma run_inv_signals (st : State) (events : list Event) :
  InvSignals st -> InvSignals (run lim st events).
Proof.
  revert st; induction events as [|ev events IH]; intros st H; simpl; auto.
  apply IH, step_inv_signals, H.
Qed.

Lemma run_app (st : State) (a b : list Event) :
  run lim st (a ++ b) = run lim (run lim st a) b.
Proof. apply fold_left_app. Qed.

(** A settled promise stays as it is. *)
Lemma step_settled (st : State) (ev : Event) (o : Outcome) :
  promise st = Some o -> promise (step lim st ev) = Some o.
Proof.
  intros H; break_state st; subst p.
  destruct ev as [| |data|data|code signal|message]; handlers.
  - destruct t; [destruct k|]; reflexivity.
  - destruct g; [destruct ck; simpl; [|destruct rn]|]; reflexivity.
  - destruct (maxBuffer lim <? len (so ++ data)); [destruct k|]; reflexivity.
  - destruct (maxBuffer lim <? len (se ++ data)); [destruct k|]; reflexivity.
  - destruct k; reflexivity.
  - destruct k; reflexivity.
Qed.

Lemma run_settled (st : State) (events : list Event) (o : Outcome) :
  promise st = Some o -> promise (run lim st events) = Some o.
Proof.
  revert st; induction events as [|ev events IH]; intros st H; simpl; auto.
  apply IH, step_settled, H.
Qed.

(** The callback that settles a pending promise is of the kind of the
    outcome. *)
Lemma step_produced (st : State) (ev : Event) (o : Outcome) :
  promise st = None -> promise (step lim st ev) = Some o ->
  produced_by lim ev o.
Proof.
  intros H; break_state st; subst p.
  destruct ev as [| |data|data|code signal|message]; handlers.
  - destruct t; [destruct k|]; simpl; try discriminate.
    intros [= <-]; reflexivity.
  - destruct g; [destruct ck; simpl; [|destruct rn]|]; discriminate.
  - destruct (maxBuffer lim <? len (so ++ data)); [destruct k|]; simpl;
      try discriminate.
    intros [= <-]; reflexivity.
  - destruct (maxBuffer lim <? len (se ++ data)); [destruct k|]; simpl;
      try discriminate.
    intros [= <-]; reflexivity.
  - destruct k; simpl; try discriminate.
    intros [= <-]; split; reflexivity.
  - destruct k; simpl; try discriminate.
    intros [= <-]; reflexivity.
Qed.

Lemma len_substring0 (n : N) (s : jsstring) : len (substring0 n s) <= n.
Proof.
  unfold len, substring0.
  pose proof (firstn_le_length (N.to_nat n) s). lia.
Qed.

Lemma step_resolved_bounded (st : State) (ev : Event) (r : Result) :
  promise st = None -> promise (step lim st ev) = Some (Resolved r) ->
  len (stdout r) <= maxBuffer lim /\ len (stderr r) <= maxBuffer lim.
Proof.
  intros H; break_state st; subst p.
  destruct ev as [| |data|data|code signal|message]; handlers.
  - destruct t; [destruct k|]; simpl; discriminate.
  - destruct g; [destruct ck; simpl; [|destruct rn]|]; discriminate.
  - destruct (maxBuffer lim <? len (so ++ data)); [destruct k|]; simpl;
      discriminate.
  - destruct (maxBuffer lim <? len (se ++ data)); [destruct k|]; simpl;
      discriminate.
  - destruct k; simpl; try discriminate.
    intros [= <-]; simpl; split; apply len_substring0.
  - destruct k; simpl; discriminate.
Qed.

(** The first callback that settles the promise. *)
Lemma first_settle (st : State) (events : list Event) (o : Outcome) :
  promise st = None -> promise (run lim st events) = Some o ->
  exists pre ev post,
    events = pre ++ ev :: post
    /\ promise (run lim st pre) = None
    /\ promise (step lim (run lim st pre) ev) = Some o.
Proof.
  revert st; induction events as [|ev events IH]; intros st Hn Hs; simpl in Hs.
  - congruence.
  - destruct (promise (step lim st ev)) as [o'|] eqn:E.
    + rewrite (run_settled _ _ _ E) in Hs; injection Hs as ->.
      exists [], ev, events; simpl; auto.
    + destruct (IH _ E Hs) as (pre & ev' & post & -> & H1 & H2).
      exists (ev :: pre), ev', post; simpl; auto.
Qed.

(** Once the promise is settled no callback signals the process. *)
Lemma step_quiet (st : State) (ev : Event) :
  Inv st -> InvSignals st -> promise st <> None ->
  delivered (childProcess (step lim st ev)) = delivered (childProcess st).
Proof.
  intros [Hk Ht Hs] [Hg Hn] Hp; specialize (Hs Hp); break_state st.
  destruct p as [p|]; [clear Hp Hk Ht | congruence].
  assert (Hq : k = false -> rn = false) by (destruct Hs; congruence).
  destruct ev as [| |data|data|code signal|message]; handlers.
  - destruct t; [|reflexivity].
    destruct k; [reflexivity | rewrite Hq; reflexivity].
  - destruct g; [|reflexivity].
    destruct ck; simpl; [reflexivity|].
    destruct rn; [|reflexivity].
    destruct Hg as [Hg|Hg]; [reflexivity | discriminate | discriminate].
  - destruct (maxBuffer lim <? len (so ++ data)); [|reflexivity].
    destruct k; [reflexivity | rewrite Hq; reflexivity].
  - destruct (maxBuffer lim <? len (se ++ data)); [|reflexivity].
    destruct k; [reflexivity | rewrite Hq; reflexivity].
  - destruct k; reflexivity.
  - destruct k; reflexivity.
Qed.

Lemma run_quiet (st : State) (events : list Event) :
  Inv st -> InvSignals st -> promise st <> None ->
  delivered (childProcess (run lim st events)) = delivered (childProcess st).
Proof.
  revert st; induction events as [|ev events IH]; intros st Hi Hg Hp; simpl;
    auto.
  rewrite IH.
  - apply step_quiet; assumption.
  - apply step_inv, Hi.
  - apply step_inv_signals, Hg.
  - destruct (promise st) as [o|] eqn:E; [|congruence].
    rewrite (step_settled _ ev _ E); discriminate.
Qed.

Lemma step_decisive (st : State) (ev : Event) :
  Inv st -> decisive ev = true -> promise (step lim st ev) <> None.
Proof.
  intros [Hk Ht Hs] Hd; break_state st.
  destruct ev as [| |data|data|code signal|message]; try discriminate;
    handlers.
  - destruct t.
    + destruct k; [auto|]; destruct p; simpl; discriminate.
    + intros E; specialize (Ht E); discriminate.
  - destruct k; [auto|]; destruct p; simpl; discriminate.
  - destruct k; [auto|]; destruct p; simpl; discriminate.
Qed.


(** A chunk of output that takes a stream over the limit while the
    promise is pending rejects it. *)
Lemma step_overflow (st : State) (data : jsstring) :
  Inv st -> promise st = None ->
  (maxBuffer lim < len (out st ++ data) ->
   promise (step lim st (StdoutData data))
   = Some (Rejected (OutputBufferExceeded (maxBuffer lim))))
  /\ (maxBuffer lim < len (err st ++ data) ->
      promise (step lim st (StderrData data))
      = Some (Rejected (ErrorBufferExceeded (maxBuffer lim)))).
Proof.
  intros [Hk Ht Hs] Hp; break_state st; subst p.
  assert (k = false) as -> by (destruct k; [exfalso; apply Hk|]; auto).
  split; intros H; apply N.ltb_lt in H; handlers; rewrite H; reflexivity.
Qed.

End SandboxFacts.

Section SandboxClaims.



Lemma validateCommand_reason (command : jsstring) (v : ValidationResult) :
  validateCommand command = Normal v -> allowed v = false ->
  exists why, reason v = Some why /\ In why REASONS.
Proof.
  unfold validateCommand, REASONS.
  destruct (isEmpty command).
  { intros [= <-] _; eexists; split; [reflexivity | simpl; auto]. }
  destruct (negb (str_eqb (strip command) (trim command))).
  { intros [= <-] _; eexists; split; [reflexivity | simpl; auto]. }
  destruct (isCommandAllowed (strip command)) as [[|]|e]; try discriminate.
  - intros [= <-]; discriminate.
  - intros [= <-] _; eexists; split; [reflexivity | simpl; auto].
Qed.

(** The callback that finds the promise pending and settles it. *)
Lemma settled_by (lim : Limits) (spawned : bool) (pre post : list Event)
  (ev : Event) (o : Outcome) :
  promise (step lim (run lim (initial spawned) pre) ev) = Some o ->
  promise (run lim (initial spawned) (pre ++ ev :: post)) = Some o.
Proof.
  intros H; rewrite run_app; simpl; apply run_settled; exact H.
Qed.

(** C1, as amended: [executeSandboxed] reports every failure by throwing
    or rejecting with an [Error], never in a result.  A command that the
    validator refuses is not spawned and is answered "Command not
    allowed" with the validator's reason; an exception of [spawn] rejects
    the promise as it is; and for a child process, the callback that finds
    the promise pending decides: the timeout rejects it, a chunk that
    takes a stream over its limit rejects it, a process error rejects it,
    and the exit resolves it.  A result comes from an exit only. *)
Theorem failures_are_rejections (process_cwd command : jsstring)
  (options : Options) (spawn : Spawn) (events : list Event) :
  let lim := limits process_cwd options in
  let invocation :=
    executeSandboxed process_cwd command options spawn events in
  (forall v, validateCommand command = Normal v -> allowed v = false ->
     exists why,
       reason v = Some why /\ In why REASONS
       /\ invocation = NotSpawned (CommandNotAllowed why))
  /\ (forall t, validateCommand command = Throw t ->
        invocation = NotSpawned (ValidatorThrew t))
  /\ (forall v, validateCommand command = Normal v -> allowed v = true ->
      (forall message,
         spawn = SpawnThrows message \/ spawn = NoStreams message ->
         outcome invocation = Some (Rejected (ExecutorThrew message)))
      /\ (forall spawned pre ev post,
            spawn = Child spawned -> events = pre ++ ev :: post ->
            promise (run lim (initial spawned) pre) = None ->
            match ev with
            | TimerFired =>
                outcome invocation
                = Some (Rejected (CommandTimeout (timeout lim)))
            | StdoutData data =>
                maxBuffer lim < len (out (run lim (initial spawned) pre)
                                       ++ data) ->
                outcome invocation
                = Some (Rejected (OutputBufferExceeded (maxBuffer lim)))
            | StderrData data =>
                maxBuffer lim < len (err (run lim (initial spawned) pre)
                                       ++ data) ->
                outcome invocation
                = Some (Rejected (ErrorBufferExceeded (maxBuffer lim)))
            | ProcError message =>
                outcome invocation = Some (Rejected (ProcessError message))
            | Exit code signal =>
                exists r,
                  outcome invocation = Some (Resolved r)
                  /\ success r = is_zero code
                  /\ exitCode r = exit_code code signal
            | GraceFired => True
            end))
  /\ (forall r, outcome invocation = Some (Resolved r) ->
        exists code signal,
          In (Exit code signal) events
          /\ success r = is_zero code
          /\ exitCode r = exit_code code signal).
Proof.
  intros lim invocation; subst invocation; unfold executeSandboxed; fold lim.
  split; [|split; [|split]].
  - intros v Hv Ha; rewrite Hv, Ha; simpl negb; cbv iota.
    destruct (validateCommand_reason _ _ Hv Ha) as (why & Hr & Hin).
    exists why; repeat split; auto.
    rewrite Hr; unfold REASONS in Hin; simpl in Hin.
    destruct Hin as [<-|[<-|[<-|[]]]]; reflexivity.
  - intros t Ht; rewrite Ht; reflexivity.
  - intros v Hv Ha; rewrite Hv, Ha; simpl negb; cbv iota; split.
    + intros message [-> | ->]; [reflexivity|].
      cbn [outcome]; apply run_settled; reflexivity.
    + intros spawned pre ev post -> -> Hpre; cbn [outcome].
      pose proof (run_inv lim _ pre (initial_inv spawned)) as Hi.
      destruct ev as [| |data|data|code signal|message]; [| exact I | | | |].
      * pose proof (step_decisive lim _ TimerFired Hi eq_refl) as Hd.
        destruct (promise (step lim (run lim (initial spawned) pre)
                             TimerFired)) as [o|] eqn:E; [|congruence].
        pose proof (step_produced lim _ _ _ Hpre E) as Hby.
        destruct o as [r|e]; [|destruct e]; simpl in Hby;
          try contradiction; subst.
        apply settled_by; exact E.
      * intros Hover; apply settled_by.
        apply (proj1 (step_overflow lim _ data Hi Hpre) Hover).
      * intros Hover; apply settled_by.
        apply (proj2 (step_overflow lim _ data Hi Hpre) Hover).
      * pose proof (step_decisive lim _ (Exit code signal) Hi eq_refl) as Hd.
        destruct (promise (step lim (run lim (initial spawned) pre)
                             (Exit code signal))) as [o|] eqn:E;
          [|congruence].
        pose proof (step_produced lim _ _ _ Hpre E) as Hby.
        destruct o as [r|e]; [|destruct e]; simpl in Hby;
          try contradiction.
        exists r; split; [apply settled_by; exact E | exact Hby].
      * pose proof (step_decisive lim _ (ProcError message) Hi eq_refl) as Hd.
        destruct (promise (step lim (run lim (initial spawned) pre)
                             (ProcError message))) as [o|] eqn:E;
          [|congruence].
        pose proof (step_produced lim _ _ _ Hpre E) as Hby.
        destruct o as [r|e]; [|destruct e]; simpl in Hby;
          try contradiction; subst.
        apply settled_by; exact E.
  - intros r.
    destruct (validateCommand command) as [v|t]; [|discriminate].
    destruct (allowed v); simpl negb; cbv iota; [|discriminate].
    destruct spawn as [message|message|spawned]; cbn [outcome];
      [discriminate | |].
    { rewrite (run_settled lim (no_streams message) _ _ eq_refl).
      discriminate. }
    intros Hr.
    destruct (first_settle lim (initial spawned) events _ eq_refl Hr)
      as (pre & ev & post & -> & Hpre & Hstep).
    pose proof (step_produced lim _ _ _ Hpre Hstep) as Hby.
    destruct ev as [| |data|data|code signal|message]; simpl in Hby;
      try contradiction.
    exists code, signal; split; [|exact Hby].
    apply in_or_app; right; left; reflexivity.
Qed.

Lemma failures_are_rejections_witness :
  let command := js "echo a" ++ [0] ++ js "b" in
  let message := js "The argument 'args[0]' must be a string without null bytes" in
  outcome (executeSandboxed (js "/repo") command noOptions
             (SpawnThrows message) [TimerFired])
  = Some (Rejected (ExecutorThrew message)).
Proof.
  intros command message.
  refine (proj1 (proj1 (proj2 (proj2
            (failures_are_rejections (js "/repo") command noOptions
               (SpawnThrows message) [TimerFired])))
            (mkValidation true (Some command) None) _ _) message
            (or_introl eq_refl));
    vm_compute; reflexivity.
Defined.

(** C1, as stated, fails: a policy rejection, a timeout and an output
    overflow are each thrown (the returned promise is rejected); none is
    returned inside a result. *)
Lemma violations_are_thrown :
  outcome (executeSandboxed (js "/repo") (js "rm -rf /tmp") noOptions
             (Child true) [])
  = Some (Rejected (CommandNotAllowed (js "Command not in allowlist")))
  /\ outcome (executeSandboxed (js "/repo") (js "node loop.js") noOptions
                (Child true) [TimerFired])
     = Some (Rejected (CommandTimeout 60000))
  /\ outcome (executeSandboxed (js "/repo") (js "echo hello")
                (mkOptions None None None (Some 4)) (Child true)
                [StdoutData (js "hello")])
     = Some (Rejected (OutputBufferExceeded 4)).
Proof. repeat split; vm_compute; reflexivity. Qed.

(** C3, as amended: each stream has its own limit.  A result, when there
    is one, carries at most [maxBuffer] code units of each stream; and the
    chunk that takes [stdout] (or [stderr]) over [maxBuffer] while the
    promise is pending rejects it with the buffer error of that stream. *)
Theorem output_limit_per_stream (lim : Limits) (spawned : bool)
  (events : list Event) :
  (forall r, promise (run lim (initial spawned) events) = Some (Resolved r) ->
             len (stdout r) <= maxBuffer lim /\ len (stderr r) <= maxBuffer lim)
  /\ (forall pre data post,
        events = pre ++ StdoutData data :: post ->
        promise (run lim (initial spawned) pre) = None ->
        maxBuffer lim < len (out (run lim (initial spawned) pre) ++ data) ->
        promise (run lim (initial spawned) events)
        = Some (Rejected (OutputBufferExceeded (maxBuffer lim))))
  /\ (forall pre data post,
        events = pre ++ StderrData data :: post ->
        promise (run lim (initial spawned) pre) = None ->
        maxBuffer lim < len (err (run lim (initial spawned) pre) ++ data) ->
        promise (run lim (initial spawned) events)
        = Some (Rejected (ErrorBufferExceeded (maxBuffer lim)))).
Proof.
  split; [|split].
  - intros r Hr.
    destruct (first_settle lim (initial spawned) events _ eq_refl Hr)
      as (pre & ev & post & -> & Hpre & Hstep).
    apply (step_resolved_bounded lim _ _ _ Hpre Hstep).
  - intros pre data post -> Hpre Hover.
    rewrite run_app; simpl; apply run_settled.
    apply step_overflow; auto using run_inv, initial_inv.
  - intros pre data post -> Hpre Hover.
    rewrite run_app; simpl; apply run_settled.
    apply step_overflow; auto using run_inv, initial_inv.
Qed.

(** C3, as stated, fails: with [maxBuffer = 10], six code units on
    [stdout] and six on [stderr] exceed the limit together; the invocation
    resolves successfully and the result carries all twelve. *)
Lemma combined_output_is_not_limited :
  let events := [StdoutData (js "aaaaaa"); StderrData (js "bbbbbb");
                 Exit (Some 0%Z) None] in
  outcome (executeSandboxed (js "/repo") (js "node two-streams.js")
             (mkOptions None None None (Some 10)) (Child true) events)
  = Some (Resolved (mkResult true (js "aaaaaa") (js "bbbbbb") 0%Z))
  /\ 10 < len (js "aaaaaa") + len (js "bbbbbb").
Proof. split; vm_compute; reflexivity. Qed.

(** The forced kill is never sent: when the 5 s timer fires, either
    SIGTERM was sent and [childProcess.killed] is set, or the process had
    already exited. *)
Lemma sigkill_is_never_delivered (lim : Limits) (spawned : bool)
  (events : list Event) :
  ~ In SIGKILL (delivered (childProcess (run lim (initial spawned) events))).
Proof. apply inv_sigkill, run_inv_signals, initial_inv_signals. Qed.

(** C7: a process that ignores SIGTERM and never exits.  The timeout fires,
    SIGTERM is sent and the promise is rejected; when the grace timer fires
    [childProcess.killed] is already set, so SIGKILL is not sent, and the
    process is still running. *)
Theorem timeout_does_not_escalate :
  exists call st,
    executeSandboxed (js "/repo") (js "node ignore-sigterm.js")
      (mkOptions None (Some 1000) None None) (Child true)
      [TimerFired; GraceFired]
    = Spawned call st
    /\ promise st = Some (Rejected (CommandTimeout 1000))
    /\ graceTimer st = false
    /\ delivered (childProcess st) = [SIGTERM]
    /\ running (childProcess st) = true.
Proof. eexists _, _; repeat split; vm_compute; reflexivity. Qed.

End SandboxClaims.

(** ** The confirmation of POST /create-pr *)

Section CreatePrClaims.

Import CreatePr.







(** The log entry of a request whose git operation failed carries the
    message of the error that was caught. *)
Lemma git_failure_is_logged (env : Env) (req : Request) (error : jsstring) :
  snd (post_create_pr env req) = GitFailed error ->
  exists gitError ran,
    error = js "Git operation failed: " ++ error_message gitError
    /\ fst (post_create_pr env req)
       = map Sandboxed ran
         ++ [AppendLog (mkLogEntry (js "/create-pr") (js "POST") req
                          (LogError (error_message gitError)))].
Proof.
  unfold post_create_pr, create_pr.
  destruct (isEmpty (branchName req) || isEmpty (commitMessage req));
    [discriminate|].
  destruct (negb (path_exists env)); [discriminate|].
  destruct (negb (git_dir_exists env)); [discriminate|].
  destruct (negb (dryRun env) && negb (is_true (confirm req)));
    [discriminate|].
  destruct (dryRun env || negb (is_true (confirm req))); [discriminate|].
  unfold execute_pr, logged_of; cbv zeta.
  fold (write_commands req (staged_changes env)).
  destruct (run_all env (write_commands req (staged_changes env)))
    as [ran [e|]]; cbn [fst snd]; [|discriminate].
  intros [= <-]; exists e, (STAGED_QUERY :: ran); split; reflexivity.
Qed.

(** [confirm] must be the boolean [true]: the string does not do. *)
Example create_pr_examples :
  let env dry := mkEnv dry true true 1700000000000
                   (fun _ => Normal (mkResult true (js "src/a.js") [] 0%Z)) in
  let req c := mkRequest (js "feature/x") (js "Fix bug") None c in
  proceeds (snd (create_pr (env false) (req (JBool true)))) = true
  /\ proceeds (snd (create_pr (env false) (req (JString (js "true"))))) = false
  /\ proceeds (snd (create_pr (env true) (req (JBool true)))) = false
  /\ fst (create_pr (env false) (req (JBool true)))
     = [js "git diff --cached --name-only"; js "git checkout -b feature/x";
        js "git add ."; js "git commit -m " ++ [34] ++ js "Fix bug" ++ [34];
        js "git push -u origin feature/x"]
  /\ snd (create_pr (env true) (req (JBool true)))
     = DryRun (mkPreview (js "feature/x") (js "Fix bug") [js "src/a.js"]
                 [js "Would create branch: feature/x";
                  js "Would commit with message: Fix bug";
                  js "Would push to remote (if configured)"]).
Proof. repeat split; vm_compute; reflexivity. Qed.

End CreatePrClaims.

(** ** The keychain store *)

Section KeychainClaims.

Import Keychain.

Lemma initial_well_formed (b : Backend) : well_formed (Keychain.initial b).
Proof. reflexivity. Qed.

Lemma loadKeytar_well_formed (st : Keychain.State) :
  well_formed st -> well_formed (fst (loadKeytar st)).
Proof.
  unfold well_formed, loadKeytar.
  destruct (keytar st) eqn:E; simpl; try rewrite E; auto.
  destruct (importable (backend st)) eqn:I; simpl; auto.
Qed.

(** Every operation of the module keeps the state well formed. *)
Lemma operations_well_formed (st : Keychain.State) (key : jsstring)
  (v1 v2 : option jsstring) :
  well_formed st ->
  well_formed (fst (storeApiKey key st))
  /\ well_formed (fst (getApiKey v1 v2 st))
  /\ well_formed (fst (deleteApiKey st)).
Proof.
  unfold well_formed; destruct st as [k a b c]; simpl; intros H.
  unfold storeApiKey, getApiKey, deleteApiKey, loadKeytar; simpl.
  destruct k; simpl.
  - subst a; destruct (importable b) eqn:Ei; simpl;
      destruct (isEmpty key); simpl; destruct (failure b); simpl; auto.
  - destruct H as [-> Hi]; destruct (isEmpty key); simpl; auto.
  - destruct H as [-> Hi]; destruct (isEmpty key); simpl;
      destruct (failure b); simpl; auto.
Qed.

(** C8, as amended: for a non-empty key, when the backend cannot be loaded
    (not installed, unsupported platform) [storeApiKey] returns [false]
    after logging the two warnings and stores nothing; when the backend is
    loaded and its call fails at run time, [storeApiKey] logs an error and
    throws "Keychain storage failed". *)
Theorem storeApiKey_degraded (key : jsstring) (st : Keychain.State) :
  well_formed st -> isEmpty key = false ->
  (importable (backend st) = false ->
   exists st',
     storeApiKey key st = (st', Normal false)
     /\ console st' = console st ++ NOT_AVAILABLE
     /\ backend st' = backend st)
  /\ (forall message,
        importable (backend st) = true ->
        failure (backend st) = Some message ->
        exists st',
          storeApiKey key st
          = (st', Throw (js "Keychain storage failed: " ++ message))
          /\ console st'
             = console st ++ [Error (js "Failed to store key in keychain:")]
          /\ backend st' = backend st).
Proof.
  intros Hwf Hkey; unfold storeApiKey; rewrite Hkey.
  unfold well_formed in Hwf; unfold loadKeytar.
  destruct st as [k a b c]; simpl in *.
  split.
  - intros Hi; destruct k; simpl.
    + rewrite Hi; simpl; eexists; repeat split.
    + destruct Hwf as [-> _]; simpl; eexists; repeat split.
    + destruct Hwf as [_ Hwf]; congruence.
  - intros message Hi Hf; destruct k; simpl.
    + rewrite Hi; simpl; rewrite Hf; eexists; repeat split.
    + destruct Hwf as [_ Hwf]; congruence.
    + destruct Hwf as [-> _]; simpl; rewrite Hf; eexists; repeat split.
Qed.

Lemma storeApiKey_degraded_witness :
  let st := Keychain.initial (mkBackend false None None) in
  exists st',
    storeApiKey (js "sk-test") st = (st', Normal false)
    /\ console st' = console st ++ NOT_AVAILABLE
    /\ backend st' = backend st.
Proof.
  intros st.
  apply (proj1 (storeApiKey_degraded (js "sk-test") st
                  (initial_well_formed _) eq_refl)).
  reflexivity.
Defined.

(** C8, as stated, fails: [keytar] is installed and loads, and its
    [setPassword] fails at run time (here: no secret service is running);
    [storeApiKey] throws. *)
Lemma storeApiKey_throws_on_runtime_error :
  let b := mkBackend true (Some (js "Cannot autolaunch D-Bus")) None in
  snd (storeApiKey (js "sk-test") (Keychain.initial b))
  = Throw (js "Keychain storage failed: Cannot autolaunch D-Bus").
Proof. vm_compute; reflexivity. Qed.

End KeychainClaims.

(* ================================================================== *)
(** * Part III: further properties                                     *)
(* ================================================================== *)

(** ** More on strings *)

Section MoreStringFacts.

Lemma trimStart_fixed (s : jsstring) :
  match s with [] => True | c :: _ => isWhiteSpace c = false end ->
  trimStart s = s.
Proof. destruct s as [|c r]; simpl; [reflexivity | intros ->; reflexivity]. Qed.

Lemma trimStart_head (s : jsstring) :
  match trimStart s with [] => True | c :: _ => isWhiteSpace c = false end.
Proof.
  induction s as [|c r IH]; simpl; [exact I|].
  destruct (isWhiteSpace c) eqn:E; [exact IH | exact E].
Qed.

Lemma trimEnd_head (s : jsstring) :
  match s with [] => True | c :: _ => isWhiteSpace c = false end ->
  match trimEnd s with [] => True | c :: _ => isWhiteSpace c = false end.
Proof.
  destruct s as [|c r]; simpl; [auto|]; intros H.
  destruct (trimEnd r); [rewrite H|]; exact H.
Qed.

Lemma trim_idem (s : jsstring) : trim (trim s) = trim s.
Proof.
  unfold trim.
  rewrite (trimStart_fixed (trimEnd (trimStart s))).
  - apply trimEnd_idem.
  - apply trimEnd_head, trimStart_head.
Qed.

Lemma trim_nil_inv (s : jsstring) : trim s <> [] -> s <> [].
Proof. intros H E; subst s; apply H; reflexivity. Qed.

Lemma metachar_spec (c : N) :
  metachar c = true <-> In c [PIPE; GT; LT; AMP].
Proof.
  unfold metachar; rewrite existsb_exists; split.
  - intros (x & Hx & E); apply N.eqb_eq in E; subst; exact Hx.
  - intros H; exists c; split; [exact H | apply N.eqb_refl].
Qed.

Lemma clean_spec (s : jsstring) :
  forallb (fun c => negb (metachar c)) s = true <->
  (forall c, In c [PIPE; GT; LT; AMP] -> ~ In c s).
Proof.
  rewrite forallb_forall; split.
  - intros H c Hc Hin; specialize (H c Hin).
    apply negb_true_iff in H; apply metachar_spec in Hc; congruence.
  - intros H c Hin; apply negb_true_iff.
    destruct (metachar c) eqn:E; [|reflexivity].
    apply metachar_spec in E; exfalso; exact (H c E Hin).
Qed.

Lemma unclean_spec (s : jsstring) :
  forallb (fun c => negb (metachar c)) s = false ->
  exists c, In c [PIPE; GT; LT; AMP] /\ In c s.
Proof.
  induction s as [|x s IH]; simpl; [discriminate|].
  destruct (metachar x) eqn:E; simpl.
  - intros _; exists x; split; [apply metachar_spec, E | left; reflexivity].
  - intros H; destruct (IH H) as (c & Hc & Hin); exists c; auto.
Qed.

Lemma clean_trim (s : jsstring) :
  forallb (fun c => negb (metachar c)) (trim s)
  = forallb (fun c => negb (metachar c)) s.
Proof.
  destruct (forallb _ s) eqn:E.
  - apply clean_spec; intros c Hc Hin; apply In_trim in Hin.
    revert c Hc Hin; apply clean_spec, E.
  - apply unclean_spec in E as (c & Hc & Hin).
    apply not_true_is_false; intros H.
    apply (proj1 (clean_spec _) H c Hc).
    apply trim_keeps; [apply meta_not_space, Hc | exact Hin].
Qed.

End MoreStringFacts.

(** ** More on the command validator *)

Section MoreCommandAllowlist.

Lemma cclass_eqb_eq (a b : cclass) : cclass_eqb a b = true -> a = b.
Proof.
  destruct a, b; simpl; try discriminate; try reflexivity.
  intros H; apply N.eqb_eq in H; congruence.
Qed.

Lemma regex_eqb_eq (a b : regex) : regex_eqb a b = true -> a = b.
Proof.
  revert b; induction a as [| |k|a1 IH1 a2 IH2|a1 IH1 a2 IH2|a IH];
    intros [| |k'|b1 b2|b1 b2|b]; simpl; try discriminate; try reflexivity.
  - intros H; apply cclass_eqb_eq in H; congruence.
  - intros H; apply andb_true_iff in H as [H1 H2].
    rewrite (IH1 _ H1), (IH2 _ H2); reflexivity.
  - intros H; apply andb_true_iff in H as [H1 H2].
    rewrite (IH1 _ H1), (IH2 _ H2); reflexivity.
  - intros H; rewrite (IH _ H); reflexivity.
Qed.

(** A command with a shell metacharacter. *)
Lemma validateCommand_unclean (command : jsstring) :
  forallb (fun c => negb (metachar c)) command = false ->
  validateCommand command =
  Normal (mkValidation false None
            (Some (js "Shell redirection/piping not allowed"))).
Proof.
  intros H; apply unclean_spec in H as (c & Hc & Hin).
  unfold validateCommand.
  destruct command as [|x command]; [destruct Hin|]; simpl isEmpty; cbv iota.
  rewrite (str_eqb_neq _ _ (strip_differs _ _ Hc Hin)); reflexivity.
Qed.

(** A command without one goes to [isCommandAllowed], trimmed. *)
Lemma validateCommand_clean (command : jsstring) :
  command <> [] ->
  forallb (fun c => negb (metachar c)) command = true ->
  validateCommand command =
  match isCommandAllowed (trim command) with
  | Throw e => Throw e
  | Normal false =>
      Normal (mkValidation false None (Some (js "Command not in allowlist")))
  | Normal true => Normal (mkValidation true (Some (trim command)) None)
  end.
Proof.
  intros Hne H; pose proof (proj1 (clean_spec _) H) as H'; unfold validateCommand.
  destruct command as [|x command]; [contradiction|]; simpl isEmpty; cbv iota.
  rewrite (strip_clean _ H'), str_eqb_refl; reflexivity.
Qed.

(** X1: what [validateCommand] allows is clean.  The sanitized command is
    the trimmed one; it is not empty, has no shell metacharacter, matches
    no dangerous pattern, and its first word is a key of the allowlist or
    names an inherited method without parameters. *)
Theorem allowed_command_is_clean (command : jsstring) (r : ValidationResult) :
  validateCommand command = Normal r -> allowed r = true ->
  sanitized r = Some (trim command)
  /\ reason r = None
  /\ trim command <> []
  /\ forallb (fun c => negb (metachar c)) command = true
  /\ undangerous (trim command) = true
  /\ ((exists items,
         assoc (hd [] (splitWs (trim command))) ALLOWED_COMMANDS = Some items)
      \/ assoc (hd [] (splitWs (trim command))) Object_prototype
         = Some (VFunction 0)).
Proof.
  intros Hv Ha.
  destruct (forallb (fun c => negb (metachar c)) command) eqn:Hc.
  2:{ rewrite (validateCommand_unclean _ Hc) in Hv.
      injection Hv as <-; discriminate. }
  destruct command as [|x command].
  { vm_compute in Hv; injection Hv as <-; discriminate. }
  rewrite validateCommand_clean in Hv by (auto; discriminate).
  set (cmd := x :: command) in *.
  destruct (isCommandAllowed (trim cmd)) as [[|]|e] eqn:Hic;
    [injection Hv as <- | injection Hv as <-; discriminate | discriminate].
  unfold isCommandAllowed in Hic.
  destruct (isEmpty (trim cmd)) eqn:He; [discriminate|].
  unfold undangerous.
  destruct (existsb _ DANGEROUS_PATTERNS) eqn:Hd; [discriminate|].
  rewrite trim_idem in Hic; unfold getProperty in Hic.
  assert (Hne : trim cmd <> []) by (intros E; rewrite E in He; discriminate).
  cbn [sanitized reason allowed negb]; repeat split; auto.
  destruct (assoc _ ALLOWED_COMMANDS) as [items|] eqn:Hown; [left; eauto|].
  right.
  destruct (assoc _ Object_prototype) as [[|items|arity|]|] eqn:Hp;
    try discriminate.
  - exfalso; revert Hp; generalize (hd [] (splitWs (trim cmd))); intros k.
    unfold Object_prototype; simpl.
    repeat (destruct (str_eqb k _); [discriminate|]); discriminate.
  - destruct (arity =? 0) eqn:E0; [|discriminate].
    apply N.eqb_eq in E0; subst arity; reflexivity.
Qed.

Lemma allowed_command_is_clean_witness :
  sanitized (mkValidation true (Some (js "git status")) None)
  = Some (trim (js "  git status "))
  /\ undangerous (trim (js "  git status ")) = true.
Proof.
  destruct (allowed_command_is_clean (js "  git status ")
              (mkValidation true (Some (js "git status")) None))
    as (H1 & _ & _ & _ & H5 & _);
    [vm_compute; reflexivity | reflexivity |].
  split; assumption.
Defined.

(** X2: white space around a command does not matter: unless it is
    nothing but white space, a command is validated exactly like its
    trimmed form.  So validating the sanitized command again, as
    [executeSandboxed] does, gives the same answer. *)
Theorem validateCommand_trim (command : jsstring) :
  trim command <> [] ->
  validateCommand (trim command) = validateCommand command.
Proof.
  intros Hne; pose proof (trim_nil_inv _ Hne) as Hc.
  destruct (forallb (fun c => negb (metachar c)) command) eqn:E.
  - rewrite (validateCommand_clean command), (validateCommand_clean (trim command));
      auto; [rewrite trim_idem; reflexivity | rewrite clean_trim; exact E].
  - rewrite (validateCommand_unclean command E).
    apply validateCommand_unclean; rewrite clean_trim; exact E.
Qed.

Lemma validateCommand_trim_witness :
  validateCommand (trim (js "  npm   test  "))
  = validateCommand (js "  npm   test  ").
Proof.
  apply (validateCommand_trim (js "  npm   test  ")).
  vm_compute; discriminate.
Defined.

End MoreCommandAllowlist.

(** *** The allowed-argument patterns are prefixes *)

Section ArgumentPatterns.

Lemma matches_star_ws_cons (c : N) (u : jsstring) :
  isWhiteSpace c = true -> matches (Star ws) u -> matches (Star ws) (c :: u).
Proof.
  intros Hc Hu; change (c :: u) with ([c] ++ u).
  constructor; [constructor; exact Hc | exact Hu].
Qed.

Lemma argRegex_matches_itself (s : jsstring) :
  matches (argRegex_go false s) s
  /\ matches (Cat (Star ws) (argRegex_go true s)) s.
Proof.
  induction s as [|c r [IHf IHt]]; simpl.
  - split; [constructor|].
    change (@nil N) with (@nil N ++ []); constructor; constructor.
  - destruct (isWhiteSpace c) eqn:Hc.
    + apply matches_Cat_inv in IHt as (u & v & -> & Hu & Hv); split.
      * change (c :: u ++ v) with ((c :: u) ++ v); constructor; [|exact Hv].
        change (c :: u) with ([c] ++ u).
        constructor; [constructor; exact Hc | exact Hu].
      * change (c :: u ++ v) with ((c :: u) ++ v); constructor; [|exact Hv].
        apply matches_star_ws_cons; assumption.
    + assert (Hm : matches (Cat (Cls (if c =? 46 then CDot else CChar c))
                              (argRegex_go false r)) (c :: r)).
      { change (c :: r) with ([c] ++ r); constructor; [|exact IHf].
        constructor; destruct (c =? 46) eqn:E; simpl.
        - apply N.eqb_eq in E; subst c; reflexivity.
        - apply N.eqb_refl. }
      split; [exact Hm|].
      change (c :: r) with ([] ++ c :: r); constructor; [constructor | exact Hm].
Qed.

(** X3: the pattern built from an allowed-argument string accepts that
    string followed by anything.  The allowed arguments are therefore
    prefixes, and the exact comparison before the pattern test never
    decides. *)
Theorem argPattern_accepts_extensions (allowedArg rest : jsstring) :
  test (argPattern allowedArg) (allowedArg ++ rest) = true.
Proof.
  apply test_spec; exists [], allowedArg, rest; simpl; repeat split.
  - apply argRegex_matches_itself.
  - discriminate.
Qed.

End ArgumentPatterns.

(** *** Commands of the form: base, a space, arguments *)

Section BaseAndArguments.

Lemma isCommandAllowed_decide (command : jsstring) :
  command <> [] -> undangerous command = true ->
  isCommandAllowed command
  = decide (hd [] (splitWs (trim command)))
           (join_space (tl (splitWs (trim command)))).
Proof.
  intros Hne Hu; unfold isCommandAllowed, decide, undangerous in *.
  destruct command; [contradiction|]; simpl isEmpty; cbv iota.
  apply negb_true_iff in Hu; rewrite Hu; reflexivity.
Qed.

Lemma undangerous_prefix (u w : jsstring) :
  forallb (fun c => negb (metachar c)) (u ++ w) = true ->
  undangerous (u ++ w) = true -> undangerous u = true.
Proof.
  unfold undangerous; intros Hc Hu; apply negb_true_iff in Hu.
  apply negb_true_iff, not_true_is_false; intros H.
  apply existsb_exists in H as (p & Hp & Ht).
  destruct (anchorEnd p) eqn:Ea.
  - apply (proj1 (clean_spec _) Hc PIPE); [left; reflexivity|].
    apply in_or_app; left.
    apply (anchored_patterns_need_pipe p); assumption.
  - assert (existsb (fun p => test p (u ++ w)) DANGEROUS_PATTERNS = true).
    { apply existsb_exists; exists p; split; [exact Hp|].
      apply test_extend; assumption. }
    congruence.
Qed.

Lemma undangerous_after_base (base s : jsstring) :
  unstraddled base = true -> undangerous s = true ->
  undangerous (base ++ 32 :: s) = true.
Proof.
  unfold unstraddled, undangerous; intros Hb Hs.
  apply negb_true_iff in Hs; apply negb_true_iff, not_true_is_false; intros H.
  apply existsb_exists in H as (p & Hp & Ht).
  rewrite forallb_forall in Hb; specialize (Hb p Hp).
  apply regex_eqb_eq in Hb.
  unfold test, accepts in Ht.
  replace (base ++ 32 :: s) with ((base ++ [32]) ++ s) in Ht
    by (rewrite <- app_assoc; reflexivity).
  rewrite derivs_app, Hb in Ht.
  assert (existsb (fun p => test p s) DANGEROUS_PATTERNS = true)
    by (apply existsb_exists; exists p; auto).
  congruence.
Qed.

Lemma plain_clean (base : jsstring) :
  forallb plain base = true ->
  forallb (fun c => negb (metachar c)) base = true.
Proof.
  intros H; apply forallb_forall; intros c Hc.
  rewrite forallb_forall in H; specialize (H c Hc).
  apply andb_true_iff in H as [_ H]; exact H.
Qed.

(** A plain base command followed by harmless arguments is decided by the
    allowlist alone. *)
Lemma validateCommand_base (base s : jsstring) :
  base <> [] -> forallb plain base = true -> unstraddled base = true ->
  harmless s = true ->
  validateCommand (base ++ 32 :: s)
  = verdict (decide base
               (join_space (tl (splitWs (base ++ trimEnd (32 :: s))))))
            (trim (base ++ 32 :: s)).
Proof.
  intros Hne Hplain Hstr Hs; apply andb_true_iff in Hs as [Hcs Hus].
  set (command := base ++ 32 :: s).
  assert (Hclean : forallb (fun c => negb (metachar c)) command = true).
  { unfold command; rewrite forallb_app; simpl.
    rewrite (plain_clean _ Hplain), Hcs; reflexivity. }
  assert (Htrim : trim command = base ++ trimEnd (32 :: s))
    by (apply trim_plain_app; assumption).
  rewrite validateCommand_clean;
    [|unfold command; destruct base; [contradiction|discriminate]|exact Hclean].
  destruct (trimEnd_prefix (32 :: s)) as [w Hw].
  assert (Hcmd : command = trim command ++ w).
  { rewrite Htrim, <- app_assoc, <- Hw; reflexivity. }
  rewrite isCommandAllowed_decide.
  - rewrite trim_idem, Htrim.
    replace (hd [] (splitWs (base ++ trimEnd (32 :: s)))) with base;
      [reflexivity|].
    unfold splitWs; rewrite splitWs_go_plain; auto using trimEnd_space_shape.
  - rewrite Htrim; destruct base; [contradiction|discriminate].
  - apply (undangerous_prefix _ w); rewrite <- Hcmd; [exact Hclean|].
    apply undangerous_after_base; assumption.
Qed.

(** X4: the allowlist is a plain object, so a name inherited from
    [Object.prototype] is found too.  [toString], [valueOf] and
    [toLocaleString], methods without parameters, are allowed with any
    harmless arguments; for the other inherited names the validator
    throws a TypeError instead of answering. *)
Theorem inherited_names_are_looked_up (base s : jsstring) (v : value) :
  In (base, v) Object_prototype -> harmless s = true ->
  validateCommand (base ++ js " " ++ s)
  = match v with
    | VFunction 0 => ALLOWED (trim (base ++ js " " ++ s))
    | _ => Throw some_is_not_a_function
    end.
Proof.
  intros Hin Hs; change (js " " ++ s) with (32 :: s).
  unfold Object_prototype in Hin; simpl in Hin.
  repeat (destruct Hin as [Hin|Hin];
          [ injection Hin as <- <-;
            rewrite validateCommand_base;
            [ reflexivity | discriminate | reflexivity
            | vm_compute; reflexivity | exact Hs ]
          | ]).
  destruct Hin.
Qed.

Lemma inherited_names_are_looked_up_witness :
  validateCommand (js "valueOf" ++ js " " ++ js "--help")
  = ALLOWED (trim (js "valueOf" ++ js " " ++ js "--help"))
  /\ validateCommand (js "hasOwnProperty" ++ js " " ++ js "x")
     = Throw some_is_not_a_function.
Proof.
  split.
  - apply (inherited_names_are_looked_up (js "valueOf") (js "--help")
             (VFunction 0)); vm_compute; tauto.
  - apply (inherited_names_are_looked_up (js "hasOwnProperty") (js "x")
             (VFunction 1)); vm_compute; tauto.
Defined.

End BaseAndArguments.

(** *** Anything may follow an allowed argument *)

Section AllowedPrefixes.

Lemma splitWs_go_not_nil (inSep : bool) (cur s : jsstring) :
  splitWs_go inSep cur s <> [].
Proof.
  revert inSep cur; induction s as [|c r IH]; intros inSep cur; simpl.
  - discriminate.
  - destruct (isWhiteSpace c); [destruct inSep|]; auto; discriminate.
Qed.

Lemma join_space_cons (p : jsstring) (l : list jsstring) :
  l <> [] -> join_space (p :: l) = p ++ 32 :: join_space l.
Proof. destruct l; [contradiction | reflexivity]. Qed.

Lemma join_split_head (t : jsstring) (inSep : bool) (cur : jsstring) :
  (inSep = true -> cur = []) ->
  exists rest, join_space (splitWs_go inSep cur t) = cur ++ rest.
Proof.
  revert inSep cur; induction t as [|c r IH]; intros inSep cur Hs; simpl.
  - exists []; rewrite app_nil_r; reflexivity.
  - destruct (isWhiteSpace c).
    + destruct inSep.
      * apply IH; exact Hs.
      * rewrite join_space_cons by apply splitWs_go_not_nil; eauto.
    + destruct (IH false (cur ++ [c])) as [rest Hr]; [discriminate|].
      exists (c :: rest); rewrite Hr, <- app_assoc; reflexivity.
Qed.

Lemma join_split_single_spaced (a t : jsstring) (inSep : bool)
  (cur : jsstring) :
  single_spaced_go inSep a = true -> (inSep = true -> cur = []) ->
  exists rest, join_space (splitWs_go inSep cur (a ++ t)) = cur ++ a ++ rest.
Proof.
  revert inSep cur; induction a as [|c r IH]; intros inSep cur Ha Hs.
  - simpl in Ha; apply negb_true_iff in Ha; subst inSep.
    apply join_split_head; discriminate.
  - simpl in Ha |- *; destruct (isWhiteSpace c).
    + apply andb_true_iff in Ha as [Ha Hr]; apply andb_true_iff in Ha as [Hc Hi].
      apply N.eqb_eq in Hc; subst c.
      apply negb_true_iff in Hi; subst inSep.
      destruct (IH true [] Hr (fun _ => eq_refl)) as [rest Hrest].
      rewrite join_space_cons by apply splitWs_go_not_nil.
      rewrite Hrest; exists rest; reflexivity.
    + destruct (IH false (cur ++ [c]) Ha) as [rest Hrest]; [discriminate|].
      exists rest; rewrite Hrest, <- app_assoc; reflexivity.
Qed.

Lemma single_spaced_not_nil (a : jsstring) : single_spaced a = true -> a <> [].
Proof. intros H E; subst a; discriminate. Qed.

Lemma trimEnd_single_spaced (a t : jsstring) (inSep : bool) :
  single_spaced_go inSep a = true ->
  exists t', trimEnd (a ++ t) = a ++ t'.
Proof.
  revert inSep; induction a as [|c r IH]; intros inSep Ha.
  - exists (trimEnd t); reflexivity.
  - simpl in Ha |- *.
    destruct (isWhiteSpace c) eqn:Hc.
    + apply andb_true_iff in Ha as [_ Hr].
      destruct (IH true Hr) as [t' Ht']; rewrite Ht'.
      destruct r as [|d r]; [discriminate|].
      exists t'; reflexivity.
    + destruct (IH false Ha) as [t' Ht']; rewrite Ht'.
      exists t'; destruct (r ++ t'); reflexivity.
Qed.

Lemma splitWs_go_plain_sep (base z cur : jsstring) (c : N) :
  forallb plain base = true -> isWhiteSpace c = true ->
  splitWs_go false cur (base ++ c :: z)
  = (cur ++ base) :: splitWs_go true [] z.
Proof.
  revert cur; induction base as [|b base IH]; intros cur H Hc; simpl.
  - rewrite Hc, app_nil_r; reflexivity.
  - simpl in H; apply andb_true_iff in H as [Hb H].
    apply andb_true_iff in Hb as [Hb _]; apply negb_true_iff in Hb.
    rewrite Hb, IH, <- app_assoc; auto.
Qed.

Lemma prefix_allowed (base a t : jsstring) (allowedArgs : list jsstring) :
  base <> [] -> forallb plain base = true -> unstraddled base = true ->
  getProperty base = VArray allowedArgs ->
  forallb single_spaced allowedArgs = true ->
  In a allowedArgs -> harmless (a ++ t) = true ->
  validateCommand (base ++ 32 :: a ++ t)
  = ALLOWED (trim (base ++ 32 :: a ++ t)).
Proof.
  intros Hne Hplain Hstr Hprop Hall Hin Hs.
  rewrite validateCommand_base by assumption.
  rewrite forallb_forall in Hall; specialize (Hall a Hin).
  destruct (trimEnd_single_spaced a t true Hall) as [t' Ht'].
  replace (trimEnd (32 :: a ++ t)) with (32 :: a ++ t').
  2:{ simpl; rewrite Ht'.
      pose proof (single_spaced_not_nil a Hall).
      destruct a; [contradiction | reflexivity]. }
  unfold splitWs; rewrite splitWs_go_plain_sep by auto.
  cbn [tl app].
  destruct (join_split_single_spaced a t' true [] Hall (fun _ => eq_refl))
    as [rest Hr].
  rewrite Hr; cbn [app].
  unfold decide; rewrite Hprop.
  destruct allowedArgs as [|x l]; [destruct Hin|].
  replace (existsb _ (x :: l)) with true; [reflexivity|].
  symmetry; apply existsb_exists; exists a; split; [exact Hin|].
  rewrite argPattern_accepts_extensions; apply orb_true_r.
Qed.

(** X5: every allowlist entry with arguments accepts each of its allowed
    arguments followed by anything harmless: [git show], [git commit -m],
    [git push -u origin], [npm test] and the others are prefixes after
    which any text is allowed, with or without a space before it. *)
Theorem allowed_arguments_are_prefixes (base a t : jsstring)
  (allowedArgs : list jsstring) :
  In (base, allowedArgs) ALLOWED_COMMANDS -> In a allowedArgs ->
  harmless (a ++ t) = true ->
  validateCommand (base ++ js " " ++ a ++ t)
  = ALLOWED (trim (base ++ js " " ++ a ++ t)).
Proof.
  intros Hb Ha Hs; change (js " " ++ a ++ t) with (32 :: a ++ t).
  unfold ALLOWED_COMMANDS in Hb; simpl in Hb.
  repeat (destruct Hb as [Hb|Hb];
          [ injection Hb as Hb1 Hb2; subst base allowedArgs;
            eapply (prefix_allowed _ a t);
            [ discriminate | reflexivity | vm_compute; reflexivity
            | reflexivity | reflexivity | exact Ha | exact Hs ]
          | ]).
  destruct Hb.
Qed.

Lemma allowed_arguments_are_prefixes_witness :
  validateCommand (js "git" ++ js " " ++ js "push -u origin" ++ js "al --force")
  = ALLOWED (trim (js "git" ++ js " " ++ js "push -u origin"
                     ++ js "al --force")).
Proof.
  apply (allowed_arguments_are_prefixes (js "git") (js "push -u origin")
           (js "al --force")
           [js "status"; js "diff"; js "log"; js "ls-files";
            js "diff --cached --name-only"; js "checkout -b"; js "add .";
            js "commit -m"; js "push -u origin"; js "branch";
            js "remote -v"; js "show"]).
  - vm_compute; tauto.
  - vm_compute; tauto.
  - vm_compute; reflexivity.
Defined.

End AllowedPrefixes.

(** ** More on the sandbox *)

Section MoreSandbox.

Variable lim : Limits.
Variable spawned : bool.

Ltac break_state st :=
  destruct st as [so se k t g [rn ck d] p]; simpl in *.

Ltac handlers :=
  unfold step, onTimeout, onGrace, onStdout, onStderr, onExit, onError,
    settle, set_killed, clearTimeout, send, schedule_grace, grace_done,
    append_out, append_err, exited, kill; simpl.

Lemma initial_inv2 : Inv2 lim spawned (initial spawned).
Proof.
  constructor; simpl; auto; try discriminate; try congruence.
  intros _; repeat split; apply N.le_0_l.
Qed.

Lemma step_inv2 (st : State) (ev : Event) :
  Inv st -> InvSignals st -> Inv2 lim spawned st ->
  Inv2 lim spawned (step lim st ev).
Proof.
  intros Hi Hsig H2.
  destruct (promise st) as [o|] eqn:Hp.
  - (* settled: the outcome and the signals stay *)
    pose proof (step_settled lim st ev o Hp) as Hs.
    assert (Hq : delivered (childProcess (step lim st ev))
                 = delivered (childProcess st))
      by (apply step_quiet; [exact Hi | exact Hsig | congruence]).
    assert (Hk : killed st = true -> killed (step lim st ev) = true).
    { clear; break_state st; intros ->.
      destruct ev as [| |data|data|code signal|message]; handlers;
        repeat match goal with
               | |- context [if ?b then _ else _] => destruct b; simpl
               | |- context [match ?b with Some _ => _ | None => _ end] =>
                   destruct b; simpl
               end; reflexivity. }
    destruct H2 as [Ha Hb Hc Hd He]; constructor; rewrite ?Hq, ?Hs.
    + exact Ha.
    + intros H; apply Hk, Hb, H.
    + discriminate.
    + intros r E; apply (Hd r); congruence.
    + intros e E; apply (He e); congruence.
  - (* pending *)
    destruct Hi as [Hk Ht Hsd]; destruct Hsig as [Hg Hn];
      destruct H2 as [Ha Hb Hc Hd He].
    specialize (Hc Hp) as (Hr & Ho & Her).
    break_state st; subst p.
    assert (k = false) as -> by (destruct k; [exfalso; apply Hk|]; auto).
    assert (d = []) as ->.
    { destruct d; [reflexivity|].
      assert (false = true) by (apply Hb; discriminate); discriminate. }
    clear Hk Hb Ha Hd He Hsd Hn.
    destruct ev as [| |data|data|code signal|message]; handlers.
    + destruct t; [|constructor; simpl; auto; discriminate].
      destruct rn; constructor; simpl; auto; try discriminate;
        try congruence.
    + destruct g; [|constructor; simpl; auto; discriminate].
      destruct ck; simpl; [constructor; simpl; auto; discriminate|].
      destruct rn; [|constructor; simpl; auto; discriminate].
      destruct Hg as [Hg|Hg]; auto; discriminate.
    + destruct (maxBuffer lim <? len (so ++ data)) eqn:E.
      * destruct rn; constructor; simpl; auto; try discriminate;
          try congruence.
      * apply N.ltb_ge in E.
        constructor; simpl; auto; discriminate.
    + destruct (maxBuffer lim <? len (se ++ data)) eqn:E.
      * destruct rn; constructor; simpl; auto; try discriminate;
          try congruence.
      * apply N.ltb_ge in E.
        constructor; simpl; auto; discriminate.
    + constructor; simpl; auto; discriminate.
    + constructor; simpl; auto; try discriminate.
      intros e [= <-] _; discriminate.
Qed.

Lemma run_inv2 (st : State) (events : list Event) :
  Inv st -> InvSignals st -> Inv2 lim spawned st ->
  Inv2 lim spawned (run lim st events).
Proof.
  revert st; induction events as [|ev events IH]; intros st Hi Hsig H2; simpl;
    auto.
  apply IH; [apply step_inv | apply step_inv_signals | apply step_inv2];
    assumption.
Qed.

Lemma out_accumulates (st : State) (events : list Event) :
  out (run lim st events) = out st ++ chunks_out events
  /\ err (run lim st events) = err st ++ chunks_err events.
Proof.
  revert st; induction events as [|ev events IH]; intros st; simpl.
  - rewrite !app_nil_r; auto.
  - destruct (IH (step lim st ev)) as [-> ->].
    rewrite !app_assoc.
    assert (H : out (step lim st ev)
                = out st ++ match ev with StdoutData d => d | _ => [] end
                /\ err (step lim st ev)
                   = err st ++ match ev with StderrData d => d | _ => [] end).
    { break_state st.
      destruct ev as [| |data|data|code signal|message]; handlers;
        repeat match goal with
               | |- context [if ?b then _ else _] => destruct b; simpl
               | |- context [match ?b with Some _ => _ | None => _ end] =>
                   destruct b; simpl
               end; rewrite ?app_nil_r; auto. }
    destruct H as [-> ->]; auto.
Qed.

End MoreSandbox.

Section MoreSandboxClaims.

(** X6: an invocation signals its process at most once, and only with
    SIGTERM.  When the promise is resolved no signal was sent at all; when
    a spawned process is rejected by the timeout or by an output limit,
    exactly one SIGTERM was sent. *)
Theorem at_most_one_sigterm (lim : Limits) (spawned : bool)
  (events : list Event) :
  let st := run lim (initial spawned) events in
  (delivered (childProcess st) = [] \/ delivered (childProcess st) = [SIGTERM])
  /\ (forall r, promise st = Some (Resolved r) ->
                delivered (childProcess st) = [])
  /\ (spawned = true ->
      forall e, promise st = Some (Rejected e) -> is_process_error e = false ->
                delivered (childProcess st) = [SIGTERM]).
Proof.
  intros st.
  destruct (run_inv2 lim spawned _ events (initial_inv spawned)
              (initial_inv_signals spawned) (initial_inv2 lim spawned))
    as [Ha _ _ Hd He].
  repeat split; auto.
  intros Hs e; specialize (He e); auto.
Qed.

Lemma substring0_all (n : N) (s : jsstring) :
  len s <= n -> substring0 n s = s.
Proof.
  unfold len, substring0; intros H; apply firstn_all2; lia.
Qed.

(** X7: a result is never truncated.  When the promise is resolved, the
    exit of the process did it, and the result carries everything written
    to [stdout] and to [stderr] before that exit: had a stream been over
    the limit the promise would have been rejected before. *)
Theorem result_is_complete (lim : Limits) (spawned : bool)
  (events : list Event) (r : Result) :
  promise (run lim (initial spawned) events) = Some (Resolved r) ->
  exists pre code signal post,
    events = pre ++ Exit code signal :: post
    /\ stdout r = chunks_out pre
    /\ stderr r = chunks_err pre
    /\ success r = is_zero code
    /\ exitCode r = exit_code code signal.
Proof.
  intros Hr.
  destruct (first_settle lim (initial spawned) events _ eq_refl Hr)
    as (pre & ev & post & -> & Hpre & Hstep).
  pose proof (step_produced lim _ _ _ Hpre Hstep) as Hby.
  destruct ev as [| |data|data|code signal|message]; simpl in Hby;
    try contradiction.
  exists pre, code, signal, post.
  pose proof (run_inv lim _ pre (initial_inv spawned)) as Hi.
  pose proof (run_inv2 lim spawned _ pre (initial_inv spawned)
                (initial_inv_signals spawned) (initial_inv2 lim spawned))
    as H2.
  destruct (inv_pending _ _ _ H2 Hpre) as (_ & Ho & He).
  destruct (out_accumulates lim (initial spawned) pre) as [Eo Ee].
  simpl in Eo, Ee.
  assert (Hk : killed (run lim (initial spawned) pre) = false).
  { destruct (killed _) eqn:E; [|reflexivity].
    exfalso; apply (inv_killed _ Hi); [exact E | exact Hpre]. }
  revert Hstep; unfold step, onExit, exited, clearTimeout, settle; simpl.
  rewrite Hk, Hpre; intros [= <-]; simpl.
  rewrite !substring0_all, Eo, Ee by assumption.
  repeat split; reflexivity.
Qed.

Lemma result_is_complete_witness :
  exists pre code signal post,
    [StdoutData (js "ok"); StderrData (js "warn"); Exit (Some 0%Z) None;
     StdoutData (js "late")]
    = pre ++ Exit code signal :: post
    /\ stdout (mkResult true (js "ok") (js "warn") 0%Z) = chunks_out pre
    /\ stderr (mkResult true (js "ok") (js "warn") 0%Z) = chunks_err pre
    /\ success (mkResult true (js "ok") (js "warn") 0%Z) = is_zero code
    /\ exitCode (mkResult true (js "ok") (js "warn") 0%Z)
       = exit_code code signal.
Proof.
  apply (result_is_complete (limits (js "/repo") noOptions) true).
  vm_compute; reflexivity.
Defined.

End MoreSandboxClaims.

(** *** The words handed to [spawn] *)

Section SpawnWords.

Lemma splitWs_go_words (s : jsstring) (inSep : bool) (cur : jsstring) :
  trimEnd s = s ->
  (cur <> [] \/ (inSep = true /\ s <> [])
   \/ exists c r, s = c :: r /\ isWhiteSpace c = false) ->
  Forall (fun w => w <> []) (splitWs_go inSep cur s).
Proof.
  revert inSep cur; induction s as [|c r IH]; intros inSep cur Ht Hc.
  - simpl; constructor; [|constructor].
    destruct Hc as [H|[[_ H]|(c & r & H & _)]];
      [exact H | contradiction | discriminate].
  - assert (Hr : trimEnd r = r).
    { simpl in Ht; destruct (trimEnd r) as [|x u] eqn:E.
      - destruct (isWhiteSpace c); [discriminate|].
        injection Ht as <-; reflexivity.
      - injection Ht as <-; reflexivity. }
    simpl; destruct (isWhiteSpace c) eqn:Hw.
    + assert (Hne : r <> []).
      { intros ->; simpl in Ht; rewrite Hw in Ht; discriminate. }
      destruct inSep.
      * apply IH; auto.
      * constructor; [|apply IH; auto].
        destruct Hc as [H|[[H _]|(c' & r' & [= <- <-] & H)]];
          [exact H | discriminate | congruence].
    + apply IH; [exact Hr|].
      left; destruct cur; discriminate.
Qed.

Lemma splitWs_go_chars (s : jsstring) (inSep : bool) (cur w : jsstring)
  (x : N) :
  In w (splitWs_go inSep cur s) -> In x w ->
  (In x cur \/ In x s)
  /\ ((forall y, In y cur -> isWhiteSpace y = false) ->
      isWhiteSpace x = false).
Proof.
  revert inSep cur; induction s as [|c r IH]; intros inSep cur Hw Hx.
  - simpl in Hw; destruct Hw as [<-|[]]; auto.
  - simpl in Hw; destruct (isWhiteSpace c) eqn:Hc.
    + destruct inSep.
      * destruct (IH _ _ Hw Hx) as [[H|H] H']; simpl; auto.
      * destruct Hw as [<-|Hw]; [simpl; auto|].
        destruct (IH _ _ Hw Hx) as [[[]|H] H']; split; simpl; auto.
        intros _; apply H'; intros y [].
    + destruct (IH _ _ Hw Hx) as [[H|H] H']; split; simpl; auto.
      * apply in_app_or in H as [H|[<-|[]]]; auto.
      * intros Hcur; apply H'; intros y Hy.
        apply in_app_or in Hy as [Hy|[<-|[]]]; auto.
      * intros Hcur; apply H'; intros y Hy.
        apply in_app_or in Hy as [Hy|[<-|[]]]; auto.
Qed.

Lemma validateCommand_allowed_inv (command : jsstring)
  (v : ValidationResult) :
  validateCommand command = Normal v -> allowed v = true ->
  sanitized v = Some (trim command) /\ trim command <> []
  /\ forallb (fun c => negb (metachar c)) command = true.
Proof.
  intros Hv Ha.
  destruct (forallb (fun c => negb (metachar c)) command) eqn:Hc.
  2:{ rewrite (validateCommand_unclean _ Hc) in Hv.
      injection Hv as <-; discriminate. }
  destruct command as [|x command].
  { vm_compute in Hv; injection Hv as <-; discriminate. }
  rewrite validateCommand_clean in Hv by (auto; discriminate).
  set (cmd := x :: command) in *.
  destruct (isCommandAllowed (trim cmd)) as [[|]|e] eqn:Hic;
    [injection Hv as <- | injection Hv as <-; discriminate | discriminate].
  repeat split; auto.
  intros E; rewrite E in Hic; discriminate.
Qed.

(** X8: what [executeSandboxed] hands to [spawn] are the words of the
    trimmed command, split at white space: none is empty, and none
    contains white space or a shell metacharacter.  Quotes are not
    interpreted: a quoted argument with a space in it arrives as two
    words. *)
Theorem spawn_receives_the_words (process_cwd command : jsstring)
  (options : Options) (spawn : Spawn) (events : list Event)
  (call : SpawnCall) (st : State) :
  executeSandboxed process_cwd command options spawn events
  = Spawned call st ->
  cmd call :: args call = splitWs (trim command)
  /\ forall w, In w (cmd call :: args call) ->
       w <> []
       /\ forall c, In c w -> isWhiteSpace c = false /\ metachar c = false.
Proof.
  unfold executeSandboxed.
  destruct (validateCommand command) as [v|e] eqn:Hv; [|discriminate].
  destruct (allowed v) eqn:Ha; simpl negb; cbv iota; [|discriminate].
  destruct (validateCommand_allowed_inv _ _ Hv Ha) as (Hs & Hne & Hc).
  rewrite Hs; simpl orDefault.
  replace (truthy_string (Some (trim command))) with true
    by (destruct (trim command); [contradiction | reflexivity]).
  intros [= <- _]; simpl cmd; simpl args.
  assert (Hparts : hd [] (splitWs (trim command)) :: tl (splitWs (trim command))
                   = splitWs (trim command)).
  { pose proof (splitWs_go_not_nil false [] (trim command)) as Hn.
    fold (splitWs (trim command)) in Hn.
    destruct (splitWs (trim command)); [contradiction | reflexivity]. }
  split; [exact Hparts|]; intros w Hw0.
  assert (Hw : In w (splitWs (trim command)))
    by (rewrite <- Hparts; exact Hw0).
  clear Hw0; split.
  - revert w Hw; apply Forall_forall.
    apply splitWs_go_words.
    + apply trimEnd_idem.
    + right; right.
      pose proof (trimStart_head command) as Hh.
      apply trimEnd_head in Hh; fold (trim command) in Hh.
      destruct (trim command) as [|c r]; [contradiction|]; eauto.
  - intros c Hin.
    destruct (splitWs_go_chars _ _ _ _ _ Hw Hin) as [[[]|H] H'].
    split; [apply H'; intros y []|].
    apply In_trim in H.
    rewrite forallb_forall in Hc; apply negb_true_iff, Hc, H.
Qed.

Lemma spawn_receives_the_words_witness :
  js "git" :: [js "commit"; js "-m"; 34 :: js "Fix"; js "bug" ++ [34]]
  = splitWs (trim (js "git commit -m " ++ [34] ++ js "Fix bug" ++ [34])).
Proof.
  apply (spawn_receives_the_words (js "/repo")
           (js "git commit -m " ++ [34] ++ js "Fix bug" ++ [34])
           noOptions (Child true) []
           (mkSpawn (js "git")
              [js "commit"; js "-m"; 34 :: js "Fix"; js "bug" ++ [34]]
              (js "/repo") 512)
           (initial true)).
  vm_compute; reflexivity.
Defined.

End SpawnWords.

(** ** More on POST /create-pr *)

Section MoreCreatePr.

Import CreatePr CreatePrMore.

Lemma realised_rejects (env : Env) (command : jsstring) :
  realised env ->
  forallb (fun c => negb (metachar c)) command = false ->
  sandbox env command
  = Throw (CommandNotAllowed (js "Shell redirection/piping not allowed")).
Proof.
  intros Hr Hc; destruct (Hr command) as (cwd0 & o & sp & evs & H).
  unfold executeSandboxed in H.
  rewrite (validateCommand_unclean _ Hc) in H; simpl in H.
  destruct (sandbox env command); simpl in H; congruence.
Qed.

Lemma quiet_sandbox_realised (d : bool) (n : N) :
  realised (mkEnv d true true n quiet_sandbox).
Proof.
  intros command.
  exists (js "/repo"), noOptions, (Child true), [Exit (Some 0%Z) None].
  unfold quiet_sandbox; simpl sandbox.
  destruct (outcome _) as [[r|e]|] eqn:E; try reflexivity.
  exfalso; revert E; unfold executeSandboxed.
  destruct (validateCommand command) as [v|e]; [|discriminate].
  destruct (negb (allowed v)); discriminate.
Qed.

Lemma escape_quotes_keeps (c : N) (s : jsstring) :
  c <> 34 -> In c s -> In c (escape_quotes s).
Proof.
  intros Hc Hin; unfold escape_quotes; apply in_flat_map.
  exists c; split; [exact Hin|].
  destruct (c =? 34) eqn:E; [apply N.eqb_eq in E; contradiction|].
  left; reflexivity.
Qed.

Lemma run_all_app_ok (env : Env) (ok : list jsstring) (c : jsstring)
  (e : SandboxError) :
  sandbox env c = Throw e ->
  (forall x, In x ok -> exists r, sandbox env x = Normal r) ->
  run_all env (ok ++ [c]) = (ok ++ [c], Some e).
Proof.
  intros Hc Hok; induction ok as [|x ok IH]; simpl.
  - rewrite Hc; reflexivity.
  - destruct (Hok x (or_introl eq_refl)) as [r ->].
    rewrite IH; [reflexivity|]; intros y Hy; apply Hok; right; exact Hy.
Qed.

(** X9: a commit message with [|], [>], [<] or [&] in it cannot be
    committed, and the failure comes late.  With dry-run off and
    [confirm: true], the handler creates the branch (and stages the
    files), then the validator rejects the commit command, and the answer
    is the error 500 while the new branch stays. *)
Theorem commit_message_with_metacharacter (env : Env) (req : Request)
  (c : N) :
  realised env ->
  isEmpty (branchName req) = false ->
  path_exists env = true -> git_dir_exists env = true ->
  dryRun env = false -> confirm req = JBool true ->
  (exists r, sandbox env (checkout_command req) = Normal r) ->
  (exists r, sandbox env (js "git add .") = Normal r) ->
  In c [PIPE; GT; LT; AMP] -> In c (commitMessage req) ->
  create_pr env req
  = (STAGED_QUERY :: checkout_command req
       :: (if isEmpty (staged_changes env) then [] else [js "git add ."])
       ++ [commit_command (commitMessage req)],
     GitFailed (js "Git operation failed: Command not allowed: Shell redirection/piping not allowed")).
Proof.
  intros Hr Hb Hp Hg Hd Hconf Hco Hadd Hc Hin.
  assert (Hm : isEmpty (commitMessage req) = false)
    by (destruct (commitMessage req); [destruct Hin | reflexivity]).
  assert (Hrej : sandbox env (commit_command (commitMessage req))
                 = Throw (CommandNotAllowed
                            (js "Shell redirection/piping not allowed"))).
  { apply realised_rejects; [exact Hr|].
    apply not_true_is_false; intros H.
    apply (proj1 (clean_spec _) H c Hc).
    unfold commit_command; apply in_or_app; right.
    cbn [app]; right.
    apply in_or_app; left; apply escape_quotes_keeps; [|exact Hin].
    destruct Hc as [<-|[<-|[<-|[<-|[]]]]]; discriminate. }
  unfold create_pr; rewrite Hb, Hm, Hp, Hg, Hd, Hconf; simpl orb; simpl negb.
  cbv iota; unfold execute_pr; cbv zeta.
  change (js "git commit -m " ++ [34] ++ escape_quotes (commitMessage req)
            ++ [34])
    with (commit_command (commitMessage req)).
  change (js "git checkout -b " ++ branchName req) with (checkout_command req).
  destruct Hco as [r0 Hco].
  cbn [run_all]; rewrite Hco.
  rewrite (run_all_app_ok env _ _ _ Hrej); [reflexivity|].
  intros x Hx; destruct (isEmpty (staged_changes env)); [destruct Hx|].
  destruct Hx as [<-|[]]; exact Hadd.
Qed.

Lemma commit_message_with_metacharacter_witness :
  let env := mkEnv false true true 1700000000000 quiet_sandbox in
  let req := mkRequest (js "fix") (js "a&b") None (JBool true) in
  create_pr env req
  = (STAGED_QUERY :: checkout_command req
       :: (if isEmpty (staged_changes env) then [] else [js "git add ."])
       ++ [commit_command (commitMessage req)],
     GitFailed (js "Git operation failed: Command not allowed: Shell redirection/piping not allowed")).
Proof.
  intros env req.
  apply (commit_message_with_metacharacter env req AMP).
  - apply quiet_sandbox_realised.
  - reflexivity.
  - reflexivity.
  - reflexivity.
  - reflexivity.
  - reflexivity.
  - eexists; vm_compute; reflexivity.
  - eexists; vm_compute; reflexivity.
  - vm_compute; tauto.
  - vm_compute; tauto.
Defined.

End MoreCreatePr.

Section CommitArguments.

Import CreatePr CreatePrMore.

Lemma trimEnd_snoc (x : jsstring) (c : N) :
  isWhiteSpace c = false -> trimEnd (x ++ [c]) = x ++ [c].
Proof.
  intros Hc; induction x as [|y x IH]; simpl.
  - rewrite Hc; reflexivity.
  - rewrite IH; destruct (x ++ [c]) eqn:E; [|reflexivity].
    destruct x; discriminate.
Qed.

Lemma splitWs_go_after_sep (q cur : jsstring) (c : N) :
  isWhiteSpace c = false ->
  splitWs_go true cur (c :: q) = splitWs_go false cur (c :: q).
Proof. intros Hc; simpl; rewrite Hc; reflexivity. Qed.

Lemma splitWs_commit (q : jsstring) :
  splitWs (js "git commit -m " ++ 34 :: q)
  = js "git" :: js "commit" :: js "-m" :: splitWs (34 :: q).
Proof.
  unfold splitWs.
  change (js "git commit -m " ++ 34 :: q)
    with (js "git" ++ 32 :: js "commit" ++ 32 :: js "-m" ++ 32 :: 34 :: q).
  rewrite splitWs_go_plain_sep by reflexivity.
  change (js "commit" ++ 32 :: js "-m" ++ 32 :: 34 :: q)
    with (99 :: js "ommit" ++ 32 :: js "-m" ++ 32 :: 34 :: q).
  rewrite splitWs_go_after_sep by reflexivity.
  change (99 :: js "ommit" ++ 32 :: js "-m" ++ 32 :: 34 :: q)
    with (js "commit" ++ 32 :: js "-m" ++ 32 :: 34 :: q).
  rewrite splitWs_go_plain_sep by reflexivity.
  change (js "-m" ++ 32 :: 34 :: q) with (45 :: js "m" ++ 32 :: 34 :: q).
  rewrite splitWs_go_after_sep by reflexivity.
  change (45 :: js "m" ++ 32 :: 34 :: q) with (js "-m" ++ 32 :: 34 :: q).
  rewrite splitWs_go_plain_sep by reflexivity.
  rewrite splitWs_go_after_sep by reflexivity.
  reflexivity.
Qed.

(** X10: the commit message does not reach git as one argument.  When the
    commit command of /create-pr is spawned, git receives [commit], [-m]
    and then the quoted message split at white space, the quote
    characters and the backslashes of the escaping included. *)
Theorem commit_message_is_split (process_cwd message : jsstring)
  (options : Options) (spawn : Spawn) (events : list Event)
  (call : SpawnCall) (st : State) :
  executeSandboxed process_cwd (commit_command message) options spawn events
  = Spawned call st ->
  cmd call = js "git"
  /\ args call
     = js "commit" :: js "-m"
         :: splitWs (34 :: escape_quotes message ++ [34]).
Proof.
  unfold executeSandboxed.
  destruct (validateCommand _) as [v|e] eqn:Hv; [|discriminate].
  destruct (allowed v) eqn:Ha; simpl negb; cbv iota; [|discriminate].
  destruct (validateCommand_allowed_inv _ _ Hv Ha) as (Hs & Hne & _).
  rewrite Hs; simpl orDefault.
  replace (truthy_string (Some (trim (commit_command message)))) with true
    by (destruct (trim (commit_command message));
        [contradiction | reflexivity]).
  assert (Ht : trim (commit_command message) = commit_command message).
  { unfold trim, commit_command.
    change (trimStart (js "git commit -m " ++ [34] ++ escape_quotes message
                         ++ [34]))
      with (js "git commit -m " ++ [34] ++ escape_quotes message ++ [34]).
    rewrite !app_assoc; apply trimEnd_snoc; reflexivity. }
  rewrite Ht; unfold commit_command.
  change ([34] ++ escape_quotes message ++ [34])
    with (34 :: escape_quotes message ++ [34]).
  rewrite splitWs_commit.
  intros [= <- _]; split; reflexivity.
Qed.

Lemma commit_message_is_split_witness :
  cmd (mkSpawn (js "git")
         [js "commit"; js "-m"; 34 :: js "Fix"; js "the"; js "bug" ++ [34]]
         (js "/repo") 512) = js "git"
  /\ args (mkSpawn (js "git")
             [js "commit"; js "-m"; 34 :: js "Fix"; js "the"; js "bug" ++ [34]]
             (js "/repo") 512)
     = js "commit" :: js "-m"
         :: splitWs (34 :: escape_quotes (js "Fix the bug") ++ [34]).
Proof.
  apply (commit_message_is_split (js "/repo") (js "Fix the bug") noOptions
           (Child true) [] _ (initial true)).
  vm_compute; reflexivity.
Defined.

End CommitArguments.

(** ** More on the keychain *)

Section MoreKeychain.

Import Keychain KeychainRoutes.

Ltac kc_cases st :=
  destruct st as [k a [imp fl pw] cs]; unfold well_formed in *; simpl in *;
  destruct k; simpl in *;
  repeat match goal with
         | H : _ /\ _ |- _ => destruct H
         end; subst; simpl in *; try discriminate.

(** X11: with a working keychain, a key that [storeApiKey] stores is what
    [getApiKey] returns next, whatever the environment variables hold;
    after [deleteApiKey], which answers [true] even when nothing was
    stored, [getApiKey] returns null and does not fall back to the
    environment. *)
Theorem keychain_round_trip (st : Keychain.State) (key : jsstring)
  (e1 e2 : option jsstring) :
  working st -> isEmpty key = false ->
  snd (storeApiKey key st) = Normal true
  /\ snd (getApiKey e1 e2 (fst (storeApiKey key st))) = Some key
  /\ snd (deleteApiKey st) = true
  /\ snd (getApiKey e1 e2 (fst (deleteApiKey st))) = None.
Proof.
  intros (Hwf & Hi & Hf) Hk; unfold storeApiKey, getApiKey, deleteApiKey.
  rewrite Hk; unfold loadKeytar.
  kc_cases st; repeat split; reflexivity.
Qed.

Lemma keychain_round_trip_witness :
  let st := Keychain.initial (mkBackend true None None) in
  snd (storeApiKey (js "sk-1") st) = Normal true
  /\ snd (getApiKey (Some (js "env-key")) None
            (fst (storeApiKey (js "sk-1") st))) = Some (js "sk-1")
  /\ snd (deleteApiKey st) = true
  /\ snd (getApiKey (Some (js "env-key")) None (fst (deleteApiKey st)))
     = None.
Proof.
  intros st; apply (keychain_round_trip st (js "sk-1")).
  - repeat split; reflexivity.
  - reflexivity.
Defined.

(** X12: the import of keytar is tried once.  After it has failed the
    module stays degraded even when the backend has become loadable:
    [storeApiKey] returns [false], [getApiKey] answers from the
    environment, [deleteApiKey] returns [false], and [keytar] is not
    imported again. *)
Theorem failed_load_is_final (st : Keychain.State) (key : jsstring)
  (e1 e2 : option jsstring) :
  keytar st = KFalse -> keychainAvailable st = false ->
  isEmpty key = false ->
  snd (storeApiKey key st) = Normal false
  /\ snd (getApiKey e1 e2 st) = env_fallback e1 e2
  /\ snd (deleteApiKey st) = false
  /\ keytar (fst (storeApiKey key st)) = KFalse
  /\ keytar (fst (getApiKey e1 e2 st)) = KFalse
  /\ keytar (fst (deleteApiKey st)) = KFalse.
Proof.
  intros Hk Ha Hkey; unfold storeApiKey, getApiKey, deleteApiKey, loadKeytar.
  rewrite Hkey, Hk; simpl; rewrite Ha; simpl; auto 10.
Qed.

Lemma failed_load_is_final_witness :
  let st := Keychain.mkState KFalse false (mkBackend true None None) [] in
  snd (storeApiKey (js "sk-1") st) = Normal false
  /\ snd (getApiKey (Some (js "env-key")) None st)
     = env_fallback (Some (js "env-key")) None
  /\ snd (deleteApiKey st) = false
  /\ keytar (fst (storeApiKey (js "sk-1") st)) = KFalse
  /\ keytar (fst (getApiKey (Some (js "env-key")) None st)) = KFalse
  /\ keytar (fst (deleteApiKey st)) = KFalse.
Proof.
  intros st; apply (failed_load_is_final st (js "sk-1")); reflexivity.
Defined.

(** X13: which key is used.  With a working keychain the order is: the
    stored password, [config.llmApiKey], OPENAI_API_KEY, LLM_API_KEY.
    When the keychain cannot be loaded the environment comes before
    [config.llmApiKey]. *)
Theorem key_precedence (app : App) :
  (working (kc app) ->
   usable (snd (getCurrentApiKey app))
   = first_usable [password (backend (kc app)); llmApiKey app;
                   OPENAI_API_KEY app; LLM_API_KEY app])
  /\ (unavailable (kc app) ->
      usable (snd (getCurrentApiKey app))
      = first_usable [OPENAI_API_KEY app; LLM_API_KEY app; llmApiKey app]).
Proof.
  destruct app as [st cfg o l]; unfold getCurrentApiKey, getApiKey, loadKeytar,
    working, unavailable, or_else, env_fallback, usable; simpl.
  split.
  - intros (Hwf & Hi & Hf); kc_cases st;
      destruct (truthy_string pw) eqn:Ep; simpl; rewrite ?Ep; try reflexivity;
      destruct (truthy_string cfg) eqn:Ec; simpl; rewrite ?Ec; try reflexivity;
      destruct (truthy_string o) eqn:Eo; simpl; rewrite ?Eo; try reflexivity;
      destruct (truthy_string l) eqn:El; simpl; rewrite ?El; reflexivity.
  - intros (Hwf & Hi); kc_cases st;
      destruct (truthy_string o) eqn:Eo; simpl; rewrite ?Eo; try reflexivity;
      destruct (truthy_string l) eqn:El; simpl; rewrite ?El; try reflexivity;
      destruct (truthy_string cfg) eqn:Ec; simpl; rewrite ?Ec, ?Eo, ?El;
      reflexivity.
Qed.

Lemma key_precedence_witness :
  let app := mkApp (Keychain.initial (mkBackend false None None))
               (Some (js "config-key")) None (Some (js "env-key")) in
  usable (snd (getCurrentApiKey app))
  = first_usable [OPENAI_API_KEY app; LLM_API_KEY app; llmApiKey app].
Proof.
  intros app; apply (proj2 (key_precedence app)); split; reflexivity.
Defined.

(** X14: POST /api/keychain keeps the key only when the keychain stores
    it.  With a working keychain the key is stored and is the key in use
    afterwards; when the keychain cannot be loaded the answer is the error
    500, [config.llmApiKey] is left as it was, and the key in use is the
    same as before the request. *)
Theorem post_keychain_effect (app : App) (key : jsstring) :
  isEmpty key = false ->
  (working (kc app) ->
   snd (post_keychain key app) = Stored
   /\ snd (getCurrentApiKey (fst (post_keychain key app))) = Some key)
  /\ (unavailable (kc app) ->
      snd (post_keychain key app) = NotStored
      /\ snd (getCurrentApiKey (fst (post_keychain key app)))
         = snd (getCurrentApiKey app)).
Proof.
  intros Hk; destruct app as [st cfg o l].
  unfold post_keychain, getCurrentApiKey, storeApiKey, getApiKey, loadKeytar,
    working, unavailable; simpl; rewrite Hk.
  destruct key as [|c key]; [discriminate|].
  split.
  - intros (Hwf & Hi & Hf); kc_cases st; split; reflexivity.
  - intros (Hwf & Hi); kc_cases st; (split; [reflexivity|]);
      destruct (truthy_string (env_fallback o l)); reflexivity.
Qed.

Lemma post_keychain_effect_witness :
  let app := mkApp (Keychain.initial (mkBackend false None None))
               None (Some (js "env-key")) None in
  snd (post_keychain (js "sk-1") app) = NotStored
  /\ snd (getCurrentApiKey (fst (post_keychain (js "sk-1") app)))
     = snd (getCurrentApiKey app).
Proof.
  intros app.
  apply (proj2 (post_keychain_effect app (js "sk-1") eq_refl)).
  split; reflexivity.
Defined.

(** X15: GET /api/keychain reads [isKeychainAvailable] before anything has
    loaded keytar.  On a fresh module the first answer says that the
    keychain is not available even when it is; the second one tells the
    truth. *)
Theorem first_status_is_stale (b : Backend) (o l cfg : option jsstring) :
  let app := mkApp (Keychain.initial b) cfg o l in
  fst (snd (get_keychain app)) = false
  /\ fst (snd (get_keychain (fst (get_keychain app)))) = importable b.
Proof.
  destruct b as [imp fl pw]; unfold get_keychain, getApiKey, loadKeytar,
    isKeychainAvailable; simpl.
  destruct imp; simpl; [destruct fl|]; split; reflexivity.
Qed.

(** X16: DELETE /api/keychain with a working keychain answers 200 even
    when no key was stored, and clears [config.llmApiKey] as well, so the
    key in use afterwards comes from the environment; when the keychain
    cannot be loaded it answers 404 and leaves [config.llmApiKey]. *)
Theorem delete_keychain_effect (app : App) :
  (working (kc app) ->
   snd (delete_keychain app) = Deleted
   /\ snd (getCurrentApiKey (fst (delete_keychain app)))
      = or_else (OPENAI_API_KEY app) (LLM_API_KEY app))
  /\ (unavailable (kc app) ->
      snd (delete_keychain app) = NoKeyFound
      /\ llmApiKey (fst (delete_keychain app)) = llmApiKey app).
Proof.
  destruct app as [st cfg o l].
  unfold delete_keychain, getCurrentApiKey, deleteApiKey, getApiKey,
    loadKeytar, working, unavailable, or_else; simpl.
  split.
  - intros (Hwf & Hi & Hf); kc_cases st; split; reflexivity.
  - intros (Hwf & Hi); kc_cases st; split; reflexivity.
Qed.

Lemma delete_keychain_effect_witness :
  let app := mkApp (Keychain.initial (mkBackend true None None))
               (Some (js "config-key")) None (Some (js "env-key")) in
  snd (delete_keychain app) = Deleted
  /\ snd (getCurrentApiKey (fst (delete_keychain app)))
     = or_else (OPENAI_API_KEY app) (LLM_API_KEY app).
Proof.
  intros app; apply (proj1 (delete_keychain_effect app)).
  repeat split; reflexivity.
Defined.

End MoreKeychain.

(** ** applyPatch *)

Section ApplyPatchFacts.

Import ApplyPatch.
Local Open Scope Z_scope.

Lemma insert_desc_perm (e : PatchEdit) (l : list PatchEdit) :
  Permutation (insert_desc e l) (e :: l).
Proof.
  induction l as [|x r IH]; simpl; [reflexivity|].
  destruct (start x <=? start e); [reflexivity|].
  rewrite IH; apply perm_swap.
Qed.

Lemma sort_desc_perm (l : list PatchEdit) : Permutation (sort_desc l) l.
Proof.
  induction l as [|e l IH]; simpl; [reflexivity|].
  rewrite insert_desc_perm; apply perm_skip, IH.
Qed.

Lemma insert_desc_sorted (e : PatchEdit) (l : list PatchEdit) :
  StronglySorted ge_start l -> StronglySorted ge_start (insert_desc e l).
Proof.
  induction l as [|x r IH]; simpl; intros H.
  - constructor; constructor.
  - inversion H as [|? ? Hr Hx]; subst.
    destruct (start x <=? start e) eqn:E.
    + apply Z.leb_le in E; constructor; [exact H|].
      constructor; [unfold ge_start; lia|].
      rewrite Forall_forall in *; intros y Hy; specialize (Hx y Hy).
      unfold ge_start in *; lia.
    + apply Z.leb_gt in E; constructor; [apply IH, Hr|].
      rewrite Forall_forall in *; intros y Hy.
      apply (Permutation_in _ (insert_desc_perm e r)) in Hy as [<-|Hy].
      * unfold ge_start; lia.
      * apply Hx, Hy.
Qed.

Lemma sort_desc_sorted (l : list PatchEdit) :
  StronglySorted ge_start (sort_desc l).
Proof.
  induction l as [|e l IH]; simpl; [constructor|].
  apply insert_desc_sorted, IH.
Qed.

(** A list sorted strictly has one sorted arrangement. *)
Lemma sorted_unique (l1 l2 : list PatchEdit) :
  StronglySorted gt_start l1 -> StronglySorted ge_start l2 ->
  Permutation l1 l2 -> l1 = l2.
Proof.
  revert l2; induction l1 as [|x l1 IH]; intros l2 H1 H2 Hp.
  - apply Permutation_nil in Hp; congruence.
  - destruct l2 as [|y l2].
    { apply Permutation_sym, Permutation_nil in Hp; discriminate. }
    inversion H1 as [|? ? H1r H1x]; inversion H2 as [|? ? H2r H2y]; subst.
    assert (x = y) as <-.
    { assert (Hy : In y (x :: l1))
        by (apply (Permutation_in _ (Permutation_sym Hp)); left; reflexivity).
      assert (Hx : In x (y :: l2))
        by (apply (Permutation_in _ Hp); left; reflexivity).
      destruct Hy as [Hy|Hy]; [exact Hy|].
      destruct Hx as [Hx|Hx]; [congruence|].
      rewrite Forall_forall in H1x, H2y.
      specialize (H1x y Hy); specialize (H2y x Hx).
      unfold gt_start, ge_start in *; lia. }
    f_equal; apply IH; auto.
    apply Permutation_cons_inv in Hp; exact Hp.
Qed.

Lemma StronglySorted_snoc (R : PatchEdit -> PatchEdit -> Prop)
  (l : list PatchEdit) (e : PatchEdit) :
  StronglySorted R l -> Forall (fun x => R x e) l ->
  StronglySorted R (l ++ [e]).
Proof.
  induction l as [|x l IH]; simpl; intros Hs Hf.
  - constructor; constructor.
  - inversion Hs; inversion Hf; subst; constructor; [apply IH; auto|].
    apply Forall_app; split; [assumption | constructor; [assumption|constructor]].
Qed.

Lemma ordered_sorted (asc : list PatchEdit) :
  ordered asc = true -> StronglySorted lt_start asc.
Proof.
  induction asc as [|e [|e' r] IH]; intros H.
  - constructor.
  - constructor; constructor.
  - simpl in H; apply andb_true_iff in H as [H Hr].
    apply andb_true_iff in H as [_ Hlt]; apply Z.ltb_lt in Hlt.
    specialize (IH Hr); constructor; [exact IH|].
    inversion IH as [|? ? _ Hf]; subst; constructor; [exact Hlt|].
    rewrite Forall_forall in *; intros y Hy; specialize (Hf y Hy).
    unfold lt_start in *; lia.
Qed.

Lemma sorted_rev (asc : list PatchEdit) :
  StronglySorted lt_start asc -> StronglySorted gt_start (rev asc).
Proof.
  induction 1 as [|e asc Hs IH Hf]; simpl; [constructor|].
  apply StronglySorted_snoc; [exact IH|].
  rewrite Forall_forall in *; intros y Hy; apply in_rev in Hy.
  specialize (Hf y Hy); unfold lt_start, gt_start in *; lia.
Qed.

Lemma sort_desc_ordered (asc edits : list PatchEdit) :
  Permutation asc edits -> ordered asc = true -> sort_desc edits = rev asc.
Proof.
  intros Hp Ho; symmetry; apply sorted_unique.
  - apply sorted_rev, ordered_sorted, Ho.
  - apply sort_desc_sorted.
  - rewrite <- (Permutation_rev asc), Hp; symmetry; apply sort_desc_perm.
Qed.

End ApplyPatchFacts.

Section ApplyPatchClaims.

Import ApplyPatch.
Local Open Scope Z_scope.

Lemma chain_bounds (asc : list PatchEdit) (lo hi : Z) :
  chain lo hi asc -> lo <= hi.
Proof.
  revert lo; induction asc as [|e r IH]; simpl; intros lo H; [exact H|].
  destruct H as (H1 & H2 & H3); specialize (IH _ H3); lia.
Qed.

Lemma chain_snoc (asc : list PatchEdit) (e : PatchEdit) (lo hi : Z) :
  chain lo hi (asc ++ [e]) ->
  chain lo (start e) asc /\ start e <= end_ e /\ end_ e <= hi.
Proof.
  revert lo; induction asc as [|x r IH]; simpl; intros lo H.
  - tauto.
  - destruct H as (H1 & H2 & H3); destruct (IH _ H3) as (H4 & H5 & H6); tauto.
Qed.

Lemma chain_of_ordered (asc : list PatchEdit) (n : Z) :
  forallb (in_range n) asc = true -> ordered asc = true ->
  0 <= n -> chain 0 n asc.
Proof.
  assert (G : forall asc lo,
             forallb (in_range n) asc = true -> ordered asc = true ->
             lo <= n ->
             match asc with [] => True | e :: _ => lo <= start e end ->
             chain lo n asc).
  { clear asc; induction asc as [|e r IH]; simpl; intros lo Hr Ho Hn Hlo.
    - exact Hn.
    - apply andb_true_iff in Hr as [He Hr]; unfold in_range in He.
      apply andb_true_iff in He as [He H3]; apply andb_true_iff in He as [H1 H2].
      apply Z.leb_le in H1, H2, H3.
      repeat split; auto.
      destruct r as [|e' r'].
      + simpl; exact H3.
      + apply andb_true_iff in Ho as [Ho Hor].
        apply andb_true_iff in Ho as [Hle _]; apply Z.leb_le in Hle.
        apply IH; auto. }
  intros Hr Ho Hn; apply G; auto.
  destruct asc as [|e r]; [exact I|].
  simpl in Hr; apply andb_true_iff in Hr as [He _]; unfold in_range in He.
  apply andb_true_iff in He as [He _]; apply andb_true_iff in He as [H1 _].
  apply Z.leb_le in H1; exact H1.
Qed.

Lemma slice_firstn (P : jsstring) (lo a s : Z) :
  0 <= lo -> lo <= a -> a <= s ->
  slice (firstn (Z.to_nat s) P) lo a = slice P lo a.
Proof.
  intros H0 H1 H2; unfold slice.
  rewrite skipn_firstn_comm, firstn_firstn.
  f_equal; lia.
Qed.

Lemma splice_snoc (P : jsstring) (e : PatchEdit) (asc : list PatchEdit)
  (lo : Z) :
  0 <= lo -> chain lo (start e) asc ->
  splice_from lo P (asc ++ [e])
  = splice_from lo (firstn (Z.to_nat (start e)) P) asc
      ++ replacement e ++ skipn (Z.to_nat (end_ e)) P.
Proof.
  revert lo; induction asc as [|x r IH]; simpl; intros lo H0 Hc.
  - unfold slice; rewrite skipn_firstn_comm.
    replace (Z.to_nat (start e - lo))
      with (Z.to_nat (start e) - Z.to_nat lo)%nat by lia.
    reflexivity.
  - destruct Hc as (H1 & H2 & H3).
    pose proof (chain_bounds _ _ _ H3) as Hb.
    rewrite IH by (auto; lia).
    rewrite slice_firstn by lia.
    rewrite <- !app_assoc; reflexivity.
Qed.

Lemma apply_edits_desc (l : list PatchEdit) (P tail : jsstring) (hi : Z) :
  chain 0 hi (rev l) -> hi <= length_of P ->
  apply_edits (P ++ tail) l = Applied (splice_from 0 P (rev l) ++ tail).
Proof.
  revert P tail hi; induction l as [|e rest IH]; intros P tail hi Hc Hhi.
  - reflexivity.
  - simpl rev in *; apply chain_snoc in Hc as (Hc & H1 & H2).
    pose proof (chain_bounds _ _ _ Hc) as H0.
    unfold length_of in *; simpl apply_edits.
    replace (start e <? 0) with false by (symmetry; apply Z.ltb_ge; lia).
    replace (length_of (P ++ tail) <? end_ e) with false
      by (symmetry; apply Z.ltb_ge; unfold length_of;
          rewrite length_app; lia).
    replace (end_ e <? start e) with false by (symmetry; apply Z.ltb_ge; lia).
    simpl orb; cbv iota zeta.
    rewrite firstn_app, skipn_app.
    replace (Z.to_nat (start e) - List.length P)%nat with 0%nat by lia.
    replace (Z.to_nat (end_ e) - List.length P)%nat with 0%nat by lia.
    simpl firstn; simpl skipn; rewrite ?app_nil_r.
    rewrite <- ?app_assoc.
    rewrite (IH (firstn (Z.to_nat (start e)) P) _ (start e) Hc)
      by (rewrite length_firstn; lia).
    rewrite splice_snoc by (auto; lia).
    rewrite <- !app_assoc; reflexivity.
Qed.

(** X17: edits that lie in the file, one after the other with different
    starts, may be given in any order: [applyPatch] writes the content in
    which all the ranges of the original are replaced at once. *)
Theorem applyPatch_replaces_at_once (content : jsstring)
  (edits asc : list PatchEdit) :
  Permutation asc edits ->
  forallb (in_range (length_of content)) asc = true ->
  ordered asc = true ->
  applyPatch (Some content) edits = Applied (splice_from 0 content asc).
Proof.
  intros Hp Hr Ho; unfold applyPatch.
  rewrite (sort_desc_ordered asc edits Hp Ho).
  rewrite <- (app_nil_r content) at 1.
  rewrite (apply_edits_desc (rev asc) content [] (length_of content)).
  - rewrite rev_involutive, app_nil_r; reflexivity.
  - rewrite rev_involutive; apply chain_of_ordered; auto.
    unfold length_of; lia.
  - lia.
Qed.

Lemma applyPatch_replaces_at_once_witness :
  applyPatch (Some (js "line1 line2 line3"))
    [mkEdit 12 17 (js "new3"); mkEdit 0 5 (js "new1")]
  = Applied (splice_from 0 (js "line1 line2 line3")
               [mkEdit 0 5 (js "new1"); mkEdit 12 17 (js "new3")]).
Proof.
  apply applyPatch_replaces_at_once.
  - apply perm_swap.
  - reflexivity.
  - reflexivity.
Defined.

Lemma apply_edits_malformed (l : list PatchEdit) (content : jsstring)
  (e : PatchEdit) :
  In e l -> malformed e = true -> is_invalid (apply_edits content l) = true.
Proof.
  revert content; induction l as [|x r IH]; intros content Hin Hm;
    [destruct Hin|].
  simpl.
  destruct ((start x <? 0) || (length_of content <? end_ x)
            || (end_ x <? start x)) eqn:E; [reflexivity|].
  destruct Hin as [->|Hin]; [|apply IH; assumption].
  unfold malformed in Hm.
  apply orb_false_iff in E as [E E3]; apply orb_false_iff in E as [E1 _].
  rewrite E1, E3 in Hm; discriminate.
Qed.

(** X18: one edit with a negative start, or with its end before its
    start, makes [applyPatch] refuse the whole patch: the answer is
    'Invalid edit range' and the file is not written, wherever that edit
    stands in the patch. *)
Theorem applyPatch_refuses_malformed (content : jsstring)
  (edits : list PatchEdit) (e : PatchEdit) :
  In e edits -> malformed e = true ->
  is_invalid (applyPatch (Some content) edits) = true.
Proof.
  intros Hin Hm; unfold applyPatch.
  apply (apply_edits_malformed _ _ e); [|exact Hm].
  apply (Permutation_in _ (Permutation_sym (sort_desc_perm edits))), Hin.
Qed.

Lemma applyPatch_refuses_malformed_witness :
  is_invalid (applyPatch (Some (js "abcdef"))
                [mkEdit 0 2 (js "x"); mkEdit 4 3 (js "y")]) = true.
Proof.
  apply (applyPatch_refuses_malformed _ _ (mkEdit 4 3 (js "y"))).
  - right; left; reflexivity.
  - reflexivity.
Defined.

End ApplyPatchClaims.

(** ** The tools of the MCP server *)

Section McpServerClaims.

Import CreatePr McpServer.

(** X19: the [create-pr] tool of the MCP server cannot create anything.
    The body it posts to the adapter has no [confirm], so the adapter never
    goes on to execute: it runs at most the read-only query of the staged
    files.  With dry-run on, the tool answers [success: true] with no PR
    URL; with dry-run off it answers an error. *)
Theorem mcp_create_pr_never_executes (manifest : option (list jsstring))
  (process_cwd : jsstring) (input : ToolInput) (env : Env) :
  let ran := fst (invoke_pr manifest process_cwd input env) in
  let response := snd (invoke_pr manifest process_cwd input env) in
  (ran = [] \/ ran = [STAGED_QUERY])
  /\ (forall url branch ok message,
        response = McpPr url branch ok message ->
        dryRun env = true /\ url = None /\ branch = in_branchName input
        /\ ok = true /\ message = DRY_RUN_MESSAGE)
  /\ (dryRun env = false -> exists status error,
        response = McpError status error).
Proof.
  unfold invoke_pr.
  destruct (find_tool manifest (js "create-pr")) as [r|] eqn:Ef.
  { assert (Hr : exists status error, r = McpError status error).
    { unfold find_tool in Ef.
      destruct manifest; [destruct (existsb _ _)|]; try discriminate;
        injection Ef as <-; eauto. }
    destruct Hr as (status & error & ->); simpl.
    split; [auto | split; [discriminate | eauto]]. }
  unfold invoke_create_pr.
  destruct (isEmpty (in_branchName input) || isEmpty (in_commitMsg input))
    eqn:Ee.
  { simpl; split; [auto | split; [discriminate | eauto]]. }
  unfold create_pr, adapter_request; cbn [branchName commitMessage confirm].
  rewrite Ee; cbn [is_true negb andb orb].
  destruct (path_exists env); cbn [negb];
    [|simpl; split; [auto | split; [discriminate | unfold TOOL_FAILED; eauto]]].
  destruct (git_dir_exists env); cbn [negb];
    [|simpl; split; [auto | split; [discriminate | unfold TOOL_FAILED; eauto]]].
  destruct (dryRun env); cbn [negb andb orb fst snd].
  - split; [auto | split; [|discriminate]].
    intros url b ok m [= <- <- <- <-]; auto.
  - split; [auto | split; [discriminate | unfold TOOL_FAILED; eauto]].
Qed.

Lemma mcp_create_pr_never_executes_witness :
  let env := mkEnv false true true 1700000000000
               (fun _ => Normal (mkResult true (js "src/a.js") [] 0%Z)) in
  let input := mkInput (js "feature/x") (js "Fix bug") None in
  exists status error,
    snd (invoke_pr (Some [js "run-tests"; js "create-pr"]) (js "/repo")
           input env)
    = McpError status error.
Proof.
  intros env input.
  apply (proj2 (proj2 (mcp_create_pr_never_executes
                         (Some [js "run-tests"; js "create-pr"]) (js "/repo")
                         input env))).
  reflexivity.
Defined.

End McpServerClaims.

Section RunTestsClaims.

Import McpServer.

Lemma npm_test_spawns (p : jsstring) (o : Options) (sp : Spawn)
  (evs : list Event) :
  exists call,
    executeSandboxed p (js "npm test") o sp evs
    = Spawned call
        (match sp with
         | SpawnThrows message => threw message
         | NoStreams message =>
             run (limits p o) (no_streams message) (timers_only evs)
         | Child spawned => run (limits p o) (initial spawned) evs
         end).
Proof.
  unfold executeSandboxed.
  replace (validateCommand (js "npm test"))
    with (@Normal TypeError _ (mkValidation true (Some (js "npm test")) None))
    by (vm_compute; reflexivity).
  eexists; reflexivity.
Qed.

Lemma resolved_by_exit (lim : Limits) (sp : bool) (evs : list Event)
  (r : Result) :
  promise (run lim (initial sp) evs) = Some (Resolved r) ->
  exists code signal,
    In (Exit code signal) evs
    /\ success r = is_zero code /\ exitCode r = exit_code code signal.
Proof.
  intros Hr.
  destruct (first_settle lim (initial sp) evs _ eq_refl Hr)
    as (pre & ev & post & -> & Hpre & Hstep).
  pose proof (step_produced lim _ _ _ Hpre Hstep) as Hby.
  destruct ev as [| |data|data|code signal|message]; simpl in Hby;
    try contradiction.
  destruct Hby; exists code, signal; repeat split; auto.
  apply in_or_app; right; left; reflexivity.
Qed.

(** X20: the run of the tests, from the exit of [npm test] to the answer
    of the MCP tool.  When the adapter answers, the tool passes on its
    [success] and [exitCode] unchanged; [success] is [true] exactly when
    [exitCode] is 0, and only when the process exited with code 0: a
    timeout, an output overflow or a process error is never reported as
    a success. *)
Theorem run_tests_end_to_end (repoPath resolvedPath : jsstring)
  (path_exists package_json : bool) (spawn : Spawn) (events : list Event)
  (a : RunTests.Response) (ok : bool) (code : Z) (out err : jsstring) :
  forallb node_exit events = true ->
  RunTests.run_tests repoPath resolvedPath path_exists package_json
    spawn events = Some a ->
  invoke_run_tests repoPath (fun _ => a) = McpTests ok code out err ->
  (exists error, a = RunTests.Answer ok code out err error)
  /\ (ok = true <-> code = 0%Z)
  /\ (ok = true -> In (Exit (Some 0%Z) None) events).
Proof.
  intros Hn Ha Hm; unfold invoke_run_tests in Hm.
  destruct (isEmpty repoPath) eqn:Er; [discriminate|].
  unfold RunTests.run_tests in Ha; rewrite Er in Ha.
  destruct (negb path_exists); [injection Ha as <-; discriminate|].
  destruct (negb package_json); [injection Ha as <-; discriminate|].
  destruct (npm_test_spawns resolvedPath (RunTests.options resolvedPath)
              spawn events) as [call Hs].
  rewrite Hs in Ha; simpl outcome in Ha.
  destruct (promise _) as [[r|e]|] eqn:Hp; [| |discriminate].
  - destruct spawn as [message|message|spawned]; [discriminate | |].
    { rewrite (run_settled _ (no_streams message) _ _ eq_refl) in Hp.
      discriminate. }
    destruct (resolved_by_exit _ _ _ _ Hp) as (c & sg & Hin & Hsu & Hex).
    rewrite forallb_forall in Hn; specialize (Hn _ Hin).
    injection Ha as <-; rewrite Hsu, Hex in Hm.
    destruct c as [z|], sg as [[|x sg]|]; simpl in Hn; try discriminate;
      simpl in Hm, Hsu, Hex.
    + destruct (z =? 0)%Z eqn:Ez; simpl in Hm; rewrite ?Ez in Hm;
        injection Hm as <- <- <- <-.
      * apply Z.eqb_eq in Ez; subst z.
        rewrite Hsu, Hex; repeat split; eauto.
      * rewrite Hsu, Hex; split; [eauto|]; split; [|discriminate].
        apply Z.eqb_neq in Ez; split; [discriminate | contradiction].
    + injection Hm as <- <- <- <-; rewrite Hsu, Hex.
      split; [eauto|]; split; [|discriminate].
      split; discriminate.
  - injection Ha as <-; simpl in Hm; injection Hm as <- <- <- <-.
    split; [eauto|]; split; [|discriminate].
    split; discriminate.
Qed.

Lemma run_tests_end_to_end_witness :
  (exists error,
     RunTests.Answer false 2 (js "1 failing") [] None
     = RunTests.Answer false 2 (js "1 failing") [] error)
  /\ (false = true <-> 2%Z = 0%Z)
  /\ (false = true ->
      In (Exit (Some 0%Z) None)
         [StdoutData (js "1 failing"); Exit (Some 2%Z) None]).
Proof.
  apply (run_tests_end_to_end (js "/repo") (js "/repo") true true
           (Child true)
           [StdoutData (js "1 failing"); Exit (Some 2%Z) None]
           (RunTests.Answer false 2 (js "1 failing") [] None)).
  - reflexivity.
  - vm_compute; reflexivity.
  - vm_compute; reflexivity.
Defined.

End RunTestsClaims.

(** ** parseLLMResponse *)

Section ParseLLMFacts.

Import ParseLLM.

Local Open Scope nat_scope.

Lemma starts_with_app (m r : jsstring) : starts_with m (m ++ r) = true.
Proof.
  induction m as [|x m IH]; simpl; [reflexivity|].
  rewrite N.eqb_refl; exact IH.
Qed.

Lemma starts_with_inv (m s : jsstring) :
  starts_with m s = true -> s = m ++ skipn (List.length m) s.
Proof.
  revert s; induction m as [|x m IH]; intros s H; [reflexivity|].
  destruct s as [|y s]; [discriminate|]; simpl in H.
  apply andb_prop in H as [Hx Hm]; apply N.eqb_eq in Hx; subst y.
  simpl; f_equal; apply IH; exact Hm.
Qed.

(** An occurrence of [m] that starts in [x] and ends after it. *)
Lemma starts_with_straddle (x m y : jsstring) :
  starts_with m (x ++ y) = true -> starts_with m x = false ->
  exists m2, m = x ++ m2 /\ m2 <> [] /\ starts_with m2 y = true.
Proof.
  revert m; induction x as [|c x IH]; intros m H Hx.
  - exists m; repeat split; [|exact H].
    intros ->; discriminate.
  - destruct m as [|d m]; [discriminate|]; simpl in H, Hx.
    apply andb_prop in H as [Hd Hm]; rewrite Hd in Hx; simpl in Hx.
    apply N.eqb_eq in Hd; subst d.
    destruct (IH m Hm Hx) as (m2 & -> & Hne & H2).
    exists m2; repeat split; assumption.
Qed.

Lemma head_unique_no_overlap (x m r : jsstring) :
  head_unique m = true -> x <> [] -> starts_with m x = false ->
  starts_with m (x ++ m ++ r) = false.
Proof.
  intros Hu Hx Hn.
  destruct (starts_with m (x ++ m ++ r)) eqn:E; [|reflexivity].
  destruct (starts_with_straddle _ _ _ E Hn) as (m2 & Hm & Hne & H2).
  destruct x as [|c x]; [contradiction|].
  destruct m2 as [|d m2]; [contradiction|].
  rewrite Hm in H2; simpl in H2.
  apply andb_prop in H2 as [Hd _]; apply N.eqb_eq in Hd; subst d.
  rewrite Hm in Hu; simpl in Hu.
  rewrite existsb_app in Hu; simpl in Hu.
  rewrite N.eqb_refl, orb_true_r in Hu; discriminate.
Qed.

Lemma indexOf_from_first (x m r : jsstring) (i : Z) :
  head_unique m = true -> (0 <= i)%Z -> indexOf_from i m x = (-1)%Z ->
  indexOf_from i m (x ++ m ++ r) = (i + Z.of_nat (List.length x))%Z.
Proof.
  intros Hu; revert i; induction x as [|c x IH]; intros i Hi Hx.
  - simpl app; destruct (m ++ r) eqn:E; simpl;
      rewrite <- ?E, starts_with_app; lia.
  - cbn [indexOf_from] in Hx.
    destruct (starts_with m (c :: x)) eqn:Es; [lia|].
    change ((c :: x) ++ m ++ r) with (c :: (x ++ m ++ r)).
    cbn [indexOf_from].
    change (c :: (x ++ m ++ r)) with ((c :: x) ++ m ++ r).
    rewrite (head_unique_no_overlap (c :: x) m r Hu) by
      (try discriminate; exact Es).
    rewrite IH by (try lia; exact Hx).
    cbn [List.length]; lia.
Qed.

Lemma indexOf_first (x m r : jsstring) :
  head_unique m = true -> indexOf x m = (-1)%Z ->
  indexOf (x ++ m ++ r) m = Z.of_nat (List.length x).
Proof.
  intros Hu Hx; unfold indexOf.
  rewrite (indexOf_from_first x m r 0 Hu) by (try lia; exact Hx); lia.
Qed.

Lemma substring_middle (x y z : jsstring) :
  substring (x ++ y ++ z) (Z.of_nat (List.length x))
    (Z.of_nat (List.length x + List.length y)) = y.
Proof.
  unfold substring, clamp; rewrite !Nat2Z.id, !length_app.
  rewrite (Nat.min_l (List.length x)) by lia.
  rewrite (Nat.min_l (List.length x + List.length y)) by lia.
  rewrite Nat.min_l, Nat.max_r by lia.
  rewrite skipn_app, skipn_all, Nat.sub_diag; simpl.
  replace (List.length x + List.length y - List.length x)
    with (List.length y + 0) by lia.
  rewrite firstn_app_2; simpl; apply app_nil_r.
Qed.

Lemma substring_swap (s : jsstring) (a b : Z) :
  substring s a b = substring s b a.
Proof.
  unfold substring; rewrite Nat.min_comm, Nat.max_comm; reflexivity.
Qed.

Lemma trim_fixed (c d : N) (t : jsstring) :
  isWhiteSpace c = false -> isWhiteSpace d = false ->
  trim (c :: t ++ [d]) = c :: t ++ [d].
Proof.
  intros Hc Hd; unfold trim.
  rewrite trimStart_fixed by exact Hc.
  apply (trimEnd_snoc (c :: t) d Hd).
Qed.

Lemma split_go_not_nil (sep : jsstring) (s : jsstring) :
  forall skip cur, split_go sep skip cur s <> [].
Proof.
  induction s as [|c s IH]; intros skip cur; simpl; [discriminate|].
  destruct skip; [|apply IH].
  destruct (starts_with sep (c :: s)); [discriminate | apply IH].
Qed.

Lemma join_cons (sep p : jsstring) (l : list jsstring) :
  l <> [] -> join sep (p :: l) = p ++ sep ++ join sep l.
Proof. destruct l; [contradiction | reflexivity]. Qed.

Lemma split_go_skip (sep x r cur : jsstring) :
  split_go sep (List.length x) cur (x ++ r) = split_go sep 0 cur r.
Proof. induction x as [|c x IH]; simpl; [reflexivity | exact IH]. Qed.

(** [join] undoes [split]. *)
Lemma join_split_go (sep : jsstring) (s : jsstring) :
  sep <> [] ->
  forall skip cur,
    join sep (split_go sep skip cur s) = cur ++ skipn skip s.
Proof.
  intros Hsep; induction s as [|c s IH]; intros skip cur.
  - simpl; rewrite skipn_nil, app_nil_r; reflexivity.
  - cbn [split_go]; destruct skip as [|k]; [|rewrite IH; reflexivity].
    destruct (starts_with sep (c :: s)) eqn:E.
    + rewrite join_cons by apply split_go_not_nil.
      rewrite IH; simpl app; cbn [skipn]; f_equal.
      destruct sep as [|d sep]; simpl in E |- *.
      * contradiction.
      * apply andb_prop in E as [Hd Hs]; apply N.eqb_eq in Hd; subst d.
        rewrite Nat.sub_0_r; simpl; f_equal.
        symmetry; apply starts_with_inv; exact Hs.
    + rewrite IH; cbn [skipn]; rewrite <- app_assoc; reflexivity.
Qed.

Lemma split_go_none (sep : jsstring) (s : jsstring) :
  forall cur, ~ occurs sep s -> split_go sep 0 cur s = [cur ++ s].
Proof.
  induction s as [|c s IH]; intros cur Hn.
  - simpl; rewrite app_nil_r; reflexivity.
  - cbn [split_go]; destruct (starts_with sep (c :: s)) eqn:E.
    + exfalso; apply Hn; exists [], (skipn (List.length sep) (c :: s)).
      apply starts_with_inv; exact E.
    + rewrite IH, <- app_assoc; [reflexivity|].
      intros (a & r & ->); apply Hn; exists (c :: a), r; reflexivity.
Qed.

Lemma split_go_first (sep a r : jsstring) :
  sep <> [] ->
  forall cur, first_cut sep (a ++ sep ++ r) a r ->
    split_go sep 0 cur (a ++ sep ++ r) = (cur ++ a) :: split_go sep 0 [] r.
Proof.
  intros Hsep; induction a as [|c a IH]; intros cur [_ Hmin].
  - destruct sep as [|d sep]; [contradiction|].
    rewrite app_nil_r; simpl app; cbn [split_go].
    change (d :: sep ++ r) with ((d :: sep) ++ r).
    rewrite starts_with_app.
    replace (List.length (d :: sep) - 1) with (List.length sep)
      by (simpl; lia).
    rewrite split_go_skip; reflexivity.
  - change ((c :: a) ++ sep ++ r) with (c :: (a ++ sep ++ r)).
    cbn [split_go].
    destruct (starts_with sep (c :: a ++ sep ++ r)) eqn:E.
    + apply starts_with_inv in E.
      specialize (Hmin [] _ E); simpl in Hmin; lia.
    + rewrite IH.
      * rewrite <- app_assoc; reflexivity.
      * split; [reflexivity|]; intros a' r' H'.
        specialize (Hmin (c :: a') r').
        simpl in Hmin; rewrite H' in Hmin; specialize (Hmin eq_refl); lia.
Qed.

End ParseLLMFacts.

Section ParseLLMClaims.

Import ParseLLM.

Local Open Scope nat_scope.

(** X21: a response with the two markers in order is taken apart at
    them.  When PATCH_START first occurs after [a] and PATCH_END first
    occurs after the text [p] that follows it, the patch is [p] trimmed and
    the answer is [a] trimmed, without a leading <ANSWER> tag; what comes
    after PATCH_END is dropped. *)
Theorem parseLLMResponse_extracts (a p rest : jsstring) :
  indexOf a PATCH_START = (-1)%Z ->
  indexOf (a ++ PATCH_START ++ p) PATCH_END = (-1)%Z ->
  parseLLMResponse (a ++ PATCH_START ++ p ++ PATCH_END ++ rest)
  = mkParsed (trim (strip_answer_tag (trim a))) (Some (trim p)).
Proof.
  intros Ha Hp.
  pose proof (indexOf_first a PATCH_START (p ++ PATCH_END ++ rest) eq_refl Ha)
    as Hi.
  pose proof (indexOf_first _ PATCH_END rest eq_refl Hp) as Hj.
  pose proof (substring_middle [] a (PATCH_START ++ p ++ PATCH_END ++ rest))
    as H1.
  pose proof (substring_middle (a ++ PATCH_START) p (PATCH_END ++ rest))
    as H2.
  repeat rewrite <- app_assoc in Hj.
  repeat rewrite <- app_assoc in H2.
  rewrite length_app, Nat2Z.inj_add in H2.
  change (substring (a ++ PATCH_START ++ p ++ PATCH_END ++ rest) 0
            (Z.of_nat (List.length a)) = a) in H1.
  unfold parseLLMResponse; rewrite Hi, Hj.
  replace (Z.of_nat (List.length a) =? -1)%Z
    with false by (symmetry; apply Z.eqb_neq; lia).
  replace (Z.of_nat (List.length (a ++ PATCH_START ++ p)) =? -1)%Z
    with false by (symmetry; apply Z.eqb_neq; lia).
  cbn [orb]; rewrite H1.
  replace (Z.of_nat (List.length (a ++ PATCH_START ++ p)))
    with (Z.of_nat (List.length a + List.length PATCH_START
                    + List.length p))
    by (rewrite !length_app; lia).
  rewrite H2; reflexivity.
Qed.

Lemma parseLLMResponse_extracts_witness :
  parseLLMResponse
    (js "<answer> Use a guard. " ++ PATCH_START ++ js " x = 1 "
       ++ PATCH_END ++ js " bye")
  = mkParsed (trim (strip_answer_tag (trim (js "<answer> Use a guard. "))))
             (Some (trim (js " x = 1 "))).
Proof.
  apply (parseLLMResponse_extracts (js "<answer> Use a guard. ")
           (js " x = 1 ") (js " bye")); vm_compute; reflexivity.
Defined.

(** X22: markers in the wrong order are not noticed.  When PATCH_END
    occurs before PATCH_START, [substring] swaps its two ends, and the
    patch is the text from PATCH_END to PATCH_START with both markers in
    it. *)
Theorem parseLLMResponse_reversed_markers (a b rest : jsstring) :
  indexOf a PATCH_END = (-1)%Z ->
  indexOf (a ++ PATCH_END ++ b) PATCH_START = (-1)%Z ->
  patch (parseLLMResponse (a ++ PATCH_END ++ b ++ PATCH_START ++ rest))
  = Some (PATCH_END ++ b ++ PATCH_START).
Proof.
  intros Ha Hb.
  pose proof (indexOf_first a PATCH_END (b ++ PATCH_START ++ rest) eq_refl Ha)
    as Hj.
  pose proof (indexOf_first _ PATCH_START rest eq_refl Hb) as Hi.
  pose proof (substring_middle a (PATCH_END ++ b ++ PATCH_START) rest) as H2.
  repeat rewrite <- app_assoc in Hi.
  repeat rewrite <- app_assoc in H2.
  unfold parseLLMResponse; rewrite Hi, Hj.
  replace (Z.of_nat (List.length a) =? -1)%Z
    with false by (symmetry; apply Z.eqb_neq; lia).
  replace (Z.of_nat (List.length (a ++ PATCH_END ++ b)) =? -1)%Z
    with false by (symmetry; apply Z.eqb_neq; lia).
  cbn [orb patch]; f_equal.
  rewrite substring_swap.
  replace (Z.of_nat (List.length (a ++ PATCH_END ++ b))
           + Z.of_nat (List.length PATCH_START))%Z
    with (Z.of_nat (List.length a
                    + List.length (PATCH_END ++ b ++ PATCH_START)))
    by (rewrite !length_app; lia).
  rewrite H2.
  change (PATCH_END ++ b ++ PATCH_START)
    with (80%N :: js "ATCH_END" ++ b ++ js "PATCH_STAR" ++ [84%N]).
  rewrite !app_assoc.
  rewrite <- (app_assoc (js "ATCH_END") b).
  apply trim_fixed; reflexivity.
Qed.

Lemma parseLLMResponse_reversed_markers_witness :
  patch (parseLLMResponse
           (js "done " ++ PATCH_END ++ js " then " ++ PATCH_START
              ++ js " x = 1"))
  = Some (PATCH_END ++ js " then " ++ PATCH_START).
Proof.
  apply (parseLLMResponse_reversed_markers (js "done ") (js " then ")
           (js " x = 1")); vm_compute; reflexivity.
Defined.

(** X23: without one of the two markers the response is cut at the first
    [---PATCH---].  With no separator the whole response, trimmed, is the
    answer and the patch is null; otherwise the answer is what comes before
    the first separator and the patch is all that comes after it, later
    separators included, both trimmed. *)
Theorem parseLLMResponse_fallback (response : jsstring) :
  indexOf response PATCH_START = (-1)%Z
  \/ indexOf response PATCH_END = (-1)%Z ->
  (~ occurs PATCH_SEPARATOR response ->
   parseLLMResponse response = mkParsed (trim response) None)
  /\ (forall a r,
        first_cut PATCH_SEPARATOR response a r ->
        parseLLMResponse response = mkParsed (trim a) (Some (trim r))).
Proof.
  intros Hm.
  assert (Hb : (indexOf response PATCH_START =? -1)%Z
               || (indexOf response PATCH_END =? -1)%Z = true).
  { destruct Hm as [-> | ->]; [|rewrite orb_true_r]; reflexivity. }
  unfold parseLLMResponse; rewrite Hb; unfold split; split.
  - intros Hn; rewrite (split_go_none _ _ [] Hn); reflexivity.
  - intros a r Hc; pose proof Hc as [-> _].
    rewrite (split_go_first PATCH_SEPARATOR a r) by
      (try discriminate; exact Hc).
    pose proof (split_go_not_nil PATCH_SEPARATOR r 0 []) as Hne.
    pose proof (join_split_go PATCH_SEPARATOR r) as Hjs.
    specialize (Hjs ltac:(discriminate) 0 []).
    destruct (split_go PATCH_SEPARATOR 0 [] r) as [|q l] eqn:E;
      [contradiction|].
    cbn [nth tl app]; rewrite Hjs; reflexivity.
Qed.

Lemma parseLLMResponse_fallback_witness :
  parseLLMResponse (js "a---PATCH---b---PATCH---c")
  = mkParsed (trim (js "a")) (Some (trim (js "b---PATCH---c"))).
Proof.
  apply (proj2 (parseLLMResponse_fallback (js "a---PATCH---b---PATCH---c")
                  (or_introl eq_refl))
           (js "a") (js "b---PATCH---c")).
  split; [reflexivity|].
  intros [|x a'] r' H; [discriminate H | simpl; lia].
Defined.

End ParseLLMClaims.
